(** * agent-sdk-core: the WebSocket transport

    A shallow embedding of [src/ws/client.ts] (class [WSClient]) and
    [src/ws/server.ts] ([createHeartbeat], [broadcast], [createWSServer]),
    with the properties of the transport design stated over it.

    Conventions of the embedding.
    - A JavaScript string is a [string]; [String.length] stands for its
      [.length].
    - A JavaScript number that carries a quantity (a delay, a random draw)
      is an exact rational of [Q]: IEEE rounding is not modelled.  Counters
      and sizes are [nat] or [Z].
    - A parsed JSON value is a [json] tree; an object is the list of its own
      properties in enumeration order.
    - [JSON.parse] and [JSON.stringify] belong to the runtime; they are
      parameters of the development ([None] stands for a thrown
      [SyntaxError]).
    - The event loop runs one callback at a time: each public method and each
      socket or timer callback is a function from state to state. *)

From Stdlib Require Import List String Ascii ZArith QArith Qminmax Qpower Bool Lia Lqa PeanoNat.
Import ListNotations.

Set Implicit Arguments.

(* ===================================================================== *)
(** * JSON values                                                          *)
(* ===================================================================== *)

Module Json.

Local Open Scope string_scope.

Unset Elimination Schemes.
Inductive json : Type :=
| JNull
| JBool (b : bool)
| JNumber (n : Q)
| JString (s : string)
| JArray (items : list json)
| JObject (fields : list (string * json)).
Set Elimination Schemes.

(** Induction that reaches the elements of arrays and the values of
    objects. *)
Section JsonInd.
Variable P : json -> Prop.
Hypothesis HNull : P JNull.
Hypothesis HBool : forall b, P (JBool b).
Hypothesis HNumber : forall n, P (JNumber n).
Hypothesis HString : forall s, P (JString s).
Hypothesis HArray : forall items, Forall P items -> P (JArray items).
Hypothesis HObject :
  forall fields, Forall (fun kv => P (snd kv)) fields -> P (JObject fields).

Fixpoint json_nested_ind (v : json) : P v :=
  match v with
  | JNull => HNull
  | JBool b => HBool b
  | JNumber n => HNumber n
  | JString s => HString s
  | JArray items =>
      HArray
        ((fix all (l : list json) : Forall P l :=
            match l with
            | [] => Forall_nil P
            | x :: r => Forall_cons x (json_nested_ind x) (all r)
            end) items)
  | JObject fields =>
      HObject
        ((fix all (l : list (string * json))
            : Forall (fun kv => P (snd kv)) l :=
            match l with
            | [] => Forall_nil _
            | kv :: r =>
                @Forall_cons _ (fun kv => P (snd kv)) kv r
                  (json_nested_ind (snd kv)) (all r)
            end) fields)
  end.
End JsonInd.

(** [obj[k]] restricted to own properties. *)
Fixpoint own_get (k : string) (fields : list (string * json)) : option json :=
  match fields with
  | [] => None
  | (k', v) :: rest => if String.eqb k k' then Some v else own_get k rest
  end.

Definition own_keys (fields : list (string * json)) : list string :=
  map fst fields.

(** [Object.prototype.hasOwnProperty.call(obj, k)]. *)
Definition hasOwn (k : string) (fields : list (string * json)) : bool :=
  existsb (String.eqb k) (own_keys fields).

(** The property names every ordinary object inherits from
    [Object.prototype] (ECMAScript, including the Annex B accessor
    [__proto__]). *)
Definition Object_prototype_keys : list string :=
  [ "constructor"; "__defineGetter__"; "__defineSetter__"; "hasOwnProperty";
    "__lookupGetter__"; "__lookupSetter__"; "isPrototypeOf";
    "propertyIsEnumerable"; "toString"; "valueOf"; "__proto__";
    "toLocaleString" ].

(** The [in] operator on an object produced by [JSON.parse]: own properties
    first, then the prototype chain, which for such an object is
    [Object.prototype] alone. *)
Definition js_in (k : string) (fields : list (string * json)) : bool :=
  hasOwn k fields || existsb (String.eqb k) Object_prototype_keys.

(** [typeof raw.type === 'string'] for an object [raw]: [Object.prototype]
    has no property [type], so only an own property can answer. *)
Definition type_is_string (fields : list (string * json)) : bool :=
  match own_get "type" fields with
  | Some (JString _) => true
  | _ => false
  end.

(** The three keys the transport treats as dangerous. *)
Definition dangerous_key (k : string) : bool :=
  String.eqb k "__proto__" || String.eqb k "constructor"
  || String.eqb k "prototype".

(** Modelled from the spec: [src/ws/sanitize.ts], which [server.ts] imports
    [sanitizeJson] from, is not among the available sources.  The design
    document describes it as a structural transform over the JSON sum type:
    at every nesting level of objects and arrays, every object key literally
    equal to ["__proto__"], ["constructor"] or ["prototype"] is omitted, and
    everything else is kept as it is. *)
Fixpoint sanitizeJson (v : json) : json :=
  match v with
  | JArray items => JArray (map sanitizeJson items)
  | JObject fields =>
      JObject
        ((fix strip (l : list (string * json)) : list (string * json) :=
            match l with
            | [] => []
            | (k, x) :: rest =>
                if dangerous_key k then strip rest
                else (k, sanitizeJson x) :: strip rest
            end) fields)
  | _ => v
  end.

(** The field transform of [sanitizeJson], named. *)
Fixpoint sanitize_fields (l : list (string * json)) : list (string * json) :=
  match l with
  | [] => []
  | (k, x) :: rest =>
      if dangerous_key k then sanitize_fields rest
      else (k, sanitizeJson x) :: sanitize_fields rest
  end.

(** Positions inside a value: an object key or an array index. *)
Inductive selector : Type :=
| Key (k : string)
| Index (i : nat).

Definition dangerous_selector (s : selector) : bool :=
  match s with
  | Key k => dangerous_key k
  | Index _ => false
  end.

(** The value found by following a path of selectors, if there is one. *)
Fixpoint get_path (p : list selector) (v : json) : option json :=
  match p with
  | [] => Some v
  | Key k :: p' =>
      match v with
      | JObject fields =>
          match own_get k fields with
          | Some x => get_path p' x
          | None => None
          end
      | _ => None
      end
  | Index i :: p' =>
      match v with
      | JArray items =>
          match nth_error items i with
          | Some x => get_path p' x
          | None => None
          end
      | _ => None
      end
  end.

(** No dangerous key at any depth. *)
Fixpoint clean (v : json) : bool :=
  match v with
  | JArray items => forallb clean items
  | JObject fields =>
      (fix all (l : list (string * json)) : bool :=
         match l with
         | [] => true
         | (k, x) :: rest => negb (dangerous_key k) && clean x && all rest
         end) fields
  | _ => true
  end.

Fixpoint clean_fields (l : list (string * json)) : bool :=
  match l with
  | [] => true
  | (k, x) :: rest => negb (dangerous_key k) && clean x && clean_fields rest
  end.

End Json.

(* ===================================================================== *)
(** * The WebSocket API both sides build on                                *)
(* ===================================================================== *)

(** [WebSocket.readyState]. *)
Inductive readyState : Type := CONNECTING | OPEN | CLOSING | CLOSED.

Definition readyState_eqb (a b : readyState) : bool :=
  match a, b with
  | CONNECTING, CONNECTING | OPEN, OPEN | CLOSING, CLOSING | CLOSED, CLOSED => true
  | _, _ => false
  end.

(* ===================================================================== *)
(** * The reconnecting client ([src/ws/client.ts])                         *)
(* ===================================================================== *)

Module Client.
Import Json.

Local Open Scope Q_scope.

(** A socket constructed by the client: its ready state and the frames that
    were handed to its [send], oldest first. *)
Record WebSocket : Type := mkSocket {
  readyState_of : readyState;
  sent : list string
}.

(** A [WSClientMessageHandler].  [hid] is the identity of the function
    object (what [Set.add] and [Set.delete] compare); [throws_on] tells on
    which arguments a call of it raises. *)
Record handler : Type := mkHandler {
  hid : nat;
  throws_on : json -> bool
}.

(** [WSClientOptions] without the URL. *)
Record WSClientOptions : Type := mkOptions {
  opt_maxAttempts : option Z;
  opt_maxBackoffMs : option Q;
  opt_maxQueueSize : option Z
}.

(** The readonly fields the constructor fills in. *)
Record config : Type := mkConfig {
  maxAttempts : Z;
  maxBackoffMs : Q;
  maxQueueSize : Z
}.

Definition nullish {A} (x : option A) (d : A) : A :=
  match x with Some v => v | None => d end.

Definition constructor (options : WSClientOptions) : config :=
  {| maxAttempts := nullish (opt_maxAttempts options) 10%Z;
     maxBackoffMs := nullish (opt_maxBackoffMs options) 30000;
     maxQueueSize := nullish (opt_maxQueueSize options) 10%Z |}.

(** The mutable fields of a [WSClient] together with the part of the runtime
    they refer to: the sockets the client has constructed (a socket is named
    by its position in [sockets]), the pending [setTimeout] callbacks (handle
    and delay), and the log of handler invocations. *)
Record world : Type := mkWorld {
  ws : option nat;
  listeners : list handler;
  queue : list string;
  attempts : nat;
  disposed : bool;
  reconnectTimer : option nat;
  sockets : list WebSocket;
  timers : list (nat * Q);
  next_timer : nat;
  delivered : list (nat * json)
}.

Definition initial : world :=
  {| ws := None; listeners := []; queue := []; attempts := 0%nat;
     disposed := false; reconnectTimer := None;
     sockets := []; timers := []; next_timer := 1%nat; delivered := [] |}.

Definition set_ws (x : option nat) (w : world) : world :=
  mkWorld x (listeners w) (queue w) (attempts w) (disposed w)
    (reconnectTimer w) (sockets w) (timers w) (next_timer w) (delivered w).
Definition set_listeners (x : list handler) (w : world) : world :=
  mkWorld (ws w) x (queue w) (attempts w) (disposed w)
    (reconnectTimer w) (sockets w) (timers w) (next_timer w) (delivered w).
Definition set_queue (x : list string) (w : world) : world :=
  mkWorld (ws w) (listeners w) x (attempts w) (disposed w)
    (reconnectTimer w) (sockets w) (timers w) (next_timer w) (delivered w).
Definition set_attempts (x : nat) (w : world) : world :=
  mkWorld (ws w) (listeners w) (queue w) x (disposed w)
    (reconnectTimer w) (sockets w) (timers w) (next_timer w) (delivered w).
Definition set_disposed (x : bool) (w : world) : world :=
  mkWorld (ws w) (listeners w) (queue w) (attempts w) x
    (reconnectTimer w) (sockets w) (timers w) (next_timer w) (delivered w).
Definition set_reconnectTimer (x : option nat) (w : world) : world :=
  mkWorld (ws w) (listeners w) (queue w) (attempts w) (disposed w)
    x (sockets w) (timers w) (next_timer w) (delivered w).
Definition set_sockets (x : list WebSocket) (w : world) : world :=
  mkWorld (ws w) (listeners w) (queue w) (attempts w) (disposed w)
    (reconnectTimer w) x (timers w) (next_timer w) (delivered w).
Definition set_timers (x : list (nat * Q)) (w : world) : world :=
  mkWorld (ws w) (listeners w) (queue w) (attempts w) (disposed w)
    (reconnectTimer w) (sockets w) x (next_timer w) (delivered w).
Definition set_next_timer (x : nat) (w : world) : world :=
  mkWorld (ws w) (listeners w) (queue w) (attempts w) (disposed w)
    (reconnectTimer w) (sockets w) (timers w) x (delivered w).
Definition set_delivered (x : list (nat * json)) (w : world) : world :=
  mkWorld (ws w) (listeners w) (queue w) (attempts w) (disposed w)
    (reconnectTimer w) (sockets w) (timers w) (next_timer w) x.

(** ** The runtime: sockets and timers *)

Fixpoint update_nth {A} (i : nat) (f : A -> A) (l : list A) : list A :=
  match l, i with
  | [], _ => []
  | x :: r, O => f x :: r
  | x :: r, S j => x :: update_nth j f r
  end.

Definition socket_state (i : nat) (w : world) : option readyState :=
  option_map readyState_of (nth_error (sockets w) i).

(** [this.ws?.readyState === st]; false when [this.ws] is null. *)
Definition ws_readyState_is (st : readyState) (w : world) : bool :=
  match ws w with
  | Some i =>
      match socket_state i w with
      | Some s => readyState_eqb s st
      | None => false
      end
  | None => false
  end.

Definition set_socket_state (i : nat) (st : readyState) (w : world) : world :=
  set_sockets (update_nth i (fun s => mkSocket st (sent s)) (sockets w)) w.

(** [socket.send(data)] on socket [i]. *)
Definition socket_send (i : nat) (data : string) (w : world) : world :=
  set_sockets
    (update_nth i (fun s => mkSocket (readyState_of s) (sent s ++ [data]))
       (sockets w)) w.

(** [socket.close()]: starts the closing handshake of a connecting or open
    socket, and does nothing to one that is closing or closed. *)
Definition socket_close (i : nat) (w : world) : world :=
  set_sockets
    (update_nth i
       (fun s =>
          match readyState_of s with
          | CONNECTING | OPEN => mkSocket CLOSING (sent s)
          | _ => s
          end) (sockets w)) w.

(** [new WebSocket(url)]: a fresh socket in state [CONNECTING]. *)
Definition new_WebSocket (w : world) : nat * world :=
  (List.length (sockets w), set_sockets (sockets w ++ [mkSocket CONNECTING []]) w).

(** [setTimeout(callback, delay)]: the only callback the client ever
    schedules is the reconnect callback, so a pending timer is its handle
    and its delay. *)
Definition setTimeout (delay : Q) (w : world) : nat * world :=
  (next_timer w,
   set_next_timer (S (next_timer w))
     (set_timers (timers w ++ [(next_timer w, delay)]) w)).

Definition clearTimeout (t : nat) (w : world) : world :=
  set_timers (filter (fun p => negb (Nat.eqb (fst p) t)) (timers w)) w.

Definition timer_pending (t : nat) (w : world) : bool :=
  existsb (fun p => Nat.eqb (fst p) t) (timers w).

(** ** The listener set *)

Definition listeners_has (h : handler) (ls : list handler) : bool :=
  existsb (fun h' => Nat.eqb (hid h') (hid h)) ls.

Definition listeners_add (h : handler) (ls : list handler) : list handler :=
  if listeners_has h ls then ls else ls ++ [h].

Definition listeners_delete (h : handler) (ls : list handler) : list handler :=
  filter (fun h' => negb (Nat.eqb (hid h') (hid h))) ls.

(** [this.listeners.forEach((fn) => fn(raw))]: the invocations made, in
    insertion order; an invocation that raises ends the iteration. *)
Fixpoint forEach_call (ls : list handler) (raw : json) : list (nat * json) :=
  match ls with
  | [] => []
  | h :: rest =>
      (hid h, raw) :: (if throws_on h raw then [] else forEach_call rest raw)
  end.

Section Methods.

Variable JSON_parse : string -> option json.
Variable JSON_stringify : json -> string.
Variable o : config.

(** ** Private methods *)

Fixpoint flushQueue_loop (q : list string) (w : world) : world :=
  match q with
  | [] => set_queue [] w
  | data :: rest =>
      if ws_readyState_is OPEN w then
        flushQueue_loop rest
          (match ws w with
           | Some i => socket_send i data (set_queue rest w)
           | None => set_queue rest w
           end)
      else set_queue q w
  end.

Definition flushQueue (w : world) : world := flushQueue_loop (queue w) w.

Definition connect (w : world) : world :=
  if disposed w then w
  else
    let (i, w1) := new_WebSocket w in
    set_ws (Some i) w1.

Definition ensureConnection (w : world) : world :=
  if ws_readyState_is OPEN w || ws_readyState_is CONNECTING w then w
  else connect w.

Definition backoff_base (n : nat) : Q :=
  Qmin (1000 * 2 ^ Z.of_nat n) (maxBackoffMs o).

Definition backoff_delay (n : nat) (random : Q) : Q :=
  let base := backoff_base n in
  let jitter := base * ((7 # 10) + random * (6 # 10)) in
  Qmin jitter (maxBackoffMs o).

(** [random] is the value [Math.random()] returns when it is called. *)
Definition scheduleReconnect (random : Q) (w : world) : world :=
  if (0 <? maxAttempts o)%Z && (maxAttempts o <=? Z.of_nat (attempts w))%Z
  then w
  else
    let delay := backoff_delay (attempts w) random in
    let w1 := set_attempts (S (attempts w)) w in
    let (t, w2) := setTimeout delay w1 in
    set_reconnectTimer (Some t) w2.

(** The callback given to [setTimeout]. *)
Definition reconnect_callback (w : world) : world :=
  connect (set_reconnectTimer None w).

(** ** Socket callbacks *)

Definition onopen (w : world) : world :=
  flushQueue (set_attempts 0%nat w).

Definition onmessage (data : string) (w : world) : world :=
  match JSON_parse data with
  | None => w (* SyntaxError, caught *)
  | Some raw =>
      match raw with
      | JObject fields =>
          if negb (type_is_string fields) then w
          else if js_in "__proto__" fields || js_in "constructor" fields
                  || js_in "prototype" fields
          then w
          else set_delivered (delivered w ++ forEach_call (listeners w) raw) w
      | JArray _ => w (* an object, but [raw.type] is undefined *)
      | _ => w (* [!raw], or [typeof raw !== 'object'] *)
      end
  end.

Definition onclose (random : Q) (w : world) : world :=
  if negb (disposed w) && (0 <? List.length (listeners w))%nat
  then scheduleReconnect random w
  else w.

Definition onerror (w : world) : world := w.

(** ** Public methods *)

Definition dispose (w : world) : world :=
  let w1 := set_disposed true w in
  let w2 :=
    match reconnectTimer w1 with
    | Some t => set_reconnectTimer None (clearTimeout t w1)
    | None => w1
    end in
  let w3 :=
    match ws w2 with
    | Some i => socket_close i w2
    | None => w2
    end in
  set_queue [] (set_ws None w3).

Definition subscribe (h : handler) (w : world) : world :=
  ensureConnection (set_listeners (listeners_add h (listeners w)) w).

(** The closure [subscribe(h)] returns. *)
Definition unsubscribe (h : handler) (w : world) : world :=
  let w1 := set_listeners (listeners_delete h (listeners w)) w in
  if (List.length (listeners w1) =? 0)%nat then dispose w1 else w1.

Definition send (message : json) (w : world) : world :=
  let data := JSON_stringify message in
  if ws_readyState_is OPEN w then
    match ws w with
    | Some i => socket_send i data w
    | None => w
    end
  else
    let q :=
      if (maxQueueSize o <=? Z.of_nat (List.length (queue w)))%Z
      then tl (queue w) else queue w in
    set_queue (q ++ [data]) w.

Definition connected (w : world) : bool := ws_readyState_is OPEN w.

(** ** The event loop

    One event is one turn of the loop: a call of a public method, or a
    callback of a socket or of a timer.  [step] is [None] when the runtime
    cannot produce the event in that state: a socket opens only while
    connecting, delivers messages only while open, closes once, and a
    timer fires only while pending. *)
Inductive event : Type :=
| Subscribe (h : handler)
| Unsubscribe (h : handler)
| Send (message : json)
| Dispose
| SockOpen (i : nat)
| SockMessage (i : nat) (data : string)
| SockError (i : nat)
| SockClose (i : nat) (random : Q)
| TimerFire (t : nat).

Definition step (e : event) (w : world) : option world :=
  match e with
  | Subscribe h => Some (subscribe h w)
  | Unsubscribe h => Some (unsubscribe h w)
  | Send m => Some (send m w)
  | Dispose => Some (dispose w)
  | SockOpen i =>
      match socket_state i w with
      | Some CONNECTING => Some (onopen (set_socket_state i OPEN w))
      | _ => None
      end
  | SockMessage i data =>
      match socket_state i w with
      | Some OPEN => Some (onmessage data w)
      | _ => None
      end
  | SockError i =>
      match socket_state i w with
      | Some CONNECTING | Some OPEN | Some CLOSING => Some (onerror w)
      | _ => None
      end
  | SockClose i random =>
      match socket_state i w with
      | Some CONNECTING | Some OPEN | Some CLOSING =>
          Some (onclose random (set_socket_state i CLOSED w))
      | _ => None
      end
  | TimerFire t =>
      if timer_pending t w
      then Some (reconnect_callback (clearTimeout t w))
      else None
  end.

Fixpoint run (es : list event) (w : world) : option world :=
  match es with
  | [] => Some w
  | e :: rest =>
      match step e w with
      | Some w' => run rest w'
      | None => None
      end
  end.


End Methods.

(** ** Observations *)

(** A well-formed inbound message: an object with a string [type] field. *)
Definition is_envelope (raw : json) : bool :=
  match raw with
  | JObject fields => type_is_string fields
  | _ => false
  end.

(** An object that carries one of the dangerous keys as an own, top-level
    property. *)
Definition has_dangerous_key (raw : json) : bool :=
  match raw with
  | JObject fields => existsb dangerous_key (own_keys fields)
  | _ => false
  end.

(** The double quote, for writing frames down. *)
Definition dq : string := String (ascii_of_nat 34) EmptyString.

Definition live (s : WebSocket) : bool :=
  match readyState_of s with
  | CONNECTING | OPEN => true
  | _ => false
  end.

(** The sockets of the client that are connecting or open. *)
Definition live_sockets (w : world) : list WebSocket := filter live (sockets w).

(** Every frame handed to a socket of the client, socket by socket. *)
Definition transmitted (w : world) : list string := flat_map sent (sockets w).

(** The fields [flushQueue] never touches. *)
Definition same_control (w w' : world) : Prop :=
  ws w' = ws w /\ listeners w' = listeners w /\ attempts w' = attempts w
  /\ disposed w' = disposed w /\ reconnectTimer w' = reconnectTimer w
  /\ timers w' = timers w /\ next_timer w' = next_timer w
  /\ delivered w' = delivered w
  /\ List.length (sockets w') = List.length (sockets w).

(** What [scheduleReconnect] does when it schedules. *)
Definition scheduled (o : config) (random : Q) (w w' : world) : Prop :=
  attempts w' = S (attempts w)
  /\ next_timer w' = S (next_timer w)
  /\ timers w' = timers w ++ [(next_timer w, backoff_delay o (attempts w) random)]
  /\ reconnectTimer w' = Some (next_timer w).

(** The state [dispose] leaves behind. *)
Definition torn_down (w : world) : Prop :=
  disposed w = true /\ ws w = None.

(** ** Sample inputs *)

Local Open Scope string_scope.

(** A frame [{"type":"chat","prototype":{}}]: well formed, with a dangerous
    top-level key. *)
Definition frame_with_prototype : string :=
  "{" ++ dq ++ "type" ++ dq ++ ":" ++ dq ++ "chat" ++ dq ++ ","
      ++ dq ++ "prototype" ++ dq ++ ":{}}".

Definition parsed_with_prototype : json :=
  JObject [("type", JString "chat"); ("prototype", JObject [])].

(** A frame [{"type":"chat"}]: well formed, with no dangerous key. *)
Definition chat_frame : string :=
  "{" ++ dq ++ "type" ++ dq ++ ":" ++ dq ++ "chat" ++ dq ++ "}".

Definition parsed_chat : json := JObject [("type", JString "chat")].

(** A parser that knows this one frame. *)
Definition parse_one (frame : string) (value : json) (data : string)
    : option json :=
  if String.eqb data frame then Some value else None.

Definition a_handler : handler := mkHandler 1 (fun _ => false).

Definition another_handler : handler := mkHandler 2 (fun _ => false).

(** A stand-in for [JSON.stringify] on the sample messages: a string
    without quotes or escapes is written between double quotes. *)
Definition sample_stringify (message : json) : string :=
  match message with
  | JString text => dq ++ text ++ dq
  | _ => "null"
  end.

Definition default_config : config := constructor (mkOptions None None None).

(** ** Traces *)

(** The messages given to [send] along a trace, in call order. *)
Fixpoint sends_of (es : list event) : list json :=
  match es with
  | [] => []
  | Send m :: rest => m :: sends_of rest
  | _ :: rest => sends_of rest
  end.

(** The handlers given to [subscribe] along a trace. *)
Definition subscribes (hs : list handler) : list event := map Subscribe hs.

(** [subsequence l1 l2]: [l1] is [l2] with some of its entries left out;
    the entries kept are in the order of [l2], and an entry that occurs
    once in [l2] occurs at most once in [l1]. *)
Inductive subsequence {A : Type} : list A -> list A -> Prop :=
| subsequence_nil : forall l, subsequence [] l
| subsequence_skip : forall x l1 l2,
    subsequence l1 l2 -> subsequence l1 (x :: l2)
| subsequence_take : forall x l1 l2,
    subsequence l1 l2 -> subsequence (x :: l1) (x :: l2).

(** What ties the queue to the socket the client holds: that socket is the
    one constructed last, and nothing waits in the queue while it is
    open. *)
Definition outbox_ok (w : world) : Prop :=
  (forall i, ws w = Some i -> S i = List.length (sockets w))
  /\ (ws_readyState_is OPEN w = true -> queue w = []).

(** What ties the socket the client holds to its subscribers: a disposed
    client holds none, and a client without subscribers is disposed or has
    neither socket nor pending timer. *)
Definition lifecycle_ok (w : world) : Prop :=
  (disposed w = true -> ws w = None)
  /\ (listeners w = [] ->
      disposed w = true \/ (ws w = None /\ timers w = [])).

(** A client with [maxQueueSize = 3], as in the queue test. *)
Definition queue_of_three : config :=
  constructor (mkOptions None None (Some 3%Z)).

End Client.

(* ===================================================================== *)
(** * The server ([src/ws/server.ts])                                       *)
(* ===================================================================== *)

Module Server.
Import Json.

Local Open Scope string_scope.
Local Open Scope Z_scope.
Local Open Scope list_scope.

(** [http.IncomingMessage], as far as the transport looks at it: the header
    list, names in lower case. *)
Record IncomingMessage : Type := mkRequest {
  headers : list (string * string)
}.

Fixpoint header (name : string) (hs : list (string * string)) : option string :=
  match hs with
  | [] => None
  | (n, v) :: rest => if String.eqb n name then Some v else header name rest
  end.

(** The argument the [ws] library gives to a [verifyClient] hook; [origin]
    is the request's [Origin] header, undefined when there is none. *)
Record info : Type := mkInfo {
  origin : option string;
  req : IncomingMessage
}.

Definition info_of (r : IncomingMessage) : info :=
  {| origin := header "origin" (headers r); req := r |}.

(** [WSServerOptions], without the binding target, the path and the payload
    ceiling, which go to the [ws] library untouched.  The two callbacks are
    observed through the effect log, so only their presence is recorded. *)
Record WSServerOptions : Type := mkOptions {
  heartbeatInterval : option Z;
  maxConnections : option Z;
  allowedOrigins : option (list string);
  verifyClient : option (IncomingMessage -> bool);
  onConnection : bool;
  onMessage : bool
}.

Definition default {A} (x : option A) (d : A) : A :=
  match x with Some v => v | None => d end.

(** A tracked connection: an [AliveWebSocket] of [wss.clients].  [isAlive]
    is [None] while the property has not been assigned; [routed] tells
    whether [createWSServer] attached its message and error handlers. *)
Record AliveWebSocket : Type := mkConn {
  conn_id : nat;
  readyState_of : readyState;
  isAlive : option bool;
  routed : bool
}.

(** What [console.warn] is called with. *)
Inductive warning : Type :=
| OriginRejected (o : option string)
| VerifierRejected
| LimitReached (max : Z)
| BroadcastTooLarge (len : Z).

(** The observable actions of the server code, in the order they happen. *)
Inductive effect : Type :=
| Stringified (message : json)            (* a call of JSON.stringify *)
| Warned (w : warning)                    (* console.warn *)
| Sent (id : nat) (data : string)         (* client.send(data) *)
| Pinged (id : nat)                       (* ws.ping() *)
| Terminated (id : nat)                   (* ws.terminate() *)
| Closed (id : nat) (code : Z) (reason : string) (* ws.close(code, reason) *)
| HandshakeRefused                        (* the library aborts the upgrade *)
| ConnectionCallback (id : nat)           (* options.onConnection(ws) *)
| MessageCallback (id : nat) (parsed : json). (* options.onMessage(ws, parsed) *)

(** A [WebSocketServer] with the heartbeat of [createHeartbeat] attached:
    the tracked connections in insertion order, whether the heartbeat
    interval is still scheduled, whether the server still accepts upgrades,
    and the effects so far. *)
Record WebSocketServer : Type := mkServer {
  clients : list AliveWebSocket;
  next_id : nat;
  interval_active : bool;
  accepting : bool;
  log : list effect
}.

Definition set_clients (x : list AliveWebSocket) (s : WebSocketServer) :=
  mkServer x (next_id s) (interval_active s) (accepting s) (log s).
Definition set_next_id (x : nat) (s : WebSocketServer) :=
  mkServer (clients s) x (interval_active s) (accepting s) (log s).
Definition set_interval_active (x : bool) (s : WebSocketServer) :=
  mkServer (clients s) (next_id s) x (accepting s) (log s).
Definition set_accepting (x : bool) (s : WebSocketServer) :=
  mkServer (clients s) (next_id s) (interval_active s) x (log s).
Definition emit (es : list effect) (s : WebSocketServer) :=
  mkServer (clients s) (next_id s) (interval_active s) (accepting s)
    (log s ++ es).

(** [new WebSocketServer(...)] followed by [createHeartbeat(wss, ...)]. *)
Definition new_server : WebSocketServer :=
  {| clients := []; next_id := 0%nat; interval_active := true;
     accepting := true; log := [] |}.

(** Apply [f] to the tracked connection named [id]. *)
Definition with_conn (id : nat) (f : AliveWebSocket -> AliveWebSocket)
    (s : WebSocketServer) : WebSocketServer :=
  set_clients
    (map (fun c => if Nat.eqb (conn_id c) id then f c else c) (clients s)) s.

Definition find_conn (id : nat) (s : WebSocketServer) : option AliveWebSocket :=
  find (fun c => Nat.eqb (conn_id c) id) (clients s).

Definition is_open (c : AliveWebSocket) : bool :=
  readyState_eqb (readyState_of c) OPEN.

(** [ws.close(code, reason)] and [ws.terminate()] of the [ws] library: both
    leave a closed socket alone and otherwise move it to [CLOSING]; the
    socket leaves [wss.clients] when its close event arrives. *)
Definition closing (c : AliveWebSocket) : AliveWebSocket :=
  match readyState_of c with
  | CLOSED => c
  | _ => mkConn (conn_id c) CLOSING (isAlive c) (routed c)
  end.

Definition set_isAlive (b : bool) (c : AliveWebSocket) : AliveWebSocket :=
  mkConn (conn_id c) (readyState_of c) (Some b) (routed c).

Definition set_routed (c : AliveWebSocket) : AliveWebSocket :=
  mkConn (conn_id c) (readyState_of c) (isAlive c) true.

(** ** createHeartbeat *)

(** The body of the interval callback for one connection. *)
Definition heartbeat_visit (c : AliveWebSocket) : AliveWebSocket * list effect :=
  match isAlive c with
  | Some false => (closing c, [Terminated (conn_id c)])
  | _ => (set_isAlive false c, [Pinged (conn_id c)])
  end.

(** [wss.clients.forEach(...)] of the interval callback. *)
Fixpoint heartbeat_forEach (cs : list AliveWebSocket)
    : list AliveWebSocket * list effect :=
  match cs with
  | [] => ([], [])
  | c :: rest =>
      let (c', e) := heartbeat_visit c in
      let (rest', es) := heartbeat_forEach rest in
      (c' :: rest', e ++ es)
  end.

Definition heartbeat_tick (s : WebSocketServer) : WebSocketServer :=
  let (cs, es) := heartbeat_forEach (clients s) in
  emit es (set_clients cs s).

(** The connection listener of [createHeartbeat]. *)
Definition heartbeat_on_connection (id : nat) (s : WebSocketServer) :=
  with_conn id (set_isAlive true) s.

(** The pong listener it installs. *)
Definition on_pong (id : nat) (s : WebSocketServer) : WebSocketServer :=
  with_conn id (set_isAlive true) s.

(** The function [createHeartbeat] returns: [clearInterval(interval)]. *)
Definition cleanupHeartbeat (s : WebSocketServer) : WebSocketServer :=
  set_interval_active false s.

(** ** broadcast *)

Definition MAX_BROADCAST_SIZE : Z := 1 * 1024 * 1024.

Definition js_length (data : string) : Z := Z.of_nat (String.length data).

Fixpoint broadcast_forEach (data : string) (cs : list AliveWebSocket)
    : list effect :=
  match cs with
  | [] => []
  | c :: rest =>
      if is_open c then Sent (conn_id c) data :: broadcast_forEach data rest
      else broadcast_forEach data rest
  end.

Section Broadcast.
Variable JSON_stringify : json -> string.

Definition broadcast (wss : WebSocketServer) (message : json)
    : WebSocketServer :=
  let data := JSON_stringify message in
  let wss1 := emit [Stringified message] wss in
  if MAX_BROADCAST_SIZE <? js_length data then
    emit [Warned (BroadcastTooLarge (js_length data))] wss1
  else
    emit (broadcast_forEach data (clients wss1)) wss1.
End Broadcast.

(** ** createWSServer *)

Definition includes (l : list string) (o : option string) : bool :=
  match o with
  | Some s => existsb (String.eqb s) l
  | None => false
  end.

(** The [verifyClient] hook handed to the [ws] library, when one is
    installed: its verdict and what it logs. *)
Definition verifyClient_hook (options : WSServerOptions)
    : option (info -> bool * list effect) :=
  match allowedOrigins options, verifyClient options with
  | None, None => None
  | ao, vc =>
      Some (fun i =>
        if match ao with
           | Some l => (0 <? List.length l)%nat && negb (includes l (origin i))
           | None => false
           end
        then (false, [Warned (OriginRejected (origin i))])
        else if match vc with
                | Some verify => negb (verify (req i))
                | None => false
                end
        then (false, [Warned VerifierRejected])
        else (true, []))
  end.

(** The connection listener of [createWSServer], for the connection [id]
    the library has just added to [wss.clients]. *)
Definition on_connection (options : WSServerOptions) (id : nat)
    (s : WebSocketServer) : WebSocketServer :=
  let max := default (maxConnections options) 100 in
  if (0 <? max) && (max <? Z.of_nat (List.length (clients s))) then
    emit [Warned (LimitReached max); Closed id 1013 "Max connections reached"]
      (with_conn id closing s)
  else
    let s1 := if onConnection options then emit [ConnectionCallback id] s
              else s in
    with_conn id set_routed s1.

(** What the [ws] library does with an upgrade request: ask the hook when
    there is one, refuse the handshake when it says no, and otherwise
    complete the upgrade, add the open socket to [wss.clients] and emit
    ['connection'] to the listeners in the order they were attached. *)
Definition handleUpgrade (options : WSServerOptions) (r : IncomingMessage)
    (s : WebSocketServer) : WebSocketServer :=
  let (ok, es) :=
    match verifyClient_hook options with
    | Some hook => hook (info_of r)
    | None => (true, [])
    end in
  if ok then
    let id := next_id s in
    let s1 :=
      set_next_id (S id)
        (set_clients (clients s ++ [mkConn id OPEN None false]) (emit es s)) in
    on_connection options id (heartbeat_on_connection id s1)
  else emit (es ++ [HandshakeRefused]) s.

Section Routing.
Variable JSON_parse : string -> option json.

(** The message listener of a routed connection. *)
Definition on_message (options : WSServerOptions) (id : nat) (raw : string)
    (s : WebSocketServer) : WebSocketServer :=
  if negb (onMessage options) then s
  else
    match JSON_parse raw with
    | Some v => emit [MessageCallback id (sanitizeJson v)] s
    | None => s (* ignore malformed *)
    end.
End Routing.

(** The close event of a connection: the library drops it from
    [wss.clients]. *)
Definition on_close (id : nat) (s : WebSocketServer) : WebSocketServer :=
  set_clients (filter (fun c => negb (Nat.eqb (conn_id c) id)) (clients s)) s.

(** The [cleanup] function [createWSServer] returns. *)
Definition cleanup (s : WebSocketServer) : WebSocketServer :=
  set_accepting false (cleanupHeartbeat s).

(** ** The event loop of the server *)

Section Loop.
Variable JSON_parse : string -> option json.
Variable JSON_stringify : json -> string.
Variable options : WSServerOptions.

Inductive event : Type :=
| Upgrade (r : IncomingMessage)
| Tick
| Pong (id : nat)
| Message (id : nat) (raw : string)
| Close (id : nat)
| Broadcast (message : json)
| CleanupHeartbeat
| Cleanup.

(** [None] when the runtime cannot produce the event: the interval fires
    only while scheduled, upgrades arrive only while the server listens,
    and socket events come from tracked connections. *)
Definition step (e : event) (s : WebSocketServer) : option WebSocketServer :=
  match e with
  | Upgrade r => if accepting s then Some (handleUpgrade options r s) else None
  | Tick => if interval_active s then Some (heartbeat_tick s) else None
  | Pong id =>
      match find_conn id s with
      | Some _ => Some (on_pong id s)
      | None => None
      end
  | Message id raw =>
      match find_conn id s with
      | Some c =>
          if routed c && is_open c
          then Some (on_message JSON_parse options id raw s) else None
      | None => None
      end
  | Close id =>
      match find_conn id s with
      | Some _ => Some (on_close id s)
      | None => None
      end
  | Broadcast m => Some (broadcast JSON_stringify s m)
  | CleanupHeartbeat => Some (cleanupHeartbeat s)
  | Cleanup => Some (cleanup s)
  end.

Fixpoint run (es : list event) (s : WebSocketServer) : option WebSocketServer :=
  match es with
  | [] => Some s
  | e :: rest =>
      match step e s with
      | Some s' => run rest s'
      | None => None
      end
  end.
End Loop.

(** ** Observations *)

Definition sent_to (id : nat) (es : list effect) : list string :=
  flat_map (fun e =>
    match e with
    | Sent id' data => if Nat.eqb id' id then [data] else []
    | _ => []
    end) es.



Definition is_probe (e : effect) : bool :=
  match e with Pinged _ | Terminated _ => true | _ => false end.

Definition open_clients (s : WebSocketServer) : list AliveWebSocket :=
  filter is_open (clients s).

(** Whether some tracked connection named [id] is open. *)
Definition tracked_open (id : nat) (s : WebSocketServer) : bool :=
  existsb (fun c => Nat.eqb (conn_id c) id && is_open c) (clients s).

(** Connection names are handed out in increasing order. *)
Definition ids_fresh (s : WebSocketServer) : Prop :=
  Forall (fun c => (conn_id c < next_id s)%nat) (clients s).

(** The verdict of the admission gate on a request, before the upgrade. *)
Definition admits (options : WSServerOptions) (r : IncomingMessage) : bool :=
  match verifyClient_hook options with
  | Some hook => fst (hook (info_of r))
  | None => true
  end.

(** The verdict of the custom verifier alone; true when there is none. *)
Definition verifier_accepts (options : WSServerOptions) (r : IncomingMessage)
    : bool :=
  match verifyClient options with
  | Some verify => verify r
  | None => true
  end.

(** Whether a connection count is over the configured ceiling. *)
Definition over_limit (options : WSServerOptions) (count : nat) : bool :=
  let max := default (maxConnections options) 100 in
  (0 <? max) && (max <? Z.of_nat count).

(** The events by which connection [id] answers a probe or goes away. *)
Definition pong_or_close_of (id : nat) (e : event) : bool :=
  match e with
  | Pong id' | Close id' => Nat.eqb id' id
  | _ => false
  end.

(** What one heartbeat tick does to a connection, and what it logs. *)
Definition probed (c : AliveWebSocket) : AliveWebSocket :=
  match isAlive c with
  | Some false => closing c
  | _ => set_isAlive false c
  end.

Definition probe_of (c : AliveWebSocket) : effect :=
  match isAlive c with
  | Some false => Terminated (conn_id c)
  | _ => Pinged (conn_id c)
  end.

(** Every tracked connection named [id] satisfies [P]. *)
Definition all_named (id : nat) (P : AliveWebSocket -> Prop)
    (s : WebSocketServer) : Prop :=
  Forall (fun c => conn_id c = id -> P c) (clients s).

Definition tracked (id : nat) (s : WebSocketServer) : bool :=
  existsb (fun c => Nat.eqb (conn_id c) id) (clients s).

(** The heartbeat on an ideal clock: the [k]-th callback of
    [setInterval(..., intervalMs)] runs [k * intervalMs] milliseconds after
    [createHeartbeat], and [ticks_before intervalMs t] callbacks have run by
    time [t]. *)
Definition tick_time (intervalMs k : Z) : Z := k * intervalMs.

Definition ticks_before (intervalMs t : Z) : Z := t / intervalMs.

Definition flagged (c : AliveWebSocket) : Prop := isAlive c = Some false.

Definition is_closing (c : AliveWebSocket) : Prop := readyState_of c = CLOSING.

(** ** Sample inputs *)

Definition request_from (o : string) : IncomingMessage :=
  mkRequest [("host", "localhost"); ("origin", o)].

Definition plain_options : WSServerOptions :=
  {| heartbeatInterval := None; maxConnections := None;
     allowedOrigins := None; verifyClient := None;
     onConnection := false; onMessage := false |}.

Definition with_allowedOrigins (l : list string) : WSServerOptions :=
  {| heartbeatInterval := None; maxConnections := None;
     allowedOrigins := Some l; verifyClient := None;
     onConnection := false; onMessage := false |}.

Definition with_maxConnections (m : Z) : WSServerOptions :=
  {| heartbeatInterval := None; maxConnections := Some m;
     allowedOrigins := None; verifyClient := None;
     onConnection := false; onMessage := false |}.

(** Three tracked connections: open, closing, open. *)
Definition three_clients : WebSocketServer :=
  {| clients := [mkConn 0 OPEN (Some true) true;
                 mkConn 1 CLOSING (Some true) true;
                 mkConn 2 OPEN (Some false) true];
     next_id := 3%nat; interval_active := true; accepting := true;
     log := [] |}.

(** Two tracked connections, both open. *)
Definition two_open : WebSocketServer :=
  {| clients := [mkConn 0 OPEN (Some true) true;
                 mkConn 1 OPEN (Some true) true];
     next_id := 2%nat; interval_active := true; accepting := true;
     log := [] |}.

Definition no_parse (raw : string) : option json := None.

(** ['x'.repeat(2 ^ n)]. *)
Fixpoint doubled (n : nat) (s : string) : string :=
  match n with
  | O => s
  | S k => doubled k (s ++ s)%string
  end.

(** ** Traces *)

(** Whether connection [id] answers every probe along a trace: each tick
    finds that a pong of [id] has arrived since the tick before.  [alive]
    tells whether the connection may miss the pong before the first
    tick, as one whose flag is still set may. *)
Fixpoint probes_answered (id : nat) (alive : bool) (es : list event) : bool :=
  match es with
  | [] => true
  | Tick :: rest => alive && probes_answered id false rest
  | Pong id' :: rest => probes_answered id (alive || Nat.eqb id' id) rest
  | _ :: rest => probes_answered id alive rest
  end.

(** The flag of the connection is not lowered. *)
Definition unflagged (c : AliveWebSocket) : Prop := isAlive c <> Some false.

(** The connection has no message handler of [createWSServer]. *)
Definition unrouted (c : AliveWebSocket) : Prop := routed c = false.

(** The calls of [onConnection] and [onMessage] for connection [id]. *)
Definition is_callback_of (id : nat) (e : effect) : bool :=
  match e with
  | ConnectionCallback id' | MessageCallback id' _ => Nat.eqb id' id
  | _ => false
  end.

(** A message whose serialization [broadcast] lets through. *)
Definition within_limit (JSON_stringify : json -> string) (m : json) : bool :=
  negb (MAX_BROADCAST_SIZE <? js_length (JSON_stringify m)).

Definition broadcasts (ms : list json) : list event := map Broadcast ms.

(** ** The loop with frames from any tracked connection *)

Section Wire.
Variable JSON_parse : string -> option json.
Variable JSON_stringify : json -> string.
Variable options : WSServerOptions.

(** The loop again, with every frame the wire can deliver: the runtime
    emits ['message'] on a tracked socket whatever its state (a socket the
    server is closing still receives until the closing handshake ends), and
    the message listener of [createWSServer] runs when the connection
    listener attached it; a socket without one drops the frame. *)
Definition step_wire (e : event) (s : WebSocketServer)
    : option WebSocketServer :=
  match e with
  | Message id raw =>
      match find_conn id s with
      | Some c =>
          Some (if routed c then on_message JSON_parse options id raw s
                else s)
      | None => None
      end
  | _ => step JSON_parse JSON_stringify options e s
  end.

Fixpoint run_wire (es : list event) (s : WebSocketServer)
    : option WebSocketServer :=
  match es with
  | [] => Some s
  | e :: rest =>
      match step_wire e s with
      | Some s' => run_wire rest s'
      | None => None
      end
  end.
End Wire.

(** Both callbacks installed, and a connection ceiling. *)
Definition with_callbacks (m : Z) : WSServerOptions :=
  {| heartbeatInterval := None; maxConnections := Some m;
     allowedOrigins := None; verifyClient := None;
     onConnection := true; onMessage := true |}.

End Server.

(* ===================================================================== *)
(** * Properties of the sanitizer                                          *)
(* ===================================================================== *)

Module JsonFacts.
Import Json.

Local Open Scope string_scope.

Lemma sanitizeJson_object fields :
  sanitizeJson (JObject fields) = JObject (sanitize_fields fields).
Proof. reflexivity. Qed.

Lemma clean_object fields : clean (JObject fields) = clean_fields fields.
Proof. reflexivity. Qed.

Lemma dangerous_key_eqb k k' :
  String.eqb k k' = true -> dangerous_key k = dangerous_key k'.
Proof. intros H. apply String.eqb_eq in H. subst. reflexivity. Qed.

Lemma own_get_sanitize_fields k fields :
  own_get k (sanitize_fields fields) =
  if dangerous_key k then None else option_map sanitizeJson (own_get k fields).
Proof.
  induction fields as [|[k' x] rest IH]; simpl.
  - destruct (dangerous_key k); reflexivity.
  - destruct (dangerous_key k') eqn:Dk'; simpl.
    + rewrite IH. destruct (String.eqb k k') eqn:E.
      * rewrite (dangerous_key_eqb _ _ E), Dk'. reflexivity.
      * reflexivity.
    + destruct (String.eqb k k') eqn:E.
      * rewrite (dangerous_key_eqb _ _ E), Dk'. reflexivity.
      * apply IH.
Qed.

Lemma own_keys_sanitize_fields fields :
  own_keys (sanitize_fields fields) =
  filter (fun k => negb (dangerous_key k)) (own_keys fields).
Proof.
  induction fields as [|[k x] rest IH]; simpl.
  - reflexivity.
  - destruct (dangerous_key k); simpl; rewrite <- IH; reflexivity.
Qed.

Lemma get_path_dangerous_clean p :
  existsb dangerous_selector p = true ->
  forall v, get_path p (sanitizeJson v) = None.
Proof.
  induction p as [|s p IH]; simpl; intros H v.
  - discriminate.
  - destruct s as [k|i]; simpl in H.
    + destruct v; try reflexivity.
      rewrite sanitizeJson_object, own_get_sanitize_fields.
      destruct (dangerous_key k) eqn:Dk; [reflexivity|].
      simpl in H.
      destruct (own_get k fields); simpl; [apply IH; exact H | reflexivity].
    + destruct v; try reflexivity.
      simpl. rewrite nth_error_map.
      destruct (nth_error items i); simpl; [apply IH; exact H | reflexivity].
Qed.

Lemma get_path_sanitize p :
  forall v,
    get_path p (sanitizeJson v) =
    if existsb dangerous_selector p then None
    else option_map sanitizeJson (get_path p v).
Proof.
  destruct (existsb dangerous_selector p) eqn:D.
  - intros v. apply get_path_dangerous_clean. exact D.
  - revert D. induction p as [|s p IH]; simpl; intros D v.
    + reflexivity.
    + apply orb_false_elim in D. destruct D as [Ds Dp].
      destruct s as [k|i]; simpl in Ds.
      * destruct v; try reflexivity.
        rewrite sanitizeJson_object, own_get_sanitize_fields, Ds.
        destruct (own_get k fields); simpl; [apply IH; exact Dp | reflexivity].
      * destruct v; try reflexivity.
        simpl. rewrite nth_error_map.
        destruct (nth_error items i); simpl; [apply IH; exact Dp | reflexivity].
Qed.

Lemma clean_sanitizeJson v : clean (sanitizeJson v) = true.
Proof.
  induction v using json_nested_ind; try reflexivity.
  - simpl. rewrite forallb_forall. intros y Hy.
    apply in_map_iff in Hy. destruct Hy as [x [<- Hx]].
    rewrite Forall_forall in H. apply H. exact Hx.
  - rewrite sanitizeJson_object, clean_object.
    induction H as [|[k x] rest Hx _ IH]; simpl.
    + reflexivity.
    + destruct (dangerous_key k) eqn:Dk; simpl.
      * exact IH.
      * rewrite Dk. simpl in Hx. rewrite Hx, IH. reflexivity.
Qed.

Lemma sanitizeJson_clean_id v : clean v = true -> sanitizeJson v = v.
Proof.
  induction v using json_nested_ind; try reflexivity.
  - simpl. intros C. f_equal.
    induction H as [|x rest Hx _ IH]; simpl in *.
    + reflexivity.
    + apply andb_prop in C. destruct C as [Cx Cr].
      rewrite (Hx Cx), (IH Cr). reflexivity.
  - rewrite sanitizeJson_object, clean_object. intros C. f_equal.
    induction H as [|[k x] rest Hx _ IH]; simpl in *.
    + reflexivity.
    + apply andb_prop in C. destruct C as [C Cr].
      apply andb_prop in C. destruct C as [Ck Cx].
      apply negb_true_iff in Ck. rewrite Ck, (Hx Cx), (IH Cr). reflexivity.
Qed.

Lemma sanitizeJson_fixpoint_clean v : sanitizeJson v = v -> clean v = true.
Proof. intros E. rewrite <- E. apply clean_sanitizeJson. Qed.

(** C8.  [sanitizeJson] returns its argument with every object key equal to
    ["__proto__"], ["constructor"] or ["prototype"] left out at every nesting
    level of objects and arrays, and nothing else changed: the result has no
    such key at any depth; a path through the result finds nothing when it
    names such a key and otherwise finds the sanitized image of what the
    same path finds in the input; the kept keys of an object come in their
    original order and an array keeps its length; and a value without such a
    key is returned as it is.  The function is pure, so the input and every
    other object are left as they were. *)
Theorem sanitizeJson_strips_dangerous_keys :
  forall v : json,
    clean (sanitizeJson v) = true
    /\ (forall p : list selector,
          get_path p (sanitizeJson v) =
          if existsb dangerous_selector p then None
          else option_map sanitizeJson (get_path p v))
    /\ (forall fields : list (string * json),
          sanitizeJson (JObject fields) = JObject (sanitize_fields fields)
          /\ own_keys (sanitize_fields fields) =
             filter (fun k => negb (dangerous_key k)) (own_keys fields))
    /\ (forall items : list json,
          sanitizeJson (JArray items) = JArray (map sanitizeJson items))
    /\ (if clean v then sanitizeJson v = v else sanitizeJson v <> v).
Proof.
  intros v. split; [apply clean_sanitizeJson|].
  split; [intros p; apply get_path_sanitize|].
  split; [intros fs; split;
          [apply sanitizeJson_object | apply own_keys_sanitize_fields]|].
  split; [reflexivity|].
  destruct (clean v) eqn:C.
  - apply sanitizeJson_clean_id. exact C.
  - intros E. apply sanitizeJson_fixpoint_clean in E. congruence.
Qed.

(** The payload of the prototype-pollution test of the server. *)
Example sanitizeJson_test_payload :
  sanitizeJson
    (JObject [("type", JString "test");
              ("__proto__", JObject [("isAdmin", JBool true)]);
              ("data", JObject [("nested", JBool true);
                                ("__proto__", JObject [("evil", JBool true)])])])
  = JObject [("type", JString "test");
             ("data", JObject [("nested", JBool true)])].
Proof. reflexivity. Qed.

End JsonFacts.

(* ===================================================================== *)
(** * Properties of the reconnecting client                                *)
(* ===================================================================== *)

Module ClientFacts.
Import Json Client.

Local Open Scope string_scope.
Local Open Scope list_scope.

(** ** Inbound messages *)

Lemma js_in_constructor fields : js_in "constructor" fields = true.
Proof. unfold js_in. apply orb_true_r. Qed.

Lemma hasOwn_dangerous fields :
  existsb dangerous_key (own_keys fields) = true ->
  hasOwn "__proto__" fields || hasOwn "constructor" fields
  || hasOwn "prototype" fields = true.
Proof.
  unfold hasOwn. induction (own_keys fields) as [|k ks IH]; cbn [existsb].
  - discriminate.
  - unfold dangerous_key at 1.
    rewrite (String.eqb_sym "__proto__" k), (String.eqb_sym "constructor" k),
      (String.eqb_sym "prototype" k).
    destruct (String.eqb k "__proto__"), (String.eqb k "constructor"),
      (String.eqb k "prototype"); cbn [orb];
      rewrite ?orb_true_r; try reflexivity.
    intros H. specialize (IH H).
    destruct (existsb (String.eqb "__proto__") ks),
      (existsb (String.eqb "constructor") ks),
      (existsb (String.eqb "prototype") ks); cbn [orb] in *;
      try reflexivity; discriminate.
Qed.

Section Inbound.
Variable JSON_parse : string -> option json.

(** The guard of [onmessage] asks [in], which looks through the prototype
    chain, and every object [JSON.parse] builds inherits [constructor] and
    [__proto__] from [Object.prototype]: the guard holds of every object,
    and no frame ever reaches the listeners. *)
Lemma onmessage_never_invokes_a_handler data w :
  onmessage JSON_parse data w = w.
Proof.
  unfold onmessage.
  destruct (JSON_parse data) as [raw|]; [|reflexivity].
  destruct raw; try reflexivity.
  destruct (negb (type_is_string fields)); [reflexivity|].
  rewrite js_in_constructor, orb_true_r. reflexivity.
Qed.

(** Whatever the guard lets through, [onmessage] touches nothing but the
  log of handler invocations. *)
Lemma onmessage_only_delivers data w :
exists d, onmessage JSON_parse data w = set_delivered d w.
Proof.
assert (Same : w = set_delivered (delivered w) w) by (destruct w; reflexivity).
unfold onmessage.
destruct (JSON_parse data) as [raw|]; [|exists (delivered w); exact Same].
destruct raw; try (exists (delivered w); exact Same).
destruct (negb (type_is_string fields)); [exists (delivered w); exact Same|].
destruct (js_in "__proto__" fields || js_in "constructor" fields
          || js_in "prototype" fields);
  [exists (delivered w); exact Same|].
eexists. reflexivity.
Qed.

(** The frames the guards of [onmessage] name.  A frame that fails to
    parse, that does not parse to an object with a string [type] field, or
    whose object carries ["__proto__"], ["constructor"] or ["prototype"] as
    a top-level key is discarded: [onmessage] returns normally (its [try]
    block catches whatever parsing raises), no handler is invoked and the
    client is left as it was.  The client applies no sanitization. *)
Theorem onmessage_discards :
  forall (data : string) (w : world),
    (JSON_parse data = None
     \/ (exists raw, JSON_parse data = Some raw /\ is_envelope raw = false)
     \/ (exists raw, JSON_parse data = Some raw
                     /\ has_dangerous_key raw = true)) ->
    onmessage JSON_parse data w = w
    /\ delivered (onmessage JSON_parse data w) = delivered w.
Proof.
  intros data w H.
  assert (E : onmessage JSON_parse data w = w).
  { unfold onmessage.
    destruct H as [H|[[raw [H Hraw]]|[raw [H Hraw]]]]; rewrite H.
    - reflexivity.
    - destruct raw; try reflexivity.
      simpl in Hraw. rewrite Hraw. reflexivity.
    - destruct raw; try reflexivity.
      simpl in Hraw. apply hasOwn_dangerous in Hraw.
      destruct (negb (type_is_string fields)); [reflexivity|].
      unfold js_in.
      destruct (hasOwn "__proto__" fields); [reflexivity|].
      destruct (hasOwn "constructor" fields); [reflexivity|].
      cbn [orb] in Hraw. rewrite Hraw.
      cbn [orb]. rewrite ?orb_true_r. reflexivity. }
  rewrite E. split; reflexivity.
Qed.

(** C1 fails.  A frame that parses to an object with a string [type]
    field and has none of the dangerous keys of its own is discarded like
    any other, although handlers are subscribed: [onmessage] leaves the
    client as it was and invokes no handler, where the delivery
    [this.listeners.forEach((fn) => fn(raw))] it was written to reach
    invokes the handler subscribed first at least.  The guard before that
    line asks ['constructor' in raw], and every object [JSON.parse] builds
    inherits [constructor]. *)
Theorem well_formed_frame_reaches_no_handler :
  forall (data : string) (raw : json) (w : world),
    JSON_parse data = Some raw ->
    is_envelope raw = true ->
    has_dangerous_key raw = false ->
    listeners w <> [] ->
    (exists h rest, listeners w = h :: rest
                    /\ In (hid h, raw) (forEach_call (listeners w) raw))
    /\ onmessage JSON_parse data w = w
    /\ delivered (onmessage JSON_parse data w) = delivered w
    /\ delivered (onmessage JSON_parse data w)
       <> delivered w ++ forEach_call (listeners w) raw.
Proof.
  intros data raw w _ _ _ L.
  destruct (listeners w) as [|h rest] eqn:EL; [contradiction|].
  rewrite onmessage_never_invokes_a_handler.
  split; [exists h, rest; split; [reflexivity | left; reflexivity]|].
  split; [reflexivity|]. split; [reflexivity|].
  intros E. apply (f_equal (@List.length _)) in E.
  rewrite length_app in E. simpl in E. lia.
Qed.
End Inbound.

(** A subscribed handler does not receive the sanitized image of a
    well-formed frame that carries a dangerous key either; the frame is
    dropped whole. *)
Lemma onmessage_drops_frame_with_dangerous_key :
  let parse := parse_one frame_with_prototype parsed_with_prototype in
  let w := subscribe a_handler initial in
  parse frame_with_prototype = Some parsed_with_prototype
  /\ is_envelope parsed_with_prototype = true
  /\ In a_handler (listeners w)
  /\ ~ In (hid a_handler, sanitizeJson parsed_with_prototype)
         (delivered (onmessage parse frame_with_prototype w)).
Proof.
  cbv zeta. split; [reflexivity|]. split; [reflexivity|].
  split; [left; reflexivity|].
  vm_compute. intros [].
Qed.

Lemma onmessage_discards_witness :
  let parse := parse_one frame_with_prototype parsed_with_prototype in
  let w := subscribe a_handler initial in
  onmessage parse frame_with_prototype w = w
  /\ delivered (onmessage parse frame_with_prototype w) = delivered w.
Proof.
  cbv zeta.
  apply (onmessage_discards
           (parse_one frame_with_prototype parsed_with_prototype)
           frame_with_prototype (subscribe a_handler initial)).
  right. right. exists parsed_with_prototype. split; reflexivity.
Defined.

(** The frame [{"type":"chat"}] arrives on the open socket of a client
    with one subscribed handler. *)
Lemma well_formed_frame_reaches_no_handler_witness :
  let parse := parse_one chat_frame parsed_chat in
  let o := default_config in
  exists w,
    run parse sample_stringify o [Subscribe a_handler; SockOpen 0] initial
    = Some w
    /\ step parse sample_stringify o (SockMessage 0 chat_frame) w
       = Some (onmessage parse chat_frame w)
    /\ parse chat_frame = Some parsed_chat
    /\ is_envelope parsed_chat = true
    /\ has_dangerous_key parsed_chat = false
    /\ listeners w <> []
    /\ ((exists h rest, listeners w = h :: rest
                        /\ In (hid h, parsed_chat)
                             (forEach_call (listeners w) parsed_chat))
        /\ onmessage parse chat_frame w = w
        /\ delivered (onmessage parse chat_frame w) = delivered w
        /\ delivered (onmessage parse chat_frame w)
           <> delivered w ++ forEach_call (listeners w) parsed_chat).
Proof.
  cbv zeta. eexists.
  split; [vm_compute; reflexivity|].
  split; [reflexivity|].
  split; [reflexivity|]. split; [reflexivity|]. split; [reflexivity|].
  split; [discriminate|].
  apply (@well_formed_frame_reaches_no_handler
           (parse_one chat_frame parsed_chat) chat_frame parsed_chat).
  - reflexivity.
  - reflexivity.
  - reflexivity.
  - discriminate.
Defined.

(** ** Frame lemmas: what the runtime operations leave alone *)

Lemma update_nth_length {A} i (f : A -> A) l :
  List.length (update_nth i f l) = List.length l.
Proof.
  revert i. induction l as [|x r IH]; intros [|i]; simpl; auto.
Qed.

Lemma nth_error_update_nth {A} i j (f : A -> A) l :
  nth_error (update_nth i f l) j =
  if Nat.eqb i j then option_map f (nth_error l j) else nth_error l j.
Proof.
  revert i j. induction l as [|x r IH]; intros [|i] [|j]; simpl; auto.
  - destruct (Nat.eqb i j); reflexivity.
Qed.

Lemma update_nth_twice {A} i (f g : A -> A) l :
  update_nth i f (update_nth i g l) = update_nth i (fun x => f (g x)) l.
Proof.
  revert i. induction l as [|x r IH]; intros [|i]; simpl; auto.
  rewrite IH. reflexivity.
Qed.

Lemma update_nth_ext {A} i (f g : A -> A) l :
  (forall x, f x = g x) -> update_nth i f l = update_nth i g l.
Proof.
  intros E. revert i. induction l as [|x r IH]; intros [|i]; simpl; auto.
  - rewrite E. reflexivity.
  - rewrite IH. reflexivity.
Qed.

Lemma update_nth_id {A} i (f : A -> A) l :
  (forall x, f x = x) -> update_nth i f l = l.
Proof.
  intros E. revert i. induction l as [|x r IH]; intros [|i]; simpl; auto.
  - rewrite E. reflexivity.
  - rewrite IH. reflexivity.
Qed.

Lemma flat_map_sent_update_nth i (f : WebSocket -> WebSocket) l :
  (forall s, sent (f s) = sent s) ->
  flat_map sent (update_nth i f l) = flat_map sent l.
Proof.
  intros E. revert i. induction l as [|x r IH]; intros [|i]; simpl; auto.
  - rewrite E. reflexivity.
  - rewrite IH. reflexivity.
Qed.

Lemma ws_readyState_is_None st w : ws w = None -> ws_readyState_is st w = false.
Proof. unfold ws_readyState_is. intros ->. reflexivity. Qed.

Lemma flushQueue_loop_control q :
  forall w, same_control w (flushQueue_loop q w).
Proof.
  unfold same_control.
  induction q as [|data rest IH]; intros w; simpl.
  - repeat split; reflexivity.
  - destruct (ws_readyState_is OPEN w).
    + destruct (ws w) as [i|] eqn:Ews.
      * specialize (IH (socket_send i data (set_queue rest w))).
        simpl in IH. rewrite update_nth_length in IH.
        rewrite Ews in IH. exact IH.
      * specialize (IH (set_queue rest w)). simpl in IH.
        rewrite Ews in IH. exact IH.
    + repeat split; reflexivity.
Qed.

Lemma flushQueue_loop_not_open q w :
  ws_readyState_is OPEN w = false -> flushQueue_loop q w = set_queue q w.
Proof.
  intros H. destruct q as [|data rest]; simpl.
  - reflexivity.
  - rewrite H. reflexivity.
Qed.

Lemma socket_send_keeps_open i j data w :
  socket_state j (socket_send i data w) = socket_state j w.
Proof.
  unfold socket_state, socket_send. simpl.
  rewrite nth_error_update_nth.
  destruct (Nat.eqb i j); [|reflexivity].
  destruct (nth_error (sockets w) j); reflexivity.
Qed.

(** While the socket of the client is open, [flushQueue] hands the whole
    queue to it, oldest first, and leaves the queue empty. *)
Lemma flushQueue_loop_open q :
  forall w i,
    ws w = Some i -> socket_state i w = Some OPEN ->
    flushQueue_loop q w =
    set_queue []
      (set_sockets
         (update_nth i (fun s => mkSocket (readyState_of s) (sent s ++ q))
            (sockets w)) w).
Proof.
  induction q as [|data rest IH]; intros w i Ews Est; simpl.
  - rewrite update_nth_id.
    + destruct w; reflexivity.
    + intros [st sn]. simpl. rewrite app_nil_r. reflexivity.
  - unfold ws_readyState_is. rewrite Ews, Est. simpl. 
    rewrite (IH (socket_send i data (set_queue rest w)) i).
    + simpl. rewrite update_nth_twice. unfold set_queue, set_sockets. simpl.
      f_equal. apply update_nth_ext. intros [st sn]. simpl.
      rewrite <- app_assoc. reflexivity.
    + exact Ews.
    + rewrite socket_send_keeps_open. exact Est.
Qed.

(** ** Backoff *)

Section Backoff.
Variable o : config.

Local Open Scope Q_scope.



End Backoff.

(** ** The event loop, step by step *)

Section Machine.
Variable JSON_parse : string -> option json.
Variable JSON_stringify : json -> string.
Variable o : config.

Local Abbreviation step := (Client.step JSON_parse JSON_stringify o).
Local Abbreviation run := (Client.run JSON_parse JSON_stringify o).

Lemma client_run_app es1 es2 w :
  run (es1 ++ es2) w =
  match run es1 w with Some w1 => run es2 w1 | None => None end.
Proof.
  revert w. induction es1 as [|e es1 IH]; intros w; simpl.
  - reflexivity.
  - destruct (step e w); [apply IH | reflexivity].
Qed.

Lemma flushQueue_control w : same_control w (flushQueue w).
Proof. apply flushQueue_loop_control. Qed.

Lemma connect_counters w :
  attempts (connect w) = attempts w /\ next_timer (connect w) = next_timer w
  /\ timers (connect w) = timers w.
Proof. unfold connect. destruct (disposed w); simpl; auto. Qed.

Lemma ensureConnection_counters w :
  attempts (ensureConnection w) = attempts w
  /\ next_timer (ensureConnection w) = next_timer w
  /\ timers (ensureConnection w) = timers w.
Proof.
  unfold ensureConnection.
  destruct (ws_readyState_is OPEN w || ws_readyState_is CONNECTING w);
    [auto | apply connect_counters].
Qed.

Lemma dispose_counters w :
  attempts (dispose w) = attempts w /\ next_timer (dispose w) = next_timer w.
Proof.
  unfold dispose. simpl.
  destruct (reconnectTimer w); simpl; destruct (ws w); simpl; auto.
Qed.

Lemma send_counters m w :
  attempts (send JSON_stringify o m w) = attempts w
  /\ next_timer (send JSON_stringify o m w) = next_timer w.
Proof.
  unfold send. destruct (ws_readyState_is OPEN w); [|simpl; auto].
  destruct (ws w); simpl; auto.
Qed.

Lemma scheduleReconnect_cases random w :
  (scheduleReconnect o random w = w
   /\ (0 < maxAttempts o)%Z /\ (maxAttempts o <= Z.of_nat (attempts w))%Z)
  \/ (scheduled o random w (scheduleReconnect o random w)
      /\ ((maxAttempts o <= 0)%Z \/ (Z.of_nat (attempts w) < maxAttempts o)%Z)).
Proof.
  unfold scheduleReconnect, scheduled.
  destruct (0 <? maxAttempts o)%Z eqn:E1;
    destruct (maxAttempts o <=? Z.of_nat (attempts w))%Z eqn:E2; simpl.
  - left. split; [reflexivity|]. lia.
  - right. repeat split; lia.
  - right. repeat split; lia.
  - right. repeat split; lia.
Qed.

(** One turn of the loop either is a socket opening, which resets the
    counter; or leaves the counter alone and schedules nothing; or is a
    socket closing that schedules one retry and counts it. *)
Lemma step_counters e w w' :
  step e w = Some w' ->
  (exists i, e = SockOpen i
             /\ attempts w' = 0%nat /\ next_timer w' = next_timer w)
  \/ (attempts w' = attempts w /\ next_timer w' = next_timer w)
  \/ (exists i random,
        e = SockClose i random
        /\ attempts w' = S (attempts w)
        /\ next_timer w' = S (next_timer w)
        /\ timers w' =
           timers w ++ [(next_timer w, backoff_delay o (attempts w) random)]).
Proof.
  destruct e as [h|h|m| |i|i data|i|i random|t]; simpl; intros H.
  - right; left. inversion H; subst; clear H. unfold subscribe.
    destruct (ensureConnection_counters
                (set_listeners (listeners_add h (listeners w)) w)) as [A [B _]].
    rewrite A, B. simpl. auto.
  - right; left. inversion H; subst; clear H. unfold unsubscribe.
    destruct (List.length _ =? 0)%nat; [|simpl; auto].
    destruct (dispose_counters
                (set_listeners (listeners_delete h (listeners w)) w)) as [A B].
    rewrite A, B. simpl. auto.
  - right; left. inversion H; subst; clear H. apply send_counters.
  - right; left. inversion H; subst; clear H. apply dispose_counters.
  - left. exists i. split; [reflexivity|].
    destruct (socket_state i w) as [[| | |]|]; try discriminate.
    inversion H; subst; clear H. unfold onopen.
    destruct (flushQueue_control (set_attempts 0 (set_socket_state i OPEN w)))
      as (_ & _ & A & _ & _ & _ & B & _).
    rewrite A, B. simpl. auto.
  - right; left.
    destruct (socket_state i w) as [[| | |]|]; try discriminate.
    inversion H; subst; clear H.
    destruct (onmessage_only_delivers JSON_parse data w) as [d ->].
    simpl. auto.
  - right; left.
    destruct (socket_state i w) as [[| | |]|]; try discriminate;
      inversion H; subst; auto.
  - assert (E : w' = onclose o random (set_socket_state i CLOSED w)).
    { destruct (socket_state i w) as [[| | |]|]; try discriminate;
        inversion H; reflexivity. }
    clear H. subst w'. unfold onclose.
    set (w0 := set_socket_state i CLOSED w).
    destruct (negb (disposed w0) && (0 <? List.length (listeners w0))%nat).
    + destruct (scheduleReconnect_cases random w0) as [[E _]|[S _]].
      * right; left. rewrite E. simpl. auto.
      * right; right. exists i, random. split; [reflexivity|].
        destruct S as (A & B & C & _). rewrite A, B, C. simpl. auto.
    + right; left. simpl. auto.
  - right; left. destruct (timer_pending t w); [|discriminate].
    inversion H; subst; clear H. unfold reconnect_callback.
    destruct (connect_counters (set_reconnectTimer None (clearTimeout t w)))
      as [A [B _]].
    rewrite A, B. simpl. auto.
Qed.

Local Open Scope Q_scope.


Local Close Scope Q_scope.

(** ** The offline queue *)

Lemma connect_queue w : queue (connect w) = queue w.
Proof. unfold connect. destruct (disposed w); reflexivity. Qed.

Lemma ensureConnection_queue w : queue (ensureConnection w) = queue w.
Proof.
  unfold ensureConnection.
  destruct (ws_readyState_is OPEN w || ws_readyState_is CONNECTING w);
    [reflexivity | apply connect_queue].
Qed.

Lemma dispose_queue w : queue (dispose w) = [].
Proof. reflexivity. Qed.

Lemma scheduleReconnect_queue random w :
  queue (scheduleReconnect o random w) = queue w.
Proof.
  unfold scheduleReconnect.
  destruct ((0 <? maxAttempts o)%Z && (maxAttempts o <=? Z.of_nat (attempts w))%Z);
    reflexivity.
Qed.

Lemma flushQueue_loop_queue_length q :
  forall w, List.length (queue (flushQueue_loop q w)) <= List.length q.
Proof.
  induction q as [|data rest IH]; intros w; simpl.
  - lia.
  - destruct (ws_readyState_is OPEN w); simpl; [|lia].
    destruct (ws w); (etransitivity; [apply IH | lia]).
Qed.

(** [send] on an open socket hands the serialized message to it at once
    and leaves the queue alone. *)
Lemma send_open m w i :
  ws w = Some i -> socket_state i w = Some OPEN ->
  send JSON_stringify o m w = socket_send i (JSON_stringify m) w.
Proof.
  intros Ews Est. unfold send, ws_readyState_is. rewrite Ews, Est. reflexivity.
Qed.

(** Otherwise it puts the serialized message at the tail of the queue,
    after dropping the head of a queue that has reached [maxQueueSize];
    no socket is touched. *)
Lemma send_not_open m w :
  ws_readyState_is OPEN w = false ->
  queue (send JSON_stringify o m w) =
    (if (maxQueueSize o <=? Z.of_nat (List.length (queue w)))%Z
     then tl (queue w) else queue w) ++ [JSON_stringify m]
  /\ sockets (send JSON_stringify o m w) = sockets w.
Proof. intros H. unfold send. rewrite H. split; reflexivity. Qed.

Lemma send_queue_bound m w :
  (1 <= maxQueueSize o)%Z ->
  (Z.of_nat (List.length (queue w)) <= maxQueueSize o)%Z ->
  (Z.of_nat (List.length (queue (send JSON_stringify o m w))) <= maxQueueSize o)%Z.
Proof.
  intros Hq Hw. unfold send.
  destruct (ws_readyState_is OPEN w).
  - destruct (ws w); simpl; exact Hw.
  - simpl. rewrite length_app. simpl.
    destruct (maxQueueSize o <=? Z.of_nat (List.length (queue w)))%Z eqn:E.
    + destruct (queue w) as [|x q]; simpl in *; lia.
    + lia.
Qed.

Lemma step_queue_bound e w w' :
  (1 <= maxQueueSize o)%Z ->
  (Z.of_nat (List.length (queue w)) <= maxQueueSize o)%Z ->
  step e w = Some w' ->
  (Z.of_nat (List.length (queue w')) <= maxQueueSize o)%Z.
Proof.
  intros Hq Hw.
  destruct e as [h|h|m| |i|i data|i|i random|t]; simpl; intros H.
  - inversion H; subst. unfold subscribe. rewrite ensureConnection_queue.
    exact Hw.
  - inversion H; subst. unfold unsubscribe.
    destruct (List.length _ =? 0)%nat; simpl; [lia | exact Hw].
  - inversion H; subst. apply send_queue_bound; assumption.
  - inversion H; subst. simpl. lia.
  - destruct (socket_state i w) as [[| | |]|]; try discriminate.
    inversion H; subst. unfold onopen, flushQueue.
    pose proof (flushQueue_loop_queue_length
                  (queue (set_attempts 0 (set_socket_state i OPEN w)))
                  (set_attempts 0 (set_socket_state i OPEN w))) as L.
    simpl in L. simpl. lia.
  - destruct (socket_state i w) as [[| | |]|]; try discriminate.
    inversion H; subst.
    destruct (onmessage_only_delivers JSON_parse data w) as [d ->]. exact Hw.
  - destruct (socket_state i w) as [[| | |]|]; try discriminate;
      inversion H; subst; exact Hw.
  - assert (E : w' = onclose o random (set_socket_state i CLOSED w)).
    { destruct (socket_state i w) as [[| | |]|]; try discriminate;
        inversion H; reflexivity. }
    subst w'. unfold onclose.
    destruct (negb _ && _); [rewrite scheduleReconnect_queue|]; exact Hw.
  - destruct (timer_pending t w); [|discriminate].
    inversion H; subst. unfold reconnect_callback. rewrite connect_queue.
    exact Hw.
Qed.

(** With [maxQueueSize] at least 1 the queue never holds more than
    [maxQueueSize] messages, whatever happens to the client. *)
Lemma queue_bounded es :
  forall w w',
    (1 <= maxQueueSize o)%Z ->
    (Z.of_nat (List.length (queue w)) <= maxQueueSize o)%Z ->
    run es w = Some w' ->
    (Z.of_nat (List.length (queue w')) <= maxQueueSize o)%Z.
Proof.
  induction es as [|e es IH]; intros w w' Hq Hw H; simpl in H.
  - inversion H; subst. exact Hw.
  - destruct (step e w) as [w1|] eqn:E; [|discriminate].
    apply (IH w1 w' Hq); [|exact H].
    apply (step_queue_bound e w Hq Hw E).
Qed.

(** When the socket of the client opens, the queue goes out through it in
    the order the messages were queued, and is left empty. *)
Lemma onopen_flushes_in_order i w w' :
  ws w = Some i ->
  step (SockOpen i) w = Some w' ->
  queue w' = []
  /\ option_map sent (nth_error (sockets w') i) =
     option_map (fun s => sent s ++ queue w) (nth_error (sockets w) i).
Proof.
  intros Ews H. simpl in H.
  destruct (socket_state i w) as [[| | |]|] eqn:Est; try discriminate.
  inversion H; subst; clear H. unfold onopen, flushQueue.
  set (w1 := set_attempts 0 (set_socket_state i OPEN w)).
  assert (Est1 : socket_state i w1 = Some OPEN).
  { unfold w1, socket_state, set_socket_state. simpl.
    rewrite nth_error_update_nth, Nat.eqb_refl.
    unfold socket_state in Est.
    destruct (nth_error (sockets w) i); [reflexivity | discriminate]. }
  rewrite (@flushQueue_loop_open (queue w1) w1 i Ews Est1). simpl.
  split; [reflexivity|].
  rewrite update_nth_twice, nth_error_update_nth, Nat.eqb_refl.
  destruct (nth_error (sockets w) i); reflexivity.
Qed.

(** ** After dispose *)

Lemma dispose_torn_down w :
  torn_down (dispose w)
  /\ transmitted (dispose w) = transmitted w
  /\ List.length (sockets (dispose w)) = List.length (sockets w).
Proof.
  unfold torn_down, dispose, transmitted. simpl.
  destruct (reconnectTimer w); simpl; destruct (ws w) as [i|]; simpl;
    repeat split; try reflexivity;
    try (apply flat_map_sent_update_nth; intros [[| | |] sn]; reflexivity);
    apply update_nth_length.
Qed.

(** [dispose] may be called again: the second call changes nothing, and
    the client is not connected after either. *)
Lemma dispose_idempotent w :
  dispose (dispose w) = dispose w /\ connected (dispose w) = false.
Proof.
  assert (T : reconnectTimer (dispose w) = None)
    by (unfold dispose; simpl; destruct (reconnectTimer w) eqn:E; simpl;
        destruct (ws w); simpl; rewrite ?E; reflexivity).
  assert (D : disposed (dispose w) = true)
    by (unfold dispose; simpl; destruct (reconnectTimer w) eqn:E; simpl;
        destruct (ws w); reflexivity).
  assert (N : ws (dispose w) = None) by reflexivity.
  assert (Q : queue (dispose w) = []) by reflexivity.
  split.
  - generalize dependent (dispose w). intros d T D N Q.
    destruct d; simpl in *; subst. reflexivity.
  - unfold connected. apply ws_readyState_is_None. exact N.
Qed.

Lemma connect_torn_down w : disposed w = true -> connect w = w.
Proof. unfold connect. intros ->. reflexivity. Qed.

(** A disposed client stays disposed, constructs no socket and hands
    nothing to any socket, whatever turn comes next. *)
Lemma step_torn_down e w w' :
  torn_down w ->
  step e w = Some w' ->
  torn_down w'
  /\ transmitted w' = transmitted w
  /\ List.length (sockets w') = List.length (sockets w).
Proof.
  intros [D N].
  assert (NO : forall st, ws_readyState_is st w = false)
    by (intros st; apply ws_readyState_is_None; exact N).
  destruct e as [h|h|m| |i|i data|i|i random|t]; simpl; intros H.
  - inversion H; subst; clear H. unfold subscribe, ensureConnection.
    unfold ws_readyState_is. simpl. rewrite N. simpl.
    rewrite connect_torn_down by exact D.
    unfold torn_down. simpl. auto.
  - inversion H; subst; clear H. unfold unsubscribe.
    destruct (List.length _ =? 0)%nat.
    + destruct (dispose_torn_down
                  (set_listeners (listeners_delete h (listeners w)) w))
        as (T & A & B).
      auto.
    + unfold torn_down. simpl. auto.
  - inversion H; subst; clear H. unfold send. rewrite NO.
    unfold torn_down. simpl. auto.
  - inversion H; subst; clear H. apply dispose_torn_down.
  - destruct (socket_state i w) as [[| | |]|]; try discriminate.
    inversion H; subst; clear H. unfold onopen, flushQueue.
    rewrite flushQueue_loop_not_open
      by (unfold ws_readyState_is; simpl; rewrite N; reflexivity).
    unfold torn_down, transmitted. simpl. repeat split; try assumption.
    + apply flat_map_sent_update_nth. reflexivity.
    + apply update_nth_length.
  - destruct (socket_state i w) as [[| | |]|]; try discriminate.
    inversion H; subst; clear H.
    destruct (onmessage_only_delivers JSON_parse data w) as [d ->].
    unfold torn_down. simpl. auto.
  - destruct (socket_state i w) as [[| | |]|]; try discriminate;
      inversion H; subst; unfold torn_down, onerror; auto.
  - assert (E : w' = onclose o random (set_socket_state i CLOSED w)).
    { destruct (socket_state i w) as [[| | |]|]; try discriminate;
        inversion H; reflexivity. }
    clear H. subst w'. unfold onclose. simpl. rewrite D. simpl.
    unfold torn_down, transmitted. simpl. repeat split; try assumption.
    + apply flat_map_sent_update_nth. reflexivity.
    + apply update_nth_length.
  - destruct (timer_pending t w); [|discriminate].
    inversion H; subst; clear H. unfold reconnect_callback.
    rewrite connect_torn_down by exact D.
    unfold torn_down. simpl. auto.
Qed.

Lemma run_torn_down es :
  forall w w',
    torn_down w ->
    run es w = Some w' ->
    torn_down w'
    /\ transmitted w' = transmitted w
    /\ List.length (sockets w') = List.length (sockets w).
Proof.
  induction es as [|e es IH]; intros w w' T H; simpl in H.
  - inversion H; subst. auto.
  - destruct (step e w) as [w1|] eqn:E; [|discriminate].
    destruct (step_torn_down e T E) as (T1 & A1 & B1).
    destruct (IH w1 w' T1 H) as (T2 & A2 & B2).
    split; [exact T2|]. split; congruence.
Qed.

(** C10.  After [dispose()], whatever turns of the event loop follow
    ([before]), a [send] returns normally and puts the serialized message at
    the tail of the offline queue (right after [dispose] the queue holds
    that message alone); and whatever turns follow that ([after]), no
    frame is ever handed to a socket, no socket is constructed, and the
    client stays disposed and not connected: the message is never
    transmitted. *)
Theorem send_after_dispose_only_queues :
  forall (w : world) (before after : list event) (m : json) (w1 w2 : world),
    run before (dispose w) = Some w1 ->
    run after (send JSON_stringify o m w1) = Some w2 ->
    queue (send JSON_stringify o m (dispose w)) = [JSON_stringify m]
    /\ queue (send JSON_stringify o m w1) =
         (if (maxQueueSize o <=? Z.of_nat (List.length (queue w1)))%Z
          then tl (queue w1) else queue w1) ++ [JSON_stringify m]
    /\ transmitted w2 = transmitted w
    /\ List.length (sockets w2) = List.length (sockets w)
    /\ disposed w2 = true
    /\ connected w2 = false.
Proof.
  intros w before after m w1 w2 H1 H2.
  destruct (dispose_torn_down w) as (T0 & A0 & B0).
  destruct (run_torn_down before T0 H1) as (T1 & A1 & B1).
  assert (S : step (Send m) w1 = Some (send JSON_stringify o m w1))
    by reflexivity.
  destruct (step_torn_down (Send m) T1 S) as (T1' & A1' & B1').
  destruct (run_torn_down after T1' H2) as (T2 & A2 & B2).
  split.
  { unfold send. rewrite ws_readyState_is_None by (apply T0). simpl.
    destruct (maxQueueSize o <=? 0)%Z; reflexivity. }
  split.
  { apply send_not_open. apply ws_readyState_is_None. apply T1. }
  split; [congruence|]. split; [congruence|].
  split; [apply T2|].
  unfold connected. apply ws_readyState_is_None. apply T2.
Qed.

End Machine.

(** ** Concrete runs *)

Local Open Scope Z_scope.

Lemma send_after_dispose_only_queues_witness :
  let stringify := sample_stringify in
  let parse := parse_one frame_with_prototype parsed_with_prototype in
  let o := default_config in
  let m := JString "hello" in
  exists w w1 w2,
    run parse stringify o [Subscribe a_handler; SockOpen 0] initial = Some w
    /\ run parse stringify o [Subscribe another_handler] (dispose w) = Some w1
    /\ run parse stringify o [Send (JString "later"); Subscribe a_handler]
         (send stringify o m w1) = Some w2
    /\ (queue (send stringify o m (dispose w)) = [stringify m]
        /\ queue (send stringify o m w1) =
             (if maxQueueSize o <=? Z.of_nat (List.length (queue w1))
              then tl (queue w1) else queue w1) ++ [stringify m]
        /\ transmitted w2 = transmitted w
        /\ List.length (sockets w2) = List.length (sockets w)
        /\ disposed w2 = true
        /\ connected w2 = false).
Proof.
  cbv zeta. eexists. eexists. eexists.
  split; [vm_compute; reflexivity|].
  split; [vm_compute; reflexivity|].
  split; [vm_compute; reflexivity|].
  exact (@send_after_dispose_only_queues
           (parse_one frame_with_prototype parsed_with_prototype)
           sample_stringify default_config
           _ [Subscribe another_handler]
           [Send (JString "later"); Subscribe a_handler] (JString "hello")
           _ _ eq_refl eq_refl).
Defined.


(** The example of the design document: four messages sent while
    disconnected with [maxQueueSize = 3]; when a socket then opens, the
    last three go out, in the order they were sent. *)
Example four_sends_queue_of_three :
  forall (JSON_parse : string -> option json) (JSON_stringify : json -> string)
         (m1 m2 m3 m4 : json),
    let o := constructor (mkOptions None None (Some 3)) in
    exists w,
      run JSON_parse JSON_stringify o
        [Send m1; Send m2; Send m3; Send m4; Subscribe a_handler; SockOpen 0]
        initial = Some w
      /\ transmitted w =
         [JSON_stringify m2; JSON_stringify m3; JSON_stringify m4]
      /\ queue w = [].
Proof.
  intros. eexists. split; [vm_compute; reflexivity|].
  split; vm_compute; reflexivity.
Qed.

(** C3 fails at [maxQueueSize = 0]: the first message sent while
    disconnected is queued all the same, because removing the head of an
    empty queue removes nothing; the queue then holds one message, more
    than the configured maximum. *)
Theorem send_overfills_queue_of_size_zero :
  forall (JSON_stringify : json -> string) (m : json),
    let o := constructor (mkOptions None None (Some 0)) in
    maxQueueSize o = 0
    /\ queue (send JSON_stringify o m initial) = [JSON_stringify m]
    /\ maxQueueSize o
       < Z.of_nat (List.length (queue (send JSON_stringify o m initial))).
Proof.
  intros. cbv zeta. split; [reflexivity|]. split; [reflexivity|].
  simpl. lia.
Qed.

(** C2 fails.  A handler subscribes and the first socket fails, so a
    reconnect timer is pending; a second handler subscribes, and
    [ensureConnection], which looks at the socket only, constructs a second
    socket at once.  When the timer fires, [connect] constructs a third:
    two sockets are now connecting at the same time.  If instead the second
    socket fails too, a second timer is scheduled while the first is still
    pending. *)
Theorem resubscribe_while_reconnect_pending :
  forall (JSON_parse : string -> option json) (JSON_stringify : json -> string),
    let o := default_config in
    let r := run JSON_parse JSON_stringify o in
    option_map (fun w => List.length (live_sockets w))
      (r [Subscribe a_handler; SockClose 0 (1 # 2);
          Subscribe another_handler; TimerFire 1] initial) = Some 2%nat
    /\ option_map (fun w => List.length (timers w))
         (r [Subscribe a_handler; SockClose 0 (1 # 2);
             Subscribe another_handler; SockClose 1 (1 # 2)] initial)
       = Some 2%nat.
Proof.
  intros. cbv zeta. split; vm_compute; reflexivity.
Qed.

End ClientFacts.

(* ===================================================================== *)
(** * Properties of the server                                             *)
(* ===================================================================== *)

Module ServerFacts.
Import Json Server.

Local Open Scope string_scope.
Local Open Scope Z_scope.
Local Open Scope list_scope.

(** ** broadcast *)

Lemma sent_to_app id es1 es2 :
  sent_to id (es1 ++ es2) = sent_to id es1 ++ sent_to id es2.
Proof. unfold sent_to. apply flat_map_app. Qed.

Lemma tracked_open_absent id cs :
  ~ In id (map conn_id cs) ->
  existsb (fun c => Nat.eqb (conn_id c) id && is_open c) cs = false.
Proof.
  induction cs as [|c rest IH]; simpl; intros H.
  - reflexivity.
  - destruct (Nat.eqb_spec (conn_id c) id) as [E|E].
    + exfalso. apply H. left. exact E.
    + simpl. apply IH. intros I. apply H. right. exact I.
Qed.

(** The sends of one broadcast, connection by connection: a tracked open
    connection gets the data once, any other gets nothing. *)
Lemma sent_to_broadcast_forEach data id cs :
  NoDup (map conn_id cs) ->
  sent_to id (broadcast_forEach data cs) =
  if existsb (fun c => Nat.eqb (conn_id c) id && is_open c) cs
  then [data] else [].
Proof.
  induction cs as [|c rest IH]; intros ND.
  - reflexivity.
  - inversion ND as [|x l Hnotin ND']; subst.
    specialize (IH ND'). cbn [broadcast_forEach existsb].
    destruct (Nat.eqb_spec (conn_id c) id) as [E|E];
      destruct (is_open c); cbn [andb orb].
    + unfold sent_to in *. cbn [flat_map]. rewrite E, Nat.eqb_refl, IH.
      rewrite <- E, tracked_open_absent by exact Hnotin. reflexivity.
    + exact IH.
    + unfold sent_to in *. cbn [flat_map].
      apply Nat.eqb_neq in E. rewrite E. exact IH.
    + exact IH.
Qed.



Section BroadcastFacts.
Variable JSON_stringify : json -> string.


End BroadcastFacts.


Lemma length_append (a b : string) :
  String.length (a ++ b) = (String.length a + String.length b)%nat.
Proof.
  induction a as [|ch a IH]; simpl; [reflexivity | rewrite IH; reflexivity].
Qed.

Lemma js_length_doubled n :
  forall s, js_length (doubled n s) = 2 ^ Z.of_nat n * js_length s.
Proof.
  unfold js_length.
  induction n as [|n IH]; intros s.
  - simpl doubled. change (2 ^ Z.of_nat 0) with 1. lia.
  - simpl doubled. rewrite IH, length_append.
    rewrite Nat2Z.inj_succ, Z.pow_succ_r by lia. lia.
Qed.

(** The oversized payload of the security test, two million characters, is
    dropped: one warning, no send. *)
Example broadcast_two_mebibytes_dropped :
  forall (wss : WebSocketServer) (message : json),
    let stringify := fun _ : json => doubled 21 "x" in
    log (broadcast stringify wss message) =
    log wss ++ [Stringified message; Warned (BroadcastTooLarge 2097152)].
Proof.
  intros wss message. cbv zeta. unfold broadcast.
  rewrite (js_length_doubled 21 "x").
  change (js_length "x") with 1.
  change (MAX_BROADCAST_SIZE <? 2 ^ Z.of_nat 21 * 1) with true.
  cbv iota. unfold emit. simpl log. rewrite <- app_assoc. reflexivity.
Qed.

(** A payload of exactly 1 MiB is within the limit. *)
Example broadcast_one_mebibyte_sent :
  (MAX_BROADCAST_SIZE <? js_length (doubled 20 "x")) = false.
Proof. rewrite js_length_doubled. reflexivity. Qed.

(** ** The admission gate *)

Lemma admits_spec options r :
  admits options r =
  match allowedOrigins options with
  | Some (x :: l) =>
      includes (x :: l) (header "origin" (headers r))
      && verifier_accepts options r
  | _ => verifier_accepts options r
  end.
Proof.
  unfold admits, verifyClient_hook, verifier_accepts.
  destruct (allowedOrigins options) as [[|x l]|];
    destruct (verifyClient options) as [verify|]; cbn -[includes];
    try reflexivity.
  - destruct (verify r); reflexivity.
  - destruct (includes (x :: l) (header "origin" (headers r))); cbn;
      [destruct (verify r)|]; reflexivity.
  - destruct (includes (x :: l) (header "origin" (headers r))); reflexivity.
  - destruct (verify r); reflexivity.
Qed.

(** The warning a refused handshake is logged with. *)
Lemma hook_refusal options r hook :
  verifyClient_hook options = Some hook ->
  fst (hook (info_of r)) = false ->
  snd (hook (info_of r)) =
  [Warned
     match allowedOrigins options with
     | Some (x :: l) =>
         if includes (x :: l) (header "origin" (headers r))
         then VerifierRejected
         else OriginRejected (header "origin" (headers r))
     | _ => VerifierRejected
     end].
Proof.
  unfold verifyClient_hook.
  destruct (allowedOrigins options) as [[|x l]|];
    destruct (verifyClient options) as [verify|]; cbn -[includes];
    intros E; inversion E; subst; clear E; cbn -[includes];
    try (destruct (includes (x :: l) (header "origin" (headers r)));
         cbn -[includes]);
    try (destruct (verify r); cbn);
    intros F; try discriminate; reflexivity.
Qed.

Lemma hook_acceptance options r hook :
  verifyClient_hook options = Some hook ->
  fst (hook (info_of r)) = true ->
  snd (hook (info_of r)) = [].
Proof.
  unfold verifyClient_hook.
  destruct (allowedOrigins options) as [[|x l]|];
    destruct (verifyClient options) as [verify|]; cbn -[includes];
    intros E; inversion E; subst; clear E; cbn -[includes];
    try (destruct (includes (x :: l) (header "origin" (headers r)));
         cbn -[includes]);
    try (destruct (verify r); cbn);
    intros F; try discriminate; reflexivity.
Qed.

Lemma with_conn_fresh id f s cs c :
  clients s = cs ++ [c] ->
  Forall (fun c' => (conn_id c' < id)%nat) cs ->
  conn_id c = id ->
  with_conn id f s = set_clients (cs ++ [f c]) s.
Proof.
  intros Ec F E. unfold with_conn. rewrite Ec, map_app. simpl.
  rewrite E, Nat.eqb_refl.
  replace (map (fun c0 => if Nat.eqb (conn_id c0) id then f c0 else c0) cs)
    with cs; [reflexivity|].
  clear Ec. induction F as [|c' rest Hc' _ IH]; simpl.
  - reflexivity.
  - assert (N : Nat.eqb (conn_id c') id = false) by (apply Nat.eqb_neq; lia).
    rewrite N, <- IH. reflexivity.
Qed.

(** A refused handshake registers nothing. *)
Lemma handleUpgrade_refused options r s :
  admits options r = false ->
  clients (handleUpgrade options r s) = clients s
  /\ next_id (handleUpgrade options r s) = next_id s
  /\ log (handleUpgrade options r s) =
     log s ++
     [Warned
        match allowedOrigins options with
        | Some (x :: l) =>
            if includes (x :: l) (header "origin" (headers r))
            then VerifierRejected
            else OriginRejected (header "origin" (headers r))
        | _ => VerifierRejected
        end;
      HandshakeRefused].
Proof.
  unfold admits, handleUpgrade.
  destruct (verifyClient_hook options) as [hook|] eqn:H; [|discriminate].
  intros F. pose proof (hook_refusal options r H F) as W.
  destruct (hook (info_of r)) as [ok es]. simpl in F, W. subst ok es.
  simpl. repeat split; reflexivity.
Qed.

(** An admitted handshake registers one connection under the next name;
    the connection listeners leave it open and routed, or closing when the
    count is over the ceiling. *)
Lemma handleUpgrade_admitted options r s :
  ids_fresh s ->
  admits options r = true ->
  let id := next_id s in
  let over := over_limit options (S (List.length (clients s))) in
  clients (handleUpgrade options r s) =
    clients s ++
    [if over then mkConn id CLOSING (Some true) false
     else mkConn id OPEN (Some true) true]
  /\ next_id (handleUpgrade options r s) = S id
  /\ log (handleUpgrade options r s) =
     log s ++
     (if over
      then [Warned (LimitReached (default (maxConnections options) 100));
            Closed id 1013 "Max connections reached"]
      else if onConnection options then [ConnectionCallback id] else []).
Proof.
  intros Fr A id over. unfold handleUpgrade.
  assert (E : match verifyClient_hook options with
              | Some hook => hook (info_of r)
              | None => (true, [])
              end = (true, [])).
  { unfold admits in A.
    destruct (verifyClient_hook options) as [hook|] eqn:H; [|reflexivity].
    pose proof (hook_acceptance options r H A) as W.
    destruct (hook (info_of r)) as [ok es]. simpl in A, W. subst. reflexivity. }
  rewrite E. fold id.
  set (s1 := set_next_id (S id)
               (set_clients (clients s ++ [mkConn id OPEN None false])
                  (emit [] s))).
  unfold heartbeat_on_connection.
  rewrite (@with_conn_fresh id (set_isAlive true) s1 (clients s)
             (mkConn id OPEN None false) eq_refl Fr eq_refl).
  unfold on_connection. cbn [clients set_clients].
  rewrite length_app. cbn [List.length].
  replace (Z.of_nat (List.length (clients s) + 1))
    with (Z.of_nat (S (List.length (clients s)))) by (f_equal; lia).
  fold (over_limit options (S (List.length (clients s)))). fold over.
  set (c1 := set_isAlive true (mkConn id OPEN None false)).
  destruct over.
  - erewrite with_conn_fresh; [|reflexivity|exact Fr|reflexivity].
    simpl. rewrite app_nil_r. repeat split; reflexivity.
  - destruct (onConnection options).
    + erewrite with_conn_fresh; [|reflexivity|exact Fr|reflexivity].
      simpl. rewrite app_nil_r. repeat split; reflexivity.
    + erewrite with_conn_fresh; [|reflexivity|exact Fr|reflexivity].
      simpl. rewrite !app_nil_r. repeat split; reflexivity.
Qed.

(** ** The heartbeat *)

Lemma heartbeat_forEach_spec cs :
  heartbeat_forEach cs = (map probed cs, map probe_of cs).
Proof.
  induction cs as [|c rest IH]; simpl.
  - reflexivity.
  - rewrite IH. unfold heartbeat_visit, probed, probe_of.
    destruct (isAlive c) as [[|]|]; reflexivity.
Qed.

Lemma heartbeat_tick_spec s :
  clients (heartbeat_tick s) = map probed (clients s)
  /\ log (heartbeat_tick s) = log s ++ map probe_of (clients s)
  /\ next_id (heartbeat_tick s) = next_id s
  /\ interval_active (heartbeat_tick s) = interval_active s.
Proof.
  unfold heartbeat_tick. rewrite heartbeat_forEach_spec. simpl. auto.
Qed.

Lemma conn_id_probed c : conn_id (probed c) = conn_id c.
Proof.
  unfold probed, closing.
  destruct (isAlive c) as [[|]|]; try reflexivity.
  destruct (readyState_of c); reflexivity.
Qed.

Lemma conn_id_closing c : conn_id (closing c) = conn_id c.
Proof. unfold closing. destruct (readyState_of c); reflexivity. Qed.

(** ** Invariants of the server loop *)

Section LoopFacts.
Variable JSON_parse : string -> option json.
Variable JSON_stringify : json -> string.
Variable options : WSServerOptions.

Local Abbreviation step := (Server.step JSON_parse JSON_stringify options).
Local Abbreviation run := (Server.run JSON_parse JSON_stringify options).

Lemma server_run_app es1 es2 s :
  run (es1 ++ es2) s =
  match run es1 s with Some s1 => run es2 s1 | None => None end.
Proof.
  revert s. induction es1 as [|e es1 IH]; intros s; simpl.
  - reflexivity.
  - destruct (step e s); [apply IH | reflexivity].
Qed.

Lemma broadcast_frame s m :
  clients (broadcast JSON_stringify s m) = clients s
  /\ next_id (broadcast JSON_stringify s m) = next_id s
  /\ interval_active (broadcast JSON_stringify s m) = interval_active s
  /\ exists new, log (broadcast JSON_stringify s m) = log s ++ new
                 /\ filter is_probe new = [].
Proof.
  unfold broadcast.
  destruct (MAX_BROADCAST_SIZE <? js_length (JSON_stringify m)); simpl;
    repeat split; try reflexivity; rewrite <- app_assoc; eexists;
    (split; [reflexivity|]); simpl; [reflexivity|].
  induction (clients s) as [|c rest IH]; simpl; [reflexivity|].
  destruct (is_open c); simpl; exact IH.
Qed.

Lemma on_message_frame id raw s :
  clients (on_message JSON_parse options id raw s) = clients s
  /\ next_id (on_message JSON_parse options id raw s) = next_id s
  /\ interval_active (on_message JSON_parse options id raw s)
     = interval_active s
  /\ exists new, log (on_message JSON_parse options id raw s) = log s ++ new
                 /\ filter is_probe new = [].
Proof.
  unfold on_message.
  destruct (negb (onMessage options)); [|destruct (JSON_parse raw)]; simpl;
    repeat split; try reflexivity;
    try (exists []; rewrite app_nil_r; split; reflexivity).
  eexists. split; reflexivity.
Qed.

(** What a step does to the tracked connections. *)
Lemma step_clients e s s' :
  ids_fresh s ->
  step e s = Some s' ->
  (clients s' = clients s
   \/ (exists c, clients s' = clients s ++ [c] /\ conn_id c = next_id s
                  /\ next_id s' = S (next_id s))
   \/ (e = Tick /\ clients s' = map probed (clients s))
   \/ (exists id, e = Pong id
                   /\ clients s' =
                      map (fun c => if Nat.eqb (conn_id c) id
                                    then set_isAlive true c else c)
                        (clients s))
   \/ (exists id, e = Close id
                   /\ clients s' =
                      filter (fun c => negb (Nat.eqb (conn_id c) id))
                        (clients s)))
  /\ (next_id s <= next_id s')%nat.
Proof.
  intros Fr.
  destruct e as [r| |id|id raw|id|m| |]; simpl; intros H.
  - destruct (accepting s); [|discriminate]. inversion H; subst; clear H.
    destruct (admits options r) eqn:A.
    + destruct (handleUpgrade_admitted options r Fr A) as (C & N & _).
      split; [|lia]. right; left. eexists. split; [exact C|].
      split; [destruct (over_limit _ _); reflexivity | exact N].
    + destruct (handleUpgrade_refused options r s A) as (C & N & _).
      split; [left; exact C | lia].
  - destruct (interval_active s); [|discriminate]. inversion H; subst; clear H.
    destruct (heartbeat_tick_spec s) as (C & _ & N & _).
    split; [|lia]. right; right; left. auto.
  - destruct (find_conn id s); [|discriminate]. inversion H; subst; clear H.
    split; [|simpl; lia]. right; right; right; left. exists id. auto.
  - destruct (find_conn id s) as [c|]; [|discriminate].
    destruct (routed c && is_open c); [|discriminate].
    inversion H; subst; clear H.
    destruct (on_message_frame id raw s) as (C & N & _).
    split; [left; exact C | lia].
  - destruct (find_conn id s); [|discriminate]. inversion H; subst; clear H.
    split; [|simpl; lia]. right; right; right; right. exists id. auto.
  - inversion H; subst; clear H.
    destruct (broadcast_frame s m) as (C & N & _).
    split; [left; exact C | lia].
  - inversion H; subst; clear H. split; [left; reflexivity | simpl; lia].
  - inversion H; subst; clear H. split; [left; reflexivity | simpl; lia].
Qed.

Lemma step_ids_fresh e s s' :
  ids_fresh s -> step e s = Some s' -> ids_fresh s'.
Proof.
  intros Fr H.
  destruct (step_clients e Fr H)
    as [[C|[[c0 [C [E N]]]|[[_ C]|[[id [_ C]]|[id [_ C]]]]]] L];
    unfold ids_fresh in *; rewrite Forall_forall in *;
    rewrite C; intros c I.
  - specialize (Fr c I). lia.
  - apply in_app_or in I. destruct I as [I|[I|[]]].
    + specialize (Fr c I). lia.
    + subst c0. lia.
  - apply in_map_iff in I. destruct I as [c' [<- I]].
    rewrite conn_id_probed. specialize (Fr c' I). lia.
  - apply in_map_iff in I. destruct I as [c' [<- I]].
    specialize (Fr c' I).
    destruct (Nat.eqb (conn_id c') id); simpl; lia.
  - apply filter_In in I. destruct I as [I _]. specialize (Fr c I). lia.
Qed.

Lemma handleUpgrade_flags r s :
  interval_active (handleUpgrade options r s) = interval_active s
  /\ accepting (handleUpgrade options r s) = accepting s.
Proof.
  unfold handleUpgrade, on_connection, heartbeat_on_connection.
  destruct (match verifyClient_hook options with
            | Some hook => hook (info_of r)
            | None => (true, [])
            end) as [[|] es]; [|split; reflexivity].
  destruct (_ && _); [split; reflexivity|].
  destruct (onConnection options); split; reflexivity.
Qed.

(** No step but a tick probes: every other step appends effects that are
    neither pings nor terminations. *)
Lemma handleUpgrade_log r s :
  exists new, log (handleUpgrade options r s) = log s ++ new
              /\ filter is_probe new = [].
Proof.
  unfold handleUpgrade.
  assert (W : filter is_probe
                (snd match verifyClient_hook options with
                     | Some hook => hook (info_of r)
                     | None => (true, [])
                     end) = []).
  { destruct (verifyClient_hook options) as [hook|] eqn:H; [|reflexivity].
    destruct (fst (hook (info_of r))) eqn:F.
    - rewrite (hook_acceptance options r H F). reflexivity.
    - rewrite (hook_refusal options r H F). reflexivity. }
  destruct (match verifyClient_hook options with
            | Some hook => hook (info_of r)
            | None => (true, [])
            end) as [[|] es]; simpl in W.
  - unfold on_connection, heartbeat_on_connection.
    destruct (_ && _); [|destruct (onConnection options)]; simpl;
      rewrite <- ?app_assoc; eexists; (split; [reflexivity|]);
      rewrite ?filter_app, W; reflexivity.
  - simpl. eexists. split; [reflexivity|].
    rewrite filter_app, W. reflexivity.
Qed.

Lemma step_log e s s' :
  step e s = Some s' ->
  exists new,
    log s' = log s ++ new
    /\ match e with
       | Tick => new = map probe_of (clients s)
       | _ => filter is_probe new = []
       end.
Proof.
  destruct e as [r| |id|id raw|id|m| |]; simpl; intros H.
  - destruct (accepting s); [|discriminate]. inversion H; subst.
    apply handleUpgrade_log.
  - destruct (interval_active s); [|discriminate]. inversion H; subst.
    destruct (heartbeat_tick_spec s) as (_ & L & _). eauto.
  - destruct (find_conn id s); [|discriminate]. inversion H; subst.
    exists []. simpl. rewrite app_nil_r. auto.
  - destruct (find_conn id s) as [c|]; [|discriminate].
    destruct (routed c && is_open c); [|discriminate]. inversion H; subst.
    destruct (on_message_frame id raw s) as (_ & _ & _ & L). exact L.
  - destruct (find_conn id s); [|discriminate]. inversion H; subst.
    exists []. simpl. rewrite app_nil_r. auto.
  - inversion H; subst.
    destruct (broadcast_frame s m) as (_ & _ & _ & L). exact L.
  - inversion H; subst. exists []. simpl. rewrite app_nil_r. auto.
  - inversion H; subst. exists []. simpl. rewrite app_nil_r. auto.
Qed.

Lemma run_log es :
  forall s s', run es s = Some s' -> exists new, log s' = log s ++ new.
Proof.
  induction es as [|e es IH]; intros s s' H; simpl in H.
  - inversion H; subst. exists []. rewrite app_nil_r. reflexivity.
  - destruct (step e s) as [s1|] eqn:E; [|discriminate].
    destruct (step_log e s E) as [n1 [L1 _]].
    destruct (IH s1 s' H) as [n2 L2].
    exists (n1 ++ n2). rewrite L2, L1, app_assoc. reflexivity.
Qed.

(** Once the interval is cleared it stays cleared, and no tick comes. *)
Lemma step_interval_cleared e s s' :
  interval_active s = false ->
  step e s = Some s' ->
  interval_active s' = false
  /\ exists new, log s' = log s ++ new /\ filter is_probe new = [].
Proof.
  intros I H.
  assert (A : interval_active s' = false).
  { destruct e as [r| |id|id raw|id|m| |]; simpl in H.
    - destruct (accepting s); [|discriminate]. inversion H; subst.
      destruct (handleUpgrade_flags r s) as [F _]. congruence.
    - rewrite I in H. discriminate.
    - destruct (find_conn id s); [|discriminate]. inversion H; subst. exact I.
    - destruct (find_conn id s) as [c|]; [|discriminate].
      destruct (routed c && is_open c); [|discriminate]. inversion H; subst.
      destruct (on_message_frame id raw s) as (_ & _ & F & _). congruence.
    - destruct (find_conn id s); [|discriminate]. inversion H; subst. exact I.
    - inversion H; subst.
      destruct (broadcast_frame s m) as (_ & _ & F & _). congruence.
    - inversion H; subst. reflexivity.
    - inversion H; subst. reflexivity. }
  split; [exact A|].
  destruct (step_log e s H) as [new [L P]].
  exists new. split; [exact L|].
  destruct e; try exact P. simpl in H. rewrite I in H. discriminate.
Qed.

Lemma run_interval_cleared es :
  forall s s',
    interval_active s = false ->
    run es s = Some s' ->
    filter is_probe (log s') = filter is_probe (log s).
Proof.
  induction es as [|e es IH]; intros s s' I H; simpl in H.
  - inversion H; subst. reflexivity.
  - destruct (step e s) as [s1|] eqn:E; [|discriminate].
    destruct (step_interval_cleared e s I E) as [I1 [new [L P]]].
    rewrite (IH s1 s' I1 H), L, filter_app, P, app_nil_r. reflexivity.
Qed.

(** A property of the connections named [id] that ticks and closing keep
    is kept by every step, as long as no pong of [id] disturbs it. *)
Lemma step_all_named id (P : AliveWebSocket -> Prop) e s s' :
  ids_fresh s -> (id < next_id s)%nat ->
  (forall c, P c -> P (closing c)) ->
  (forall c, P c -> P (set_isAlive false c)) ->
  ((forall c, P c -> P (set_isAlive true c)) \/ e <> Pong id) ->
  all_named id P s ->
  step e s = Some s' ->
  all_named id P s'.
Proof.
  intros Fr Lt Hc Hf Ht A H. unfold all_named in *.
  destruct (step_clients e Fr H)
    as [[C|[[c0 [C [E N]]]|[[_ C]|[[id' [E C]]|[id' [_ C]]]]]] L];
    rewrite C; rewrite Forall_forall in *.
  - exact A.
  - intros c I. apply in_app_or in I. destruct I as [I|[I|[]]].
    + apply A. exact I.
    + subst c0. intros Eid. lia.
  - intros c I. apply in_map_iff in I. destruct I as [c' [<- I]].
    rewrite conn_id_probed. intros Eid. specialize (A c' I Eid).
    unfold probed. destruct (isAlive c') as [[|]|]; auto.
  - intros c I. apply in_map_iff in I. destruct I as [c' [<- I]].
    destruct (Nat.eqb_spec (conn_id c') id') as [Ec|Ec].
    + simpl. intros Eid. destruct Ht as [Ht|Ht].
      * apply Ht. apply A; assumption.
      * exfalso. apply Ht. subst e. f_equal. congruence.
    + apply A. exact I.
  - intros c I. apply filter_In in I. destruct I as [I _]. apply A. exact I.
Qed.

Lemma step_tracked id e s s' :
  ids_fresh s ->
  e <> Close id ->
  tracked id s = true ->
  step e s = Some s' ->
  tracked id s' = true.
Proof.
  intros Fr Ne T H. unfold tracked in *.
  rewrite existsb_exists in T. destruct T as [c [I Ec]].
  apply existsb_exists.
  destruct (step_clients e Fr H)
    as [[C|[[c0 [C [E N]]]|[[_ C]|[[id' [E C]]|[id' [E C]]]]]] L];
    rewrite C.
  - exists c. auto.
  - exists c. split; [apply in_or_app; left; exact I | exact Ec].
  - exists (probed c). split; [apply in_map; exact I|].
    rewrite conn_id_probed. exact Ec.
  - exists (if Nat.eqb (conn_id c) id' then set_isAlive true c else c).
    split; [apply (in_map (fun c => if Nat.eqb (conn_id c) id'
                                    then set_isAlive true c else c)); exact I|].
    destruct (Nat.eqb (conn_id c) id'); exact Ec.
  - exists c. split; [|exact Ec]. apply filter_In. split; [exact I|].
    apply Nat.eqb_eq in Ec. apply negb_true_iff. apply Nat.eqb_neq.
    intros E'. apply Ne. subst e. f_equal. congruence.
Qed.

Lemma tracked_lt id s :
  ids_fresh s -> tracked id s = true -> (id < next_id s)%nat.
Proof.
  unfold ids_fresh, tracked. rewrite Forall_forall, existsb_exists.
  intros Fr [c [I E]]. apply Nat.eqb_eq in E. specialize (Fr c I). lia.
Qed.

Lemma not_pong_or_close id e :
  pong_or_close_of id e = false -> e <> Pong id /\ e <> Close id.
Proof.
  destruct e; simpl; intros H; split; intros E; inversion E; subst;
    rewrite Nat.eqb_refl in H; discriminate.
Qed.

(** A connection that neither answers nor goes away keeps its lowered
    flag. *)
Lemma run_unanswered id es :
  forall s s',
    ids_fresh s -> tracked id s = true -> all_named id flagged s ->
    Forall (fun e => pong_or_close_of id e = false) es ->
    run es s = Some s' ->
    ids_fresh s' /\ tracked id s' = true /\ all_named id flagged s'.
Proof.
  induction es as [|e es IH]; intros s s' Fr T A Q H; simpl in H.
  - inversion H; subst. auto.
  - destruct (step e s) as [s1|] eqn:E; [|discriminate].
    inversion Q as [|e' es' Qe Qes]; subst.
    destruct (not_pong_or_close id e Qe) as [NP NC].
    apply (IH s1 s'); try assumption.
    + apply (@step_ids_fresh e s s1 Fr E).
    + apply (@step_tracked id e s s1 Fr NC T E).
    + apply (@step_all_named id flagged e s s1 Fr (@tracked_lt id s Fr T));
        try assumption; unfold flagged.
      * intros c Hc. unfold closing. destruct (readyState_of c); exact Hc.
      * reflexivity.
      * right. exact NP.
Qed.

(** A closing connection stays closing until it goes away. *)
Lemma run_closing id es :
  forall s s',
    ids_fresh s -> (id < next_id s)%nat -> all_named id is_closing s ->
    run es s = Some s' ->
    all_named id is_closing s'.
Proof.
  induction es as [|e es IH]; intros s s' Fr Lt A H; simpl in H.
  - inversion H; subst. exact A.
  - destruct (step e s) as [s1|] eqn:E; [|discriminate].
    apply (IH s1 s'); try assumption.
    + apply (@step_ids_fresh e s s1 Fr E).
    + destruct (@step_clients e s s1 Fr E) as [_ L]. lia.
    + apply (@step_all_named id is_closing e s s1 Fr Lt);
        try assumption; unfold is_closing.
      * intros c Hc. unfold closing. rewrite Hc. reflexivity.
      * intros c Hc. exact Hc.
      * left. intros c Hc. exact Hc.
Qed.

Lemma tick_flags_all id s : all_named id flagged (heartbeat_tick s).
Proof.
  unfold all_named. destruct (heartbeat_tick_spec s) as (C & _).
  rewrite C. apply Forall_forall. intros c I _.
  apply in_map_iff in I. destruct I as [c' [<- I]].
  unfold flagged, probed, closing.
  destruct (isAlive c') as [[|]|] eqn:F; try reflexivity.
  destruct (readyState_of c'); first [reflexivity | exact F].
Qed.

Lemma tick_terminates_flagged id s :
  tracked id s = true -> all_named id flagged s ->
  In (Terminated id) (map probe_of (clients s)).
Proof.
  unfold tracked, all_named. rewrite existsb_exists, Forall_forall.
  intros [c [I E]] A. apply Nat.eqb_eq in E.
  apply in_map_iff. exists c. split; [|exact I].
  unfold probe_of. rewrite (A c I E), E. reflexivity.
Qed.

(** C9.  A heartbeat tick visits every tracked connection: one whose
    [isAlive] flag is false is terminated, any other has the flag set to
    false and is pinged; a pong sets the flag of its connection to true.
    So a connection that is tracked at one tick and neither answers with a
    pong nor goes away before a later tick is terminated by then; on an
    ideal clock the second tick after a time [t] comes no later than
    [t + 2 * intervalMs].  Once the function that [createHeartbeat]
    returns has run, alone or as part of [cleanup], no connection is pinged
    or terminated any more, whatever happens. *)
Theorem heartbeat_protocol :
  forall (s s' : WebSocketServer) (id : nat) (es : list event)
         (intervalMs t : Z),
    ids_fresh s ->
    tracked id s = true ->
    Forall (fun e => pong_or_close_of id e = false) es ->
    run (Tick :: es ++ [Tick]) s = Some s' ->
    0 < intervalMs -> 0 <= t ->
    (clients (heartbeat_tick s) = map probed (clients s)
     /\ log (heartbeat_tick s) = log s ++ map probe_of (clients s))
    /\ all_named id (fun c => isAlive c = Some true) (on_pong id s)
    /\ (exists new, log s' = log s ++ new /\ In (Terminated id) new)
    /\ (t < tick_time intervalMs (ticks_before intervalMs t + 1)
        /\ tick_time intervalMs (ticks_before intervalMs t + 2)
           <= t + 2 * intervalMs)
    /\ (forall later s'',
          run later (cleanupHeartbeat s') = Some s''
          \/ run later (cleanup s') = Some s'' ->
          filter is_probe (log s'') = filter is_probe (log s')).
Proof.
  intros s s' id es intervalMs t Fr T Q H Hi Ht.
  split.
  { destruct (heartbeat_tick_spec s) as (C & L & _). auto. }
  split.
  { unfold all_named, on_pong, with_conn. simpl.
    apply Forall_forall. intros c I E.
    apply in_map_iff in I. destruct I as [c' [<- I]].
    destruct (Nat.eqb_spec (conn_id c') id) as [Ec|Ec]; [reflexivity|].
    contradiction. }
  split.
  { change (Tick :: es ++ [Tick]) with ([Tick] ++ es ++ [Tick]) in H.
    rewrite server_run_app in H.
    destruct (run [Tick] s) as [s1|] eqn:H1; [|discriminate].
    rewrite server_run_app in H.
    destruct (run es s1) as [s2|] eqn:H2; [|discriminate].
    simpl in H1. destruct (interval_active s) eqn:IA; [|discriminate].
    inversion H1; subst s1; clear H1.
    assert (Fr1 : ids_fresh (heartbeat_tick s)).
    { apply (@step_ids_fresh Tick s (heartbeat_tick s) Fr).
      simpl. rewrite IA. reflexivity. }
    assert (T1 : tracked id (heartbeat_tick s) = true).
    { unfold tracked in *. destruct (heartbeat_tick_spec s) as (C & _).
      rewrite C. rewrite existsb_exists in *. destruct T as [c [I E]].
      exists (probed c). split; [apply in_map; exact I|].
      rewrite conn_id_probed. exact E. }
    destruct (@run_unanswered id es _ s2 Fr1 T1 (tick_flags_all id s) Q H2)
      as (Fr2 & T2 & A2).
    destruct (heartbeat_tick_spec s) as (_ & L1 & _).
    destruct (@run_log es _ s2 H2) as [n2 L2].
    simpl in H. destruct (interval_active s2); [|discriminate].
    inversion H; subst s'; clear H.
    destruct (heartbeat_tick_spec s2) as (_ & L3 & _).
    exists (map probe_of (clients s) ++ n2 ++ map probe_of (clients s2)).
    split.
    - rewrite L3, L2, L1, <- !app_assoc. reflexivity.
    - apply in_or_app. right. apply in_or_app. right.
      apply tick_terminates_flagged; assumption. }
  split.
  { unfold tick_time, ticks_before.
    pose proof (Z.div_mod t intervalMs ltac:(lia)) as D.
    pose proof (Z.mod_pos_bound t intervalMs Hi) as B.
    nia. }
  intros later s'' [R|R].
  - apply (@run_interval_cleared later (cleanupHeartbeat s') s'' eq_refl R).
  - apply (@run_interval_cleared later (cleanup s') s'' eq_refl R).
Qed.

End LoopFacts.


(** ** Routing *)

(** What the message listener hands to [onMessage] has no dangerous key at
    any depth, and a frame that does not parse is dropped. *)
Lemma on_message_hands_over_clean_values
    (JSON_parse : string -> option json) options id raw s :
  log (on_message JSON_parse options id raw s) =
  log s ++
  match JSON_parse raw with
  | Some v =>
      if onMessage options then [MessageCallback id (sanitizeJson v)] else []
  | None => []
  end
  /\ forall i v,
       In (MessageCallback i v)
          (match JSON_parse raw with
           | Some v =>
               if onMessage options
               then [MessageCallback id (sanitizeJson v)] else []
           | None => []
           end) ->
       clean v = true.
Proof.
  split.
  - unfold on_message.
    destruct (onMessage options); simpl;
      destruct (JSON_parse raw); simpl; rewrite ?app_nil_r; reflexivity.
  - intros i v I.
    destruct (JSON_parse raw) as [v0|]; [|destruct I].
    destruct (onMessage options); [|destruct I].
    destruct I as [E|[]]. inversion E; subst.
    apply JsonFacts.clean_sanitizeJson.
Qed.

(** ** Admission *)

(** C6, as the code has it.  With a non-empty origin allowlist, a handshake
    whose [Origin] is not an exact member (or is absent) is refused before
    the upgrade: a warning is logged and no connection is registered; one
    whose [Origin] is a member passes the origin check and is admitted
    unless the custom verifier refuses it.  Without an allowlist, or with
    an empty one, the origin is not looked at: any origin is admitted unless
    the custom verifier refuses it.  An admitted handshake registers one
    connection, open unless the connection ceiling closes it. *)
Theorem origin_allowlist_gate :
  forall (options : WSServerOptions) (r : IncomingMessage)
         (s : WebSocketServer),
    ids_fresh s ->
    let o := header "origin" (headers r) in
    let s' := handleUpgrade options r s in
    admits options r =
      match allowedOrigins options with
      | Some (x :: l) => includes (x :: l) o && verifier_accepts options r
      | _ => verifier_accepts options r
      end
    /\ (if admits options r
        then clients s' =
               clients s ++
               [if over_limit options (S (List.length (clients s)))
                then mkConn (next_id s) CLOSING (Some true) false
                else mkConn (next_id s) OPEN (Some true) true]
        else clients s' = clients s
             /\ log s' =
                log s ++
                [Warned
                   match allowedOrigins options with
                   | Some (x :: l) =>
                       if includes (x :: l) o then VerifierRejected
                       else OriginRejected o
                   | _ => VerifierRejected
                   end;
                 HandshakeRefused]).
Proof.
  intros options r s Fr o s'. split; [apply admits_spec|].
  destruct (admits options r) eqn:A.
  - destruct (@handleUpgrade_admitted options r s Fr A) as (C & _). exact C.
  - destruct (@handleUpgrade_refused options r s A) as (C & _ & L).
    split; [exact C | exact L].
Qed.

(** The two origins of the security test against the allowlist
    [['http://localhost:4175']]. *)
Lemma origin_allowlist_gate_witness :
  let options := with_allowedOrigins ["http://localhost:4175"] in
  let evil := request_from "http://evil.example.com" in
  let good := request_from "http://localhost:4175" in
  ids_fresh new_server
  /\ clients (handleUpgrade options evil new_server) = []
  /\ clients (handleUpgrade options good new_server)
     = [mkConn 0 OPEN (Some true) true].
Proof.
  cbv zeta.
  assert (Fr : ids_fresh new_server) by constructor.
  split; [exact Fr|].
  split.
  - exact (proj1 (proj2 (@origin_allowlist_gate
                           (with_allowedOrigins ["http://localhost:4175"])
                           (request_from "http://evil.example.com")
                           new_server Fr))).
  - exact (proj2 (@origin_allowlist_gate
                    (with_allowedOrigins ["http://localhost:4175"])
                    (request_from "http://localhost:4175")
                    new_server Fr)).
Defined.

(** C6 as first stated fails for an allowlist that is configured but
    empty: no origin is a member of it, and yet the handshake is admitted
    and the connection is open. *)
Lemma empty_allowlist_admits_any_origin :
  let options := with_allowedOrigins [] in
  let r := request_from "http://evil.example.com" in
  allowedOrigins options = Some []
  /\ includes [] (origin (info_of r)) = false
  /\ admits options r = true
  /\ clients (handleUpgrade options r new_server)
     = [mkConn 0 OPEN (Some true) true].
Proof. cbv zeta. repeat split; vm_compute; reflexivity. Qed.

Section Ceiling.
Variable JSON_parse : string -> option json.
Variable JSON_stringify : json -> string.
Variable options : WSServerOptions.

Local Abbreviation run := (Server.run JSON_parse JSON_stringify options).

Lemma open_clients_app s c cs :
  clients s = cs ++ [c] ->
  List.length (open_clients s) =
  (List.length (filter is_open cs) + if is_open c then 1 else 0)%nat.
Proof.
  intros E. unfold open_clients. rewrite E, filter_app, length_app. simpl.
  destruct (is_open c); reflexivity.
Qed.

(** [k] admitted handshakes in a row, on a server that tracks [n]
    connections: the newcomers that stay open are those that fit under the
    ceiling. *)
Lemma upgrades_open_count rs :
  forall s,
    ids_fresh s -> accepting s = true ->
    Forall (fun r => admits options r = true) rs ->
    exists s',
      run (map Upgrade rs) s = Some s'
      /\ List.length (clients s') = (List.length (clients s) + List.length rs)%nat
      /\ Z.of_nat (List.length (open_clients s')) =
         Z.of_nat (List.length (open_clients s)) +
         (let max := default (maxConnections options) 100 in
          if 0 <? max
          then Z.min (Z.of_nat (List.length rs))
                 (Z.max 0 (max - Z.of_nat (List.length (clients s))))
          else Z.of_nat (List.length rs)).
Proof.
  induction rs as [|r rs IH]; intros s Fr Acc A.
  - exists s. simpl. split; [reflexivity|]. split; [lia|].
    destruct (0 <? default (maxConnections options) 100); lia.
  - inversion A as [|r' rs' Ar Ars]; subst.
    destruct (@handleUpgrade_admitted options r s Fr Ar) as (C & N & _).
    set (s1 := handleUpgrade options r s) in *.
    assert (Fr1 : ids_fresh s1).
    { apply (@ServerFacts.step_ids_fresh JSON_parse JSON_stringify options
               (Upgrade r) s s1 Fr).
      simpl. rewrite Acc. reflexivity. }
    assert (Acc1 : accepting s1 = true).
    { destruct (@handleUpgrade_flags options r s) as [_ F].
      unfold s1. congruence. }
    destruct (IH s1 Fr1 Acc1 Ars) as [s' [R [L O]]].
    exists s'. split; [simpl; rewrite Acc; exact R|].
    assert (L1 : List.length (clients s1) = S (List.length (clients s))).
    { rewrite C, length_app. simpl. lia. }
    split; [rewrite L, L1; simpl; lia|].
    rewrite O, L1, (@open_clients_app s1 _ (clients s) C).
    fold (open_clients s).
    unfold over_limit. cbv zeta.
    change (List.length (r :: rs)) with (S (List.length rs)).
    set (max := default (maxConnections options) 100).
    set (n := List.length (clients s)).
    set (k := List.length rs).
    rewrite Nat2Z.inj_add, !Nat2Z.inj_succ.
    destruct (Z.ltb_spec 0 max) as [Pos|Pos]; cbn [andb].
    + destruct (Z.ltb_spec max (Z.succ (Z.of_nat n))) as [Over|Over];
        cbn [is_open readyState_of readyState_eqb Z.of_nat]; lia.
    + cbn [is_open readyState_of readyState_eqb Z.of_nat]. lia.
Qed.

(** C7.  An admitted connection is registered; when the count of tracked
    connections, the newcomer included, is over [maxConnections = m > 0],
    the newcomer is closed at once with code 1013 and is never open again
    for as long as it is tracked; otherwise, and always when [m = 0], it
    stays open.  So of [k] handshakes admitted in a row by a fresh server,
    [min(k, m)] are open when [m > 0], and all [k] when [m = 0]. *)
Theorem connection_ceiling :
  forall (m : Z) (r : IncomingMessage) (s : WebSocketServer)
         (rs : list IncomingMessage),
    maxConnections options = Some m ->
    ids_fresh s ->
    admits options r = true ->
    Forall (fun r => admits options r = true) rs ->
    let id := next_id s in
    let count := Z.of_nat (S (List.length (clients s))) in
    let s' := handleUpgrade options r s in
    (if (0 <? m) && (m <? count)
     then clients s' = clients s ++ [mkConn id CLOSING (Some true) false]
          /\ log s' =
             log s ++ [Warned (LimitReached m);
                       Closed id 1013 "Max connections reached"]
          /\ (forall later s'',
                run later s' = Some s'' -> all_named id is_closing s'')
     else clients s' = clients s ++ [mkConn id OPEN (Some true) true])
    /\ (exists sk,
          run (map Upgrade rs) new_server = Some sk
          /\ List.length (clients sk) = List.length rs
          /\ Z.of_nat (List.length (open_clients sk)) =
             if 0 <? m then Z.min (Z.of_nat (List.length rs)) m
             else Z.of_nat (List.length rs)).
Proof.
  intros m r s rs M Fr A As id count s'.
  destruct (@handleUpgrade_admitted options r s Fr A) as (C & N & L).
  unfold over_limit in C, L. rewrite M in C, L. simpl default in C, L.
  fold count in C, L. fold id in C, L. fold s' in C, L, N.
  split.
  - destruct ((0 <? m) && (m <? count)) eqn:Over.
    + split; [exact C|]. split; [exact L|].
      intros later s'' R.
      assert (Fr' : ids_fresh s').
      { unfold ids_fresh in *. rewrite C, N.
        apply Forall_app. split.
        - eapply Forall_impl; [|exact Fr]. simpl. intros c Hc. fold id in Hc. lia.
        - constructor; [simpl; lia | constructor]. }
      apply (@ServerFacts.run_closing JSON_parse JSON_stringify options
               id later s' s'' Fr'); [rewrite N; lia | | exact R].
      unfold all_named. rewrite C. apply Forall_app. split.
      * apply Forall_forall. intros c I E.
        unfold ids_fresh in Fr. rewrite Forall_forall in Fr.
        specialize (Fr c I). fold id in Fr. lia.
      * constructor; [intros _; reflexivity | constructor].
    + exact C.
  - destruct (@upgrades_open_count rs new_server) as [sk [R [Len O]]];
      [constructor | reflexivity | exact As |].
    exists sk. split; [exact R|]. split; [exact Len|].
    rewrite O. rewrite M. simpl.
    destruct (0 <? m) eqn:Pos; lia.
Qed.

End Ceiling.

(** The scenario of the security test: [maxConnections = 2], two
    connections open, a third arrives. *)
Lemma connection_ceiling_witness :
  let options := with_maxConnections 2 in
  let r := request_from "http://localhost:4175" in
  let run := Server.run no_parse Client.sample_stringify options in
  let s' := handleUpgrade options r two_open in
  (clients s' = clients two_open ++ [mkConn 2 CLOSING (Some true) false]
   /\ log s' =
      log two_open ++ [Warned (LimitReached 2);
                       Closed 2 1013 "Max connections reached"]
   /\ (forall later s'',
         run later s' = Some s'' -> all_named 2 is_closing s''))
  /\ (exists sk,
        run (map Upgrade [r; r; r]) new_server = Some sk
        /\ List.length (clients sk) = 3%nat
        /\ Z.of_nat (List.length (open_clients sk)) = 2).
Proof.
  cbv zeta.
  assert (Fr : ids_fresh two_open).
  { repeat constructor. }
  assert (As : Forall (fun r => admits (with_maxConnections 2) r = true)
                 [request_from "http://localhost:4175";
                  request_from "http://localhost:4175";
                  request_from "http://localhost:4175"]).
  { repeat constructor. }
  exact (@connection_ceiling no_parse Client.sample_stringify
           (with_maxConnections 2) 2
           (request_from "http://localhost:4175") two_open
           [request_from "http://localhost:4175";
            request_from "http://localhost:4175";
            request_from "http://localhost:4175"]
           eq_refl Fr eq_refl As).
Defined.

(** A connection that stays silent between two ticks, while another one
    answers and a broadcast goes out. *)
Lemma heartbeat_protocol_witness :
  let run := Server.run no_parse Client.sample_stringify plain_options in
  let s := three_clients in
  let es := [Pong 2; Broadcast (JString "tick")] in
  exists s',
    run (Tick :: es ++ [Tick]) s = Some s'
    /\ ((clients (heartbeat_tick s) = map probed (clients s)
         /\ log (heartbeat_tick s) = log s ++ map probe_of (clients s))
        /\ all_named 0 (fun c => isAlive c = Some true) (on_pong 0 s)
        /\ (exists new, log s' = log s ++ new /\ In (Terminated 0) new)
        /\ (45000 < tick_time 30000 (ticks_before 30000 45000 + 1)
            /\ tick_time 30000 (ticks_before 30000 45000 + 2)
               <= 45000 + 2 * 30000)
        /\ (forall later s'',
              run later (cleanupHeartbeat s') = Some s''
              \/ run later (cleanup s') = Some s'' ->
              filter is_probe (log s'') = filter is_probe (log s'))).
Proof.
  cbv zeta. eexists. split; [vm_compute; reflexivity|].
  apply (@heartbeat_protocol no_parse Client.sample_stringify plain_options
           three_clients _ 0%nat
           [Pong 2; Broadcast (JString "tick")] 30000 45000).
  - repeat constructor.
  - reflexivity.
  - repeat constructor.
  - vm_compute. reflexivity.
  - reflexivity.
  - discriminate.
Defined.

End ServerFacts.


(* ===================================================================== *)
(** * More about the reconnecting client                                   *)
(* ===================================================================== *)

Module ClientMore.
Import Json Client ClientFacts.

Local Open Scope string_scope.
Local Open Scope list_scope.

Section Machine.
Variable JSON_parse : string -> option json.
Variable JSON_stringify : json -> string.
Variable o : config.

Local Abbreviation step := (Client.step JSON_parse JSON_stringify o).
Local Abbreviation run := (Client.run JSON_parse JSON_stringify o).
Local Abbreviation send := (Client.send JSON_stringify o).

(** X1.  With [maxQueueSize] at least 1, the offline queue of a client
    never holds more than [maxQueueSize] messages, whatever calls, socket
    events and timer firings it has gone through since construction. *)
Theorem queue_never_exceeds_maximum :
  forall (es : list event) (w : world),
    (1 <= maxQueueSize o)%Z ->
    run es initial = Some w ->
    (Z.of_nat (List.length (queue w)) <= maxQueueSize o)%Z.
Proof.
  intros es w Hq H.
  apply (@queue_bounded JSON_parse JSON_stringify o es initial w Hq); [|exact H].
  simpl. lia.
Qed.

(** X2.  When the socket the client currently holds opens, the attempt
    counter is reset, every queued message is handed to that socket after
    what it was handed before, in queue order, the queue is left empty, and
    no other socket is touched. *)
Theorem open_flushes_queue_in_order :
  forall (i : nat) (s : WebSocket) (w w' : world),
    ws w = Some i ->
    nth_error (sockets w) i = Some s ->
    step (SockOpen i) w = Some w' ->
    queue w' = []
    /\ attempts w' = 0%nat
    /\ nth_error (sockets w') i = Some (mkSocket OPEN (sent s ++ queue w))
    /\ (forall j, j <> i -> nth_error (sockets w') j = nth_error (sockets w) j).
Proof.
  intros i s w w' Ews Es H. simpl in H.
  destruct (socket_state i w) as [[| | |]|] eqn:Est; try discriminate.
  inversion H; subst; clear H. unfold onopen, flushQueue.
  set (w1 := set_attempts 0 (set_socket_state i OPEN w)).
  assert (Est1 : socket_state i w1 = Some OPEN).
  { unfold w1, socket_state, set_socket_state. simpl.
    rewrite nth_error_update_nth, Nat.eqb_refl, Es. reflexivity. }
  rewrite (@flushQueue_loop_open (queue w1) w1 i Ews Est1). simpl.
  rewrite update_nth_twice.
  split; [reflexivity|]. split; [reflexivity|]. split.
  - rewrite nth_error_update_nth, Nat.eqb_refl, Es. reflexivity.
  - intros j Hj. rewrite nth_error_update_nth.
    destruct (Nat.eqb_spec i j); [congruence | reflexivity].
Qed.

Lemma send_not_open_stays m w :
  ws_readyState_is OPEN w = false ->
  ws_readyState_is OPEN (send m w) = false
  /\ transmitted (send m w) = transmitted w.
Proof.
  intros H. unfold Client.send. rewrite H. split; [exact H | reflexivity].
Qed.

(** X3.  Messages sent while the socket is not open are kept in call
    order and only the oldest are dropped: with [maxQueueSize] at least 1,
    after any number of such sends the queue is the tail of what was queued
    before followed by the new messages, it holds as many of them as fit,
    and nothing has been handed to a socket. *)
Theorem offline_sends_keep_the_newest :
  forall (ms : list json) (w w' : world),
    (1 <= maxQueueSize o)%Z ->
    ws_readyState_is OPEN w = false ->
    (Z.of_nat (List.length (queue w)) <= maxQueueSize o)%Z ->
    run (map Send ms) w = Some w' ->
    (exists dropped,
       queue w ++ map JSON_stringify ms = dropped ++ queue w')
    /\ List.length (queue w') =
       Nat.min (Z.to_nat (maxQueueSize o))
         (List.length (queue w) + List.length ms)
    /\ transmitted w' = transmitted w.
Proof.
  induction ms as [|m ms IH]; intros w w' Hq Hws Hlen H; simpl in H.
  - inversion H; subst. split; [exists []; rewrite app_nil_r; reflexivity|].
    split; [simpl; lia | reflexivity].
  - destruct (send_not_open_stays m w Hws) as [Hws1 Ht1].
    pose proof (@send_not_open JSON_stringify o m w Hws) as [Eq _].
    fold send in Eq.
    assert (Hlen1 : (Z.of_nat (List.length (queue (send m w)))
                     <= maxQueueSize o)%Z).
    { apply (@send_queue_bound JSON_stringify o m w Hq Hlen). }
    destruct (IH (send m w) w' Hq Hws1 Hlen1 H) as ([d2 E2] & L2 & T2).
    rewrite Eq in E2, L2.
    destruct (maxQueueSize o <=? Z.of_nat (List.length (queue w)))%Z eqn:Full.
    + apply Z.leb_le in Full.
      destruct (queue w) as [|x q] eqn:Q; [simpl in Full; lia|].
      simpl tl in E2, L2. split; [|split].
      * exists (x :: d2). simpl. rewrite <- E2, <- app_assoc. reflexivity.
      * rewrite L2, length_app. simpl in *. lia.
      * congruence.
    + apply Z.leb_gt in Full. split; [|split].
      * exists d2. simpl. rewrite <- E2, <- app_assoc. reflexivity.
      * rewrite L2, length_app. simpl. lia.
      * congruence.
Qed.

Lemma set_listeners_same w : set_listeners (listeners w) w = w.
Proof. destruct w; reflexivity. Qed.

Lemma listeners_delete_twice h ls :
  listeners_delete h (listeners_delete h ls) = listeners_delete h ls.
Proof.
  unfold listeners_delete. induction ls as [|x r IH]; simpl.
  - reflexivity.
  - destruct (negb (Nat.eqb (hid x) (hid h))) eqn:E; simpl;
      [rewrite E, IH; reflexivity | exact IH].
Qed.

(** X4.  [dispose] may be called any number of times: a second call
    changes nothing, and after either call the client is disposed, not
    connected, holds no socket and no timer handle, and its queue is
    empty. *)
Theorem dispose_is_idempotent :
  forall w : world,
    dispose (dispose w) = dispose w
    /\ disposed (dispose w) = true
    /\ connected (dispose w) = false
    /\ ws (dispose w) = None
    /\ reconnectTimer (dispose w) = None
    /\ queue (dispose w) = [].
Proof.
  intros w. destruct (dispose_idempotent w) as [I C].
  split; [exact I|]. split; [|split; [exact C|]].
  - unfold dispose. simpl. destruct (reconnectTimer w); simpl;
      destruct (ws w); reflexivity.
  - split; [reflexivity|]. split; [|reflexivity].
    unfold dispose. simpl. destruct (reconnectTimer w) eqn:E; simpl;
      destruct (ws w); simpl; rewrite ?E; reflexivity.
Qed.

Lemma dispose_listeners w : listeners (dispose w) = listeners w.
Proof.
  unfold dispose. simpl. destruct (reconnectTimer w); simpl;
    destruct (ws w); reflexivity.
Qed.

Lemma unsubscribe_absent h w :
  listeners_delete h (listeners w) = listeners w ->
  unsubscribe h w =
  if (List.length (listeners w) =? 0)%nat then dispose w else w.
Proof.
  intros E. unfold unsubscribe. rewrite E, set_listeners_same. reflexivity.
Qed.

(** X5.  The closure [subscribe] returns is idempotent: calling it a
    second time leaves the client exactly as the first call left it. *)
Theorem unsubscribe_is_idempotent :
  forall (h : handler) (w : world),
    unsubscribe h (unsubscribe h w) = unsubscribe h w.
Proof.
  intros h w.
  set (w1 := set_listeners (listeners_delete h (listeners w)) w).
  assert (U : unsubscribe h w =
              if (List.length (listeners w1) =? 0)%nat then dispose w1 else w1)
    by reflexivity.
  assert (D : listeners_delete h (listeners w1) = listeners w1)
    by apply listeners_delete_twice.
  rewrite U. destruct (List.length (listeners w1) =? 0)%nat eqn:E.
  - rewrite unsubscribe_absent by (rewrite dispose_listeners; exact D).
    rewrite dispose_listeners, E. apply dispose_idempotent.
  - rewrite unsubscribe_absent by exact D. rewrite E. reflexivity.
Qed.

Lemma socket_close_not_live i w :
  match socket_state i (socket_close i w) with
  | Some OPEN | Some CONNECTING => False
  | _ => True
  end.
Proof.
  unfold socket_state, socket_close. simpl.
  rewrite nth_error_update_nth, Nat.eqb_refl.
  destruct (nth_error (sockets w) i) as [[[| | |] sn]|]; simpl; exact I.
Qed.

(** X6.  When the closure of the last subscribed handler is called, the
    client is disposed: the socket it held is no longer connecting or open,
    and from then on, whatever is called and whatever the runtime delivers
    (a new [subscribe] included), it stays disposed and not connected,
    constructs no socket and hands nothing to any socket. *)
Theorem last_unsubscribe_tears_down :
  forall (h : handler) (w : world) (es : list event) (w' : world),
    listeners_delete h (listeners w) = [] ->
    run es (unsubscribe h w) = Some w' ->
    unsubscribe h w = dispose (set_listeners [] w)
    /\ (forall i, ws w = Some i ->
          match socket_state i (unsubscribe h w) with
          | Some OPEN | Some CONNECTING => False
          | _ => True
          end)
    /\ disposed w' = true
    /\ connected w' = false
    /\ List.length (sockets w') = List.length (sockets w)
    /\ transmitted w' = transmitted w.
Proof.
  intros h w es w' L H.
  assert (U : unsubscribe h w = dispose (set_listeners [] w)).
  { unfold unsubscribe. rewrite L. reflexivity. }
  rewrite U in *. split; [reflexivity|].
  destruct (dispose_torn_down (set_listeners [] w)) as (T0 & A0 & B0).
  destruct (@run_torn_down JSON_parse JSON_stringify o es _ w' T0 H)
    as (T1 & A1 & B1).
  split.
  { intros i Ews. unfold dispose. simpl.
    destruct (reconnectTimer w); simpl; rewrite Ews;
      apply socket_close_not_live. }
  split; [apply T1|].
  split; [unfold connected; apply ws_readyState_is_None; apply T1|].
  split; [rewrite B1, B0; reflexivity | rewrite A1, A0; reflexivity].
Qed.

Lemma listeners_has_add h ls : listeners_has h (listeners_add h ls) = true.
Proof.
  unfold listeners_add. destruct (listeners_has h ls) eqn:E; [exact E|].
  unfold listeners_has. rewrite existsb_app. simpl.
  rewrite Nat.eqb_refl. apply orb_true_r.
Qed.

Lemma listeners_has_add_other h h' ls :
  listeners_has h' ls = true -> listeners_has h' (listeners_add h ls) = true.
Proof.
  intros H. unfold listeners_add. destruct (listeners_has h ls); [exact H|].
  unfold listeners_has in *. rewrite existsb_app, H. reflexivity.
Qed.

Lemma listeners_add_NoDup h ls :
  NoDup (map hid ls) -> NoDup (map hid (listeners_add h ls)).
Proof.
  intros N. unfold listeners_add. destruct (listeners_has h ls) eqn:E; [exact N|].
  rewrite map_app. simpl.
  apply NoDup_app; [exact N | repeat constructor; simpl; tauto |].
  intros x I [X|[]]. subst x.
  apply in_map_iff in I. destruct I as [h' [Eh I]].
  unfold listeners_has in E.
  assert (existsb (fun h0 => Nat.eqb (hid h0) (hid h)) ls = true).
  { apply existsb_exists. exists h'. split; [exact I|].
    apply Nat.eqb_eq. exact Eh. }
  congruence.
Qed.

Lemma listeners_add_not_nil h ls : listeners_add h ls <> [].
Proof.
  unfold listeners_add. destruct (listeners_has h ls) eqn:E.
  - destruct ls; [discriminate E | discriminate].
  - destruct ls; discriminate.
Qed.

Lemma subscribes_keep_the_socket hs :
  forall w,
    ws_readyState_is OPEN w || ws_readyState_is CONNECTING w = true ->
    NoDup (map hid (listeners w)) ->
    exists w',
      run (subscribes hs) w = Some w'
      /\ sockets w' = sockets w /\ ws w' = ws w
      /\ NoDup (map hid (listeners w'))
      /\ (forall h, listeners_has h (listeners w) = true ->
                    listeners_has h (listeners w') = true)
      /\ Forall (fun h => listeners_has h (listeners w') = true) hs.
Proof.
  induction hs as [|h hs IH]; intros w Live N.
  - exists w. simpl. repeat split; auto.
  - set (w1 := subscribe h w).
    assert (E1 : w1 = set_listeners (listeners_add h (listeners w)) w).
    { unfold w1, subscribe, ensureConnection.
      change (ws_readyState_is OPEN
                (set_listeners (listeners_add h (listeners w)) w))
        with (ws_readyState_is OPEN w).
      change (ws_readyState_is CONNECTING
                (set_listeners (listeners_add h (listeners w)) w))
        with (ws_readyState_is CONNECTING w).
      rewrite Live. reflexivity. }
    destruct (IH w1) as (w' & R & S & W & N' & Keep & All).
    + rewrite E1. exact Live.
    + rewrite E1. simpl. apply listeners_add_NoDup. exact N.
    + exists w'. simpl. fold w1. split; [exact R|].
      rewrite E1 in S, W, Keep. simpl in S, W, Keep.
      split; [exact S|]. split; [exact W|]. split; [exact N'|].
      split.
      * intros h0 H0. apply Keep. apply listeners_has_add_other. exact H0.
      * constructor; [|exact All]. apply Keep. apply listeners_has_add.
Qed.

(** X7.  The client connects lazily and once: on a new client any number
    of [subscribe] calls construct exactly one socket, which is connecting
    and is the one the client holds; every handler given is registered, and
    a handler given twice is registered once. *)
Theorem subscribe_connects_once :
  forall (h : handler) (hs : list handler),
    exists w,
      run (subscribes (h :: hs)) initial = Some w
      /\ sockets w = [mkSocket CONNECTING []]
      /\ ws w = Some 0%nat
      /\ NoDup (map hid (listeners w))
      /\ Forall (fun h' => listeners_has h' (listeners w) = true) (h :: hs).
Proof.
  intros h hs.
  destruct (subscribes_keep_the_socket hs (subscribe h initial))
    as (w & R & S & W & N & Keep & All).
  - reflexivity.
  - simpl. repeat constructor. simpl. tauto.
  - exists w. split; [exact R|]. split; [exact S|]. split; [exact W|].
    split; [exact N|]. constructor; [|exact All].
    apply Keep. simpl. rewrite Nat.eqb_refl. reflexivity.
Qed.

(** A retry is counted only while the limit has not been reached. *)
Lemma step_increment_below_limit e w w' :
  step e w = Some w' ->
  attempts w' = S (attempts w) ->
  (maxAttempts o <= 0)%Z \/ (Z.of_nat (attempts w) < maxAttempts o)%Z.
Proof.
  intros H A.
  destruct (@step_counters JSON_parse JSON_stringify o e w w' H)
    as [(i & _ & A0 & _)|[(A1 & _)|(i & random & E & _)]]; try lia.
  subst e. simpl in H.
  assert (E : w' = onclose o random (set_socket_state i CLOSED w)).
  { destruct (socket_state i w) as [[| | |]|]; try discriminate;
      inversion H; reflexivity. }
  clear H. subst w'. unfold onclose in A.
  set (w0 := set_socket_state i CLOSED w) in *.
  destruct (negb (disposed w0) && (0 <? List.length (listeners w0))%nat).
  - destruct (scheduleReconnect_cases o random w0) as [[E _]|[_ B]].
    + rewrite E in A. simpl in A. lia.
    + exact B.
  - simpl in A. lia.
Qed.

(** X8.  With [maxAttempts = m > 0] the attempt counter of a client never
    exceeds [m]; and once it has reached [m], a closing socket schedules
    no reconnect: the close changes nothing but the state of that socket. *)
Theorem attempts_never_exceed_maxAttempts :
  forall (es : list event) (w : world),
    (0 < maxAttempts o)%Z ->
    run es initial = Some w ->
    (Z.of_nat (attempts w) <= maxAttempts o)%Z
    /\ (forall i random w',
          (maxAttempts o <= Z.of_nat (attempts w))%Z ->
          step (SockClose i random) w = Some w' ->
          w' = set_socket_state i CLOSED w).
Proof.
  intros es w Hm H. split.
  - assert (G : forall es w0 w1,
               (Z.of_nat (attempts w0) <= maxAttempts o)%Z ->
               run es w0 = Some w1 ->
               (Z.of_nat (attempts w1) <= maxAttempts o)%Z).
    { clear es w H. induction es as [|e es IH]; intros w0 w1 B H; simpl in H.
      - inversion H; subst. exact B.
      - destruct (step e w0) as [w2|] eqn:E; [|discriminate].
        apply (IH w2 w1); [|exact H].
        destruct (@step_counters JSON_parse JSON_stringify o e w0 w2 E)
          as [(i & _ & A0 & _)|[(A1 & _)|(i & random & _ & A2 & _)]]; try lia.
        destruct (step_increment_below_limit e w0 E A2); lia. }
    apply (G es initial w); [simpl; lia | exact H].
  - intros i random w' Full S. simpl in S.
    assert (E : w' = onclose o random (set_socket_state i CLOSED w)).
    { destruct (socket_state i w) as [[| | |]|]; try discriminate;
        inversion S; reflexivity. }
    subst w'. unfold onclose.
    set (w0 := set_socket_state i CLOSED w).
    destruct (negb (disposed w0) && (0 <? List.length (listeners w0))%nat);
      [|reflexivity].
    destruct (scheduleReconnect_cases o random w0) as [[E _]|[_ B]].
    + exact E.
    + simpl in B. lia.
Qed.

Lemma timer_pending_nil t w : timers w = [] -> timer_pending t w = false.
Proof. unfold timer_pending. intros ->. reflexivity. Qed.

Lemma connect_lifecycle w :
  disposed (connect w) = disposed w
  /\ listeners (connect w) = listeners w
  /\ (disposed w = true -> ws (connect w) = ws w).
Proof.
  unfold connect. destruct (disposed w) eqn:E; simpl; rewrite ?E;
    (split; [reflexivity|]); (split; [reflexivity|]); intros X;
    [reflexivity | discriminate X].
Qed.

Lemma lifecycle_ok_same w w' :
  disposed w' = disposed w -> ws w' = ws w ->
  listeners w' = listeners w -> timers w' = timers w ->
  lifecycle_ok w -> lifecycle_ok w'.
Proof.
  unfold lifecycle_ok. intros -> -> -> ->. tauto.
Qed.

Lemma step_lifecycle e w w' :
  lifecycle_ok w -> step e w = Some w' -> lifecycle_ok w'.
Proof.
  intros [D L].
  destruct e as [h|h|m| |i|i data|i|i random|t]; simpl; intros H.
  - inversion H; subst; clear H. unfold subscribe, ensureConnection.
    set (w1 := set_listeners (listeners_add h (listeners w)) w).
    assert (NE : listeners w1 <> []) by apply listeners_add_not_nil.
    destruct (ws_readyState_is OPEN w1 || ws_readyState_is CONNECTING w1).
    + split; [exact D | intros E; contradiction].
    + destruct (connect_lifecycle w1) as (A & B & C).
      split.
      * rewrite A. intros Dt. rewrite (C Dt). apply D. exact Dt.
      * rewrite B. intros E. contradiction.
  - inversion H; subst; clear H. unfold unsubscribe.
    set (w1 := set_listeners (listeners_delete h (listeners w)) w).
    destruct (List.length (listeners w1) =? 0)%nat eqn:E.
    + destruct (dispose_torn_down w1) as ([A B] & _).
      split; [intros _; exact B | intros _; left; exact A].
    + split; [exact D|]. intros N. rewrite N in E. discriminate.
  - inversion H; subst; clear H.
    apply lifecycle_ok_same with (w := w); try (split; assumption);
      unfold Client.send; destruct (ws_readyState_is OPEN w);
      try (destruct (ws w) eqn:W); simpl; congruence.
  - inversion H; subst; clear H.
    destruct (dispose_torn_down w) as ([A B] & _).
    split; [intros _; exact B | intros _; left; exact A].
  - destruct (socket_state i w) as [[| | |]|]; try discriminate.
    inversion H; subst; clear H. unfold onopen.
    destruct (flushQueue_control (set_attempts 0 (set_socket_state i OPEN w)))
      as (A & B & _ & C & _ & T & _).
    unfold lifecycle_ok. rewrite A, B, C, T. split; assumption.
  - destruct (socket_state i w) as [[| | |]|]; try discriminate.
    inversion H; subst; clear H.
    destruct (onmessage_only_delivers JSON_parse data w) as [d ->].
    split; assumption.
  - destruct (socket_state i w) as [[| | |]|]; try discriminate;
      inversion H; subst; split; assumption.
  - assert (E : w' = onclose o random (set_socket_state i CLOSED w)).
    { destruct (socket_state i w) as [[| | |]|]; try discriminate;
        inversion H; reflexivity. }
    clear H. subst w'. unfold onclose.
    set (w0 := set_socket_state i CLOSED w).
    destruct (negb (disposed w0) && (0 <? List.length (listeners w0))%nat)
      eqn:C; [|split; assumption].
    apply andb_prop in C. destruct C as [_ C]. apply Nat.ltb_lt in C.
    unfold w0 in C. simpl in C. unfold scheduleReconnect.
    destruct ((0 <? maxAttempts o)%Z
              && (maxAttempts o <=? Z.of_nat (attempts w0))%Z);
      (split; [exact D|]); simpl; intros N; rewrite N in C; simpl in C; lia.
  - destruct (timer_pending t w) eqn:P; [|discriminate].
    inversion H; subst; clear H. unfold reconnect_callback.
    set (w0 := set_reconnectTimer None (clearTimeout t w)).
    destruct (connect_lifecycle w0) as (A & B & C).
    assert (NL : listeners w = [] -> disposed w = true).
    { intros N. destruct (L N) as [Dt|[_ T]]; [exact Dt|].
      rewrite (timer_pending_nil t w T) in P. discriminate. }
    split.
    + rewrite A. intros Dt. rewrite (C Dt). apply D. exact Dt.
    + rewrite A, B. intros N. left. apply NL. exact N.
Qed.

(** X9.  In every state a client can reach, it is connected only while it
    is not disposed and at least one handler is subscribed. *)
Theorem connected_only_while_subscribed :
  forall (es : list event) (w : world),
    run es initial = Some w ->
    connected w = true ->
    disposed w = false /\ listeners w <> [].
Proof.
  intros es w H C.
  assert (G : forall es w0 w1,
             lifecycle_ok w0 -> run es w0 = Some w1 -> lifecycle_ok w1).
  { clear es w H C. induction es as [|e es IH]; intros w0 w1 I H; simpl in H.
    - inversion H; subst. exact I.
    - destruct (step e w0) as [w2|] eqn:E; [|discriminate].
      apply (IH w2 w1); [|exact H]. apply (step_lifecycle e I E). }
  assert (I0 : lifecycle_ok initial).
  { split; [reflexivity | intros _; right; split; reflexivity]. }
  destruct (G es initial w I0 H) as [D L].
  assert (W : ws w <> None).
  { intros N. unfold connected in C.
    rewrite (ws_readyState_is_None OPEN w N) in C. discriminate. }
  split.
  - destruct (disposed w); [exfalso; apply W; apply D; reflexivity|reflexivity].
  - intros N. destruct (L N) as [Dt|[Wn _]]; [|contradiction].
    apply W. apply D. exact Dt.
Qed.

(** ** Nothing is sent twice *)

Local Open Scope nat_scope.

Lemma subsequence_refl {A} (l : list A) : subsequence l l.
Proof. induction l; constructor; assumption. Qed.

Lemma subsequence_trans {A} (a b c : list A) :
  subsequence a b -> subsequence b c -> subsequence a c.
Proof.
  intros Hab Hbc. revert a Hab.
  induction Hbc as [l|x l1 l2 H IH|x l1 l2 H IH]; intros a Hab.
  - inversion Hab; subst. constructor.
  - apply subsequence_skip. apply IH. exact Hab.
  - inversion Hab; subst.
    + constructor.
    + apply subsequence_skip. apply IH. assumption.
    + apply subsequence_take. apply IH. assumption.
Qed.

Lemma subsequence_app_l {A} (l a b : list A) :
  subsequence a b -> subsequence a (l ++ b).
Proof.
  intros H. induction l as [|x l IH]; simpl;
    [exact H | apply subsequence_skip; exact IH].
Qed.

Lemma subsequence_app {A} (a b c d : list A) :
  subsequence a b -> subsequence c d -> subsequence (a ++ c) (b ++ d).
Proof.
  intros Hab Hcd.
  induction Hab as [l|x l1 l2 H IH|x l1 l2 H IH]; simpl.
  - apply subsequence_app_l. exact Hcd.
  - apply subsequence_skip. exact IH.
  - apply subsequence_take. exact IH.
Qed.

Lemma subsequence_tl {A} (l : list A) : subsequence (tl l) l.
Proof.
  destruct l as [|x l]; simpl;
    [constructor | apply subsequence_skip, subsequence_refl].
Qed.

Lemma subsequence_length {A} (a b : list A) :
  subsequence a b -> List.length a <= List.length b.
Proof. induction 1; simpl; lia. Qed.

(** Frames handed to the socket constructed last come after all the
    frames handed to any socket before. *)
Lemma sent_append_last i q l :
  S i = List.length l ->
  flat_map sent
    (update_nth i (fun s => mkSocket (readyState_of s) (sent s ++ q)) l)
  = flat_map sent l ++ q.
Proof.
  revert i. induction l as [|x r IH]; intros i E; simpl in E; [lia|].
  destruct i as [|i]; simpl.
  - destruct r; [|simpl in E; lia]. simpl. rewrite !app_nil_r. reflexivity.
  - rewrite IH by lia. rewrite app_assoc. reflexivity.
Qed.

Lemma outbox_ok_same w w' :
  ws w' = ws w -> sockets w' = sockets w -> queue w' = queue w ->
  outbox_ok w -> outbox_ok w'.
Proof.
  unfold outbox_ok, ws_readyState_is, socket_state.
  intros -> -> ->. tauto.
Qed.

Lemma connect_outbox w :
  transmitted (connect w) = transmitted w /\ queue (connect w) = queue w
  /\ (outbox_ok w -> outbox_ok (connect w)).
Proof.
  unfold connect, transmitted. destruct (disposed w); simpl; [auto|].
  rewrite flat_map_app. simpl. rewrite app_nil_r.
  split; [reflexivity|]. split; [reflexivity|]. intros _. split; simpl.
  - intros i E. inversion E; subst. rewrite length_app. simpl. lia.
  - unfold ws_readyState_is, socket_state. simpl.
    rewrite nth_error_app2 by lia. rewrite Nat.sub_diag. simpl. discriminate.
Qed.

Lemma ensureConnection_outbox w :
  transmitted (ensureConnection w) = transmitted w
  /\ queue (ensureConnection w) = queue w
  /\ (outbox_ok w -> outbox_ok (ensureConnection w)).
Proof.
  unfold ensureConnection.
  destruct (ws_readyState_is OPEN w || ws_readyState_is CONNECTING w);
    [auto | apply connect_outbox].
Qed.

Lemma dispose_outbox w :
  transmitted (dispose w) = transmitted w /\ queue (dispose w) = []
  /\ outbox_ok (dispose w).
Proof.
  destruct (@dispose_torn_down w) as ([_ N] & T & _).
  split; [exact T|]. split; [reflexivity|]. split.
  - intros i E. rewrite N in E. discriminate.
  - intros _. reflexivity.
Qed.

(** Closing a socket, or opening one, does not make another one open. *)
Lemma set_socket_state_closed_open i w :
  ws_readyState_is OPEN (set_socket_state i CLOSED w) = true ->
  ws_readyState_is OPEN w = true.
Proof.
  unfold ws_readyState_is, set_socket_state, socket_state. simpl.
  destruct (ws w) as [j|]; [|intros H; exact H].
  rewrite nth_error_update_nth.
  destruct (Nat.eqb i j); [|intros H; exact H].
  destruct (nth_error (sockets w) j); simpl; discriminate.
Qed.

(** One turn of the loop: what is transmitted or queued afterwards is
    what was before, with some queued frames left out, followed by the
    message of the turn when the turn is a [send]. *)
Lemma step_outbox e w w' :
  outbox_ok w ->
  step e w = Some w' ->
  outbox_ok w'
  /\ exists kept,
       subsequence kept (transmitted w ++ queue w)
       /\ transmitted w' ++ queue w' =
          kept ++ map JSON_stringify (sends_of [e]).
Proof.
  intros I.
  assert (Same : forall w0 : world,
             transmitted w0 = transmitted w -> queue w0 = queue w ->
             exists kept,
               subsequence kept (transmitted w ++ queue w)
               /\ transmitted w0 ++ queue w0 = kept ++ []).
  { intros w0 -> ->. eexists. split; [apply subsequence_refl|].
    rewrite app_nil_r. reflexivity. }
  assert (Emptied : forall w0 : world,
             transmitted w0 = transmitted w -> queue w0 = [] ->
             exists kept,
               subsequence kept (transmitted w ++ queue w)
               /\ transmitted w0 ++ queue w0 = kept ++ []).
  { intros w0 -> ->. exists (transmitted w). split; [|reflexivity].
    rewrite <- (app_nil_r (transmitted w)) at 1.
    apply subsequence_app; [apply subsequence_refl | constructor]. }
  destruct e as [h|h|m| |i|i data|i|i random|t]; simpl; intros H.
  - inversion H; subst; clear H. unfold subscribe.
    destruct (ensureConnection_outbox
                (set_listeners (listeners_add h (listeners w)) w))
      as (A & B & C).
    split; [apply C; apply (@outbox_ok_same w); try reflexivity; exact I|].
    apply Same; assumption.
  - inversion H; subst; clear H. unfold unsubscribe.
    destruct (List.length _ =? 0)%nat.
    + destruct (dispose_outbox
                  (set_listeners (listeners_delete h (listeners w)) w))
        as (A & B & C).
      split; [exact C|]. apply Emptied; assumption.
    + split; [apply (@outbox_ok_same w); try reflexivity; exact I|].
      apply Same; reflexivity.
  - inversion H; subst; clear H. unfold Client.send.
    destruct (ws_readyState_is OPEN w) eqn:O.
    + destruct I as [I1 I2]. pose proof (I2 O) as Q.
      destruct (ws w) as [i|] eqn:W;
        [|unfold ws_readyState_is in O; rewrite W in O; discriminate].
      pose proof (I1 i eq_refl) as Last. split.
      * split; simpl.
        -- intros j E. rewrite update_nth_length. apply I1. congruence.
        -- intros _. exact Q.
      * exists (transmitted w ++ queue w). split; [apply subsequence_refl|].
        unfold transmitted. simpl. rewrite sent_append_last by exact Last.
        rewrite Q, !app_nil_r. reflexivity.
    + split.
      * destruct I as [I1 I2]. split; simpl; [exact I1|].
        unfold ws_readyState_is, socket_state in *. simpl.
        rewrite O. discriminate.
      * exists (transmitted w ++
                (if (maxQueueSize o <=? Z.of_nat (List.length (queue w)))%Z
                 then tl (queue w) else queue w)).
        split.
        -- apply subsequence_app; [apply subsequence_refl|].
           destruct (_ <=? _)%Z;
             [apply subsequence_tl | apply subsequence_refl].
        -- unfold transmitted. simpl. rewrite app_assoc. reflexivity.
  - inversion H; subst; clear H.
    destruct (dispose_outbox w) as (A & B & C).
    split; [exact C|]. apply Emptied; assumption.
  - destruct (socket_state i w) as [[| | |]|]; try discriminate.
    inversion H; subst; clear H. unfold onopen, flushQueue.
    set (w1 := set_attempts 0 (set_socket_state i OPEN w)).
    assert (T1 : transmitted w1 = transmitted w).
    { unfold w1, transmitted. simpl.
      apply flat_map_sent_update_nth. reflexivity. }
    assert (L1 : List.length (sockets w1) = List.length (sockets w))
      by (unfold w1; simpl; apply update_nth_length).
    destruct I as [I1 I2].
    destruct (ws_readyState_is OPEN w1) eqn:O.
    + destruct (ws w) as [j|] eqn:W;
        [|unfold ws_readyState_is, w1 in O; simpl in O; rewrite W in O;
          discriminate].
      assert (W1 : ws w1 = Some j) by exact W.
      assert (Est : socket_state j w1 = Some OPEN).
      { unfold ws_readyState_is in O. rewrite W1 in O.
        destruct (socket_state j w1) as [[| | |]|]; try discriminate.
        reflexivity. }
      rewrite (@flushQueue_loop_open (queue w1) w1 j W1 Est).
      split.
      * split; simpl.
        -- intros k E. rewrite !update_nth_length. apply I1. congruence.
        -- intros _. reflexivity.
      * exists (transmitted w ++ queue w). split; [apply subsequence_refl|].
        unfold transmitted at 1. cbn [sockets set_queue set_sockets queue].
        rewrite sent_append_last by (rewrite L1; apply I1; reflexivity).
        fold (transmitted w1). rewrite T1, !app_nil_r. reflexivity.
    + rewrite flushQueue_loop_not_open by exact O.
      split.
      * split; simpl.
        -- intros k E. rewrite update_nth_length. apply I1. exact E.
        -- intros O'. unfold ws_readyState_is, socket_state, w1 in O, O'.
           simpl in O, O'. rewrite O in O'. discriminate.
      * apply Same; [exact T1 | reflexivity].
  - destruct (socket_state i w) as [[| | |]|]; try discriminate.
    inversion H; subst; clear H.
    destruct (onmessage_only_delivers JSON_parse data w) as [d ->].
    split; [apply (@outbox_ok_same w); try reflexivity; exact I|].
    apply Same; reflexivity.
  - destruct (socket_state i w) as [[| | |]|]; try discriminate;
      inversion H; subst; (split; [exact I | apply Same; reflexivity]).
  - assert (E : w' = onclose o random (set_socket_state i CLOSED w)).
    { destruct (socket_state i w) as [[| | |]|]; try discriminate;
        inversion H; reflexivity. }
    clear H. subst w'.
    set (w0 := set_socket_state i CLOSED w).
    assert (T0 : transmitted w0 = transmitted w).
    { unfold transmitted. simpl. apply flat_map_sent_update_nth. reflexivity. }
    assert (I0 : outbox_ok w0).
    { destruct I as [I1 I2]. split.
      - intros j E. unfold w0. simpl. rewrite update_nth_length.
        apply I1. exact E.
      - intros O. apply I2. apply (set_socket_state_closed_open i w O). }
    unfold onclose. destruct (negb _ && _);
      [|split; [exact I0 | apply Same; [exact T0 | reflexivity]]].
    unfold scheduleReconnect. destruct (_ && _).
    + split; [exact I0 | apply Same; [exact T0 | reflexivity]].
    + split; [apply (@outbox_ok_same w0); try reflexivity; exact I0|].
      apply Same; [exact T0 | reflexivity].
  - destruct (timer_pending t w); [|discriminate].
    inversion H; subst; clear H. unfold reconnect_callback.
    destruct (connect_outbox (set_reconnectTimer None (clearTimeout t w)))
      as (A & B & C).
    split; [apply C; apply (@outbox_ok_same w); try reflexivity; exact I|].
    apply Same; assumption.
Qed.

Lemma sends_of_cons e es : sends_of (e :: es) = sends_of [e] ++ sends_of es.
Proof. destruct e; reflexivity. Qed.

Lemma run_outbox es :
  forall w w' before,
    outbox_ok w ->
    subsequence (transmitted w ++ queue w) before ->
    run es w = Some w' ->
    outbox_ok w'
    /\ subsequence (transmitted w' ++ queue w')
         (before ++ map JSON_stringify (sends_of es)).
Proof.
  induction es as [|e es IH]; intros w w' before I S H; simpl in H.
  - inversion H; subst. simpl. rewrite app_nil_r. auto.
  - destruct (step e w) as [w1|] eqn:E; [|discriminate].
    destruct (step_outbox e I E) as [I1 [kept [K Eq]]].
    rewrite sends_of_cons, map_app, app_assoc.
    apply (IH w1 w'); [exact I1 | | exact H].
    rewrite Eq. apply subsequence_app; [|apply subsequence_refl].
    apply (subsequence_trans K S).
Qed.

(** X10.  No message goes out twice, none is invented and none overtakes
    another: in every state the client reaches, the frames handed to its
    sockets, in the order they were handed over, followed by the frames in
    the queue, are the serializations of the messages given to [send], in
    call order, with some of them left out (those dropped from a full
    queue or cleared by [dispose]).  And nothing waits in the queue while
    the client is connected. *)
Theorem nothing_is_sent_twice :
  forall (es : list event) (w : world),
    run es initial = Some w ->
    subsequence (transmitted w ++ queue w)
      (map JSON_stringify (sends_of es))
    /\ (connected w = true -> queue w = []).
Proof.
  intros es w H.
  assert (I0 : outbox_ok initial)
    by (split; [intros i E; discriminate E | intros _; reflexivity]).
  destruct (@run_outbox es initial w [] I0 (subsequence_nil _) H) as [[_ Q] S].
  split; [exact S | exact Q].
Qed.

(** ** Retrying *)

(** X18.  While a handler is subscribed and the client is not disposed, a
    closing socket always schedules a reconnect as long as the attempts are
    not used up; with [maxAttempts] at 0 (or below) they never are, and the
    client retries forever. *)
Theorem close_schedules_a_retry :
  forall (i : nat) (random : Q) (w w' : world),
    ((maxAttempts o <= 0)%Z \/ (Z.of_nat (attempts w) < maxAttempts o)%Z) ->
    disposed w = false ->
    listeners w <> [] ->
    step (SockClose i random) w = Some w' ->
    scheduled o random (set_socket_state i CLOSED w) w'.
Proof.
  intros i random w w' Room D L H. simpl in H.
  assert (E : w' = onclose o random (set_socket_state i CLOSED w)).
  { destruct (socket_state i w) as [[| | |]|]; try discriminate;
      inversion H; reflexivity. }
  clear H. subst w'. unfold onclose.
  set (w0 := set_socket_state i CLOSED w).
  assert (G : negb (disposed w0) && (0 <? List.length (listeners w0))%nat
              = true).
  { unfold w0. simpl. rewrite D. simpl.
    destruct (listeners w); [contradiction | reflexivity]. }
  rewrite G.
  destruct (@scheduleReconnect_cases o random w0) as [[_ [A B]]|[S _]].
  - unfold w0 in B. simpl in B. lia.
  - exact S.
Qed.

(** X19.  The open event of a socket resets the attempt counter even when
    the socket the client holds by then is not open (it holds another one,
    or none); the queue is then left as it is and nothing is handed to any
    socket. *)
Theorem stale_open_flushes_nothing :
  forall (i : nat) (w w' : world),
    ws_readyState_is OPEN (set_socket_state i OPEN w) = false ->
    step (SockOpen i) w = Some w' ->
    attempts w' = 0%nat
    /\ queue w' = queue w
    /\ transmitted w' = transmitted w
    /\ ws w' = ws w.
Proof.
  intros i w w' N H. simpl in H.
  destruct (socket_state i w) as [[| | |]|]; try discriminate.
  inversion H; subst; clear H. unfold onopen, flushQueue.
  rewrite flushQueue_loop_not_open by exact N.
  unfold transmitted. simpl.
  split; [reflexivity|]. split; [reflexivity|]. split; [|reflexivity].
  apply flat_map_sent_update_nth. reflexivity.
Qed.

(** ** After dispose: timers *)

Lemma dispose_timers w :
  reconnectTimer (dispose w) = None
  /\ timers (dispose w) =
     match reconnectTimer w with
     | Some t => filter (fun p => negb (Nat.eqb (fst p) t)) (timers w)
     | None => timers w
     end.
Proof.
  unfold dispose. simpl.
  destruct (reconnectTimer w) eqn:E; simpl; destruct (ws w); simpl;
    rewrite ?E; split; reflexivity.
Qed.

Lemma step_no_timer e w w' :
  torn_down w -> reconnectTimer w = None ->
  step e w = Some w' ->
  reconnectTimer w' = None /\ next_timer w' = next_timer w
  /\ incl (timers w') (timers w).
Proof.
  intros [D N] T.
  assert (NO : forall st, ws_readyState_is st w = false)
    by (intros st; apply ws_readyState_is_None; exact N).
  assert (Disposing : forall w0 : world,
             reconnectTimer w0 = None -> next_timer w0 = next_timer w ->
             timers w0 = timers w ->
             reconnectTimer (dispose w0) = None
             /\ next_timer (dispose w0) = next_timer w
             /\ incl (timers (dispose w0)) (timers w)).
  { intros w0 T0 N0 M0. destruct (dispose_timers w0) as [A B].
    destruct (dispose_counters w0) as [_ C].
    rewrite T0 in B. rewrite A, B, C, N0, M0.
    repeat split. apply incl_refl. }
  destruct e as [h|h|m| |i|i data|i|i random|t]; simpl; intros H.
  - inversion H; subst; clear H. unfold subscribe, ensureConnection.
    unfold ws_readyState_is. simpl. rewrite N. simpl.
    rewrite connect_torn_down by exact D.
    simpl. repeat split; [exact T | apply incl_refl].
  - inversion H; subst; clear H. unfold unsubscribe.
    destruct (List.length _ =? 0)%nat.
    + apply Disposing; [exact T | reflexivity | reflexivity].
    + simpl. repeat split; [exact T | apply incl_refl].
  - inversion H; subst; clear H. unfold Client.send. rewrite NO.
    simpl. repeat split; [exact T | apply incl_refl].
  - inversion H; subst; clear H.
    apply Disposing; [exact T | reflexivity | reflexivity].
  - destruct (socket_state i w) as [[| | |]|]; try discriminate.
    inversion H; subst; clear H. unfold onopen, flushQueue.
    rewrite flushQueue_loop_not_open
      by (unfold ws_readyState_is; simpl; rewrite N; reflexivity).
    simpl. repeat split; [exact T | apply incl_refl].
  - destruct (socket_state i w) as [[| | |]|]; try discriminate.
    inversion H; subst; clear H.
    destruct (onmessage_only_delivers JSON_parse data w) as [d ->].
    simpl. repeat split; [exact T | apply incl_refl].
  - destruct (socket_state i w) as [[| | |]|]; try discriminate;
      inversion H; subst; unfold onerror;
      (repeat split; [exact T | apply incl_refl]).
  - assert (E : w' = onclose o random (set_socket_state i CLOSED w)).
    { destruct (socket_state i w) as [[| | |]|]; try discriminate;
        inversion H; reflexivity. }
    clear H. subst w'. unfold onclose. simpl. rewrite D. simpl.
    repeat split; [exact T | apply incl_refl].
  - destruct (timer_pending t w); [|discriminate].
    inversion H; subst; clear H. unfold reconnect_callback.
    rewrite connect_torn_down by exact D.
    simpl. repeat split. intros p Hp. apply filter_In in Hp. apply Hp.
Qed.

Lemma run_no_timer es :
  forall w w',
    torn_down w -> reconnectTimer w = None ->
    run es w = Some w' ->
    reconnectTimer w' = None /\ next_timer w' = next_timer w
    /\ incl (timers w') (timers w).
Proof.
  induction es as [|e es IH]; intros w w' D T H; simpl in H.
  - inversion H; subst. repeat split; [exact T | apply incl_refl].
  - destruct (step e w) as [w1|] eqn:E; [|discriminate].
    destruct (step_no_timer e D T E) as (T1 & N1 & I1).
    destruct (@step_torn_down JSON_parse JSON_stringify o e w w1 D E)
      as (D1 & _).
    destruct (IH w1 w' D1 T1 H) as (T2 & N2 & I2).
    split; [exact T2|]. split; [congruence|].
    intros p Hp. apply I1, I2, Hp.
Qed.

(** X11.  [dispose] cancels the reconnect timer the client tracks, and a
    disposed client never schedules another: whatever turns follow, it
    tracks no timer, [setTimeout] is not called again, the pending timers
    are among those that were pending before, and the cancelled one is not
    among them. *)
Theorem disposed_client_schedules_no_reconnect :
  forall (es : list event) (w w' : world),
    run es (dispose w) = Some w' ->
    reconnectTimer w' = None
    /\ next_timer w' = next_timer w
    /\ incl (timers w') (timers w)
    /\ (forall t, reconnectTimer w = Some t -> timer_pending t w' = false).
Proof.
  intros es w w' H.
  destruct (@dispose_torn_down w) as (D & _).
  destruct (dispose_timers w) as [T M].
  destruct (dispose_counters w) as [_ C].
  destruct (run_no_timer es D T H) as (T' & N' & I').
  split; [exact T'|]. split; [congruence|]. split.
  - intros p Hp. apply I' in Hp. rewrite M in Hp.
    destruct (reconnectTimer w); [|exact Hp].
    apply filter_In in Hp. apply Hp.
  - intros t Et. rewrite M, Et in I'.
    unfold timer_pending.
    destruct (existsb _ (timers w')) eqn:X; [|reflexivity].
    apply existsb_exists in X. destruct X as [p [Hp Eq]].
    apply I' in Hp. apply filter_In in Hp. destruct Hp as [_ Ne].
    rewrite Eq in Ne. discriminate.
Qed.

(** ** Inbound frames along a run *)

Lemma step_delivers_nothing e w w' :
  step e w = Some w' -> delivered w' = delivered w.
Proof.
  destruct e as [h|h|m| |i|i data|i|i random|t]; simpl; intros H.
  - inversion H; subst; clear H. unfold subscribe, ensureConnection, connect.
    destruct (_ || _); [reflexivity|]. simpl.
    destruct (disposed w); reflexivity.
  - inversion H; subst; clear H. unfold unsubscribe, dispose. simpl.
    destruct (List.length _ =? 0)%nat; [|reflexivity].
    destruct (reconnectTimer w); simpl; destruct (ws w); reflexivity.
  - inversion H; subst; clear H. unfold Client.send.
    destruct (ws_readyState_is OPEN w); [|reflexivity].
    destruct (ws w); reflexivity.
  - inversion H; subst; clear H. unfold dispose. simpl.
    destruct (reconnectTimer w); simpl; destruct (ws w); reflexivity.
  - destruct (socket_state i w) as [[| | |]|]; try discriminate.
    inversion H; subst; clear H. unfold onopen.
    destruct (@flushQueue_control
                (set_attempts 0 (set_socket_state i OPEN w)))
      as (_ & _ & _ & _ & _ & _ & _ & A & _).
    rewrite A. reflexivity.
  - destruct (socket_state i w) as [[| | |]|]; try discriminate.
    inversion H; subst; clear H.
    rewrite onmessage_never_invokes_a_handler. reflexivity.
  - destruct (socket_state i w) as [[| | |]|]; try discriminate;
      inversion H; subst; reflexivity.
  - assert (E : w' = onclose o random (set_socket_state i CLOSED w)).
    { destruct (socket_state i w) as [[| | |]|]; try discriminate;
        inversion H; reflexivity. }
    clear H. subst w'. unfold onclose, scheduleReconnect.
    destruct (negb _ && _); [|reflexivity].
    destruct (_ && _); reflexivity.
  - destruct (timer_pending t w); [|discriminate].
    inversion H; subst; clear H. unfold reconnect_callback, connect. simpl.
    destruct (disposed w); reflexivity.
Qed.

(** X12.  As the guard of [onmessage] is written, with the [in] operator,
    which also finds the keys an object inherits, no frame ever reaches a
    listener: along any run of the client, whatever the frames and however
    many handlers are subscribed, no handler is invoked. *)
Theorem no_frame_reaches_a_listener :
  forall (es : list event) (w w' : world),
    run es w = Some w' -> delivered w' = delivered w.
Proof.
  induction es as [|e es IH]; intros w w' H; simpl in H.
  - inversion H; subst. reflexivity.
  - destruct (step e w) as [w1|] eqn:E; [|discriminate].
    rewrite (IH w1 w' H). apply (step_delivers_nothing e w E).
Qed.

End Machine.

(** ** The backoff schedule *)

Section Schedule.
Variable o : config.

Local Open Scope Q_scope.

Lemma Qpower_2_succ n : 2 ^ Z.of_nat (S n) == 2 * 2 ^ Z.of_nat n.
Proof.
  rewrite Nat2Z.inj_succ, <- Z.add_1_l.
  rewrite Qpower_plus by (intros E; discriminate E).
  reflexivity.
Qed.

(** X13.  The base delay of the backoff never shrinks from one attempt to
    the next, never exceeds [maxBackoffMs], and equals it once
    [1000 * 2^n] has reached it; and with a positive [maxBackoffMs] every
    delay handed to [setTimeout] is positive, whatever the draw. *)
Theorem backoff_grows_to_the_cap :
  forall (n : nat) (random : Q),
    0 <= random -> 0 < maxBackoffMs o ->
    backoff_base o n <= backoff_base o (S n)
    /\ backoff_base o n <= maxBackoffMs o
    /\ (maxBackoffMs o <= 1000 * 2 ^ Z.of_nat n ->
        backoff_base o n == maxBackoffMs o)
    /\ 0 < backoff_delay o n random.
Proof.
  intros n random R M.
  assert (P : 0 < 2 ^ Z.of_nat n) by (apply Qpower_0_lt; lra).
  pose proof (Qpower_2_succ n) as S2.
  unfold backoff_delay, backoff_base.
  set (p := 2 ^ Z.of_nat n) in *. set (p' := 2 ^ Z.of_nat (S n)) in *.
  set (cap := maxBackoffMs o) in *.
  destruct (Q.min_spec (1000 * p) cap) as [[L1 E1]|[L1 E1]];
    destruct (Q.min_spec (1000 * p') cap) as [[L2 E2]|[L2 E2]];
    rewrite ?E1, ?E2.
  - split; [lra|]. split; [lra|]. split; [lra|].
    apply Q.min_glb_lt; [nra | lra].
  - split; [lra|]. split; [lra|]. split; [lra|].
    apply Q.min_glb_lt; [nra | lra].
  - split; [lra|]. split; [lra|]. split; [lra|].
    apply Q.min_glb_lt; [nra | lra].
  - split; [lra|]. split; [lra|]. split; [lra|].
    apply Q.min_glb_lt; [nra | lra].
Qed.

End Schedule.

(** ** Concrete runs *)

Local Open Scope Z_scope.

(** Four sends on a client that is not connected, with room for three. *)
Lemma queue_never_exceeds_maximum_witness :
  let parse := parse_one frame_with_prototype parsed_with_prototype in
  let es := [Send (JString "a"); Send (JString "b"); Send (JString "c");
             Send (JString "d")] in
  exists w,
    1 <= maxQueueSize queue_of_three
    /\ run parse sample_stringify queue_of_three es initial = Some w
    /\ Z.of_nat (List.length (queue w)) <= maxQueueSize queue_of_three.
Proof.
  cbv zeta. eexists.
  split; [vm_compute; discriminate|].
  split; [vm_compute; reflexivity|].
  apply (@queue_never_exceeds_maximum
           (parse_one frame_with_prototype parsed_with_prototype)
           sample_stringify queue_of_three
           [Send (JString "a"); Send (JString "b"); Send (JString "c");
            Send (JString "d")]).
  - vm_compute. discriminate.
  - vm_compute. reflexivity.
Defined.

(** Two messages are sent while the first socket is connecting; then it
    opens. *)
Lemma open_flushes_queue_in_order_witness :
  let parse := parse_one frame_with_prototype parsed_with_prototype in
  let s := mkSocket CONNECTING [] in
  exists w w',
    run parse sample_stringify default_config
      [Subscribe a_handler; Send (JString "a"); Send (JString "b")] initial
    = Some w
    /\ ws w = Some 0%nat
    /\ nth_error (sockets w) 0 = Some s
    /\ step parse sample_stringify default_config (SockOpen 0) w = Some w'
    /\ (queue w' = []
        /\ attempts w' = 0%nat
        /\ nth_error (sockets w') 0 = Some (mkSocket OPEN (sent s ++ queue w))
        /\ (forall j, j <> 0%nat ->
              nth_error (sockets w') j = nth_error (sockets w) j)).
Proof.
  cbv zeta. eexists. eexists.
  split; [vm_compute; reflexivity|].
  split; [reflexivity|]. split; [reflexivity|].
  split; [vm_compute; reflexivity|].
  apply (@open_flushes_queue_in_order
           (parse_one frame_with_prototype parsed_with_prototype)
           sample_stringify default_config 0%nat (mkSocket CONNECTING [])).
  - reflexivity.
  - reflexivity.
  - vm_compute. reflexivity.
Defined.

(** Four sends before any socket exists, with room for three: the first
    message is the one dropped. *)
Lemma offline_sends_keep_the_newest_witness :
  let parse := parse_one frame_with_prototype parsed_with_prototype in
  let ms := [JString "a"; JString "b"; JString "c"; JString "d"] in
  exists w',
    run parse sample_stringify queue_of_three (map Send ms) initial = Some w'
    /\ ((exists dropped,
           queue initial ++ map sample_stringify ms = dropped ++ queue w')
        /\ List.length (queue w') =
           Nat.min (Z.to_nat (maxQueueSize queue_of_three))
             (List.length (queue initial) + List.length ms)
        /\ transmitted w' = transmitted initial).
Proof.
  cbv zeta. eexists. split; [vm_compute; reflexivity|].
  apply (@offline_sends_keep_the_newest
           (parse_one frame_with_prototype parsed_with_prototype)
           sample_stringify queue_of_three
           [JString "a"; JString "b"; JString "c"; JString "d"] initial).
  - vm_compute. discriminate.
  - reflexivity.
  - vm_compute. discriminate.
  - vm_compute. reflexivity.
Defined.

(** The only handler unsubscribes; then another subscribes and a message
    is sent. *)
Lemma last_unsubscribe_tears_down_witness :
  let parse := parse_one frame_with_prototype parsed_with_prototype in
  let run := run parse sample_stringify default_config in
  let w := subscribe a_handler initial in
  let es := [Subscribe another_handler; Send (JString "late")] in
  exists w',
    listeners_delete a_handler (listeners w) = []
    /\ run es (unsubscribe a_handler w) = Some w'
    /\ (unsubscribe a_handler w = dispose (set_listeners [] w)
        /\ (forall i, ws w = Some i ->
              match socket_state i (unsubscribe a_handler w) with
              | Some OPEN | Some CONNECTING => False
              | _ => True
              end)
        /\ disposed w' = true
        /\ connected w' = false
        /\ List.length (sockets w') = List.length (sockets w)
        /\ transmitted w' = transmitted w).
Proof.
  cbv zeta. eexists.
  split; [reflexivity|].
  split; [vm_compute; reflexivity|].
  apply (@last_unsubscribe_tears_down
           (parse_one frame_with_prototype parsed_with_prototype)
           sample_stringify default_config a_handler
           (subscribe a_handler initial)
           [Subscribe another_handler; Send (JString "late")]).
  - reflexivity.
  - vm_compute. reflexivity.
Defined.

(** The first socket of a client with the default limit of ten attempts
    fails. *)
Lemma attempts_never_exceed_maxAttempts_witness :
  let parse := parse_one frame_with_prototype parsed_with_prototype in
  let o := default_config in
  let es := [Subscribe a_handler; SockClose 0 (1 # 2)] in
  exists w,
    0 < maxAttempts o
    /\ run parse sample_stringify o es initial = Some w
    /\ (Z.of_nat (attempts w) <= maxAttempts o
        /\ (forall i random w',
              maxAttempts o <= Z.of_nat (attempts w) ->
              step parse sample_stringify o (SockClose i random) w = Some w' ->
              w' = set_socket_state i CLOSED w)).
Proof.
  cbv zeta. eexists.
  split; [reflexivity|].
  split; [vm_compute; reflexivity|].
  apply (@attempts_never_exceed_maxAttempts
           (parse_one frame_with_prototype parsed_with_prototype)
           sample_stringify default_config
           [Subscribe a_handler; SockClose 0 (1 # 2)]).
  - reflexivity.
  - vm_compute. reflexivity.
Defined.

(** A handler subscribes and the socket opens. *)
Lemma connected_only_while_subscribed_witness :
  let parse := parse_one frame_with_prototype parsed_with_prototype in
  let es := [Subscribe a_handler; SockOpen 0] in
  exists w,
    run parse sample_stringify default_config es initial = Some w
    /\ connected w = true
    /\ (disposed w = false /\ listeners w <> []).
Proof.
  cbv zeta. eexists.
  split; [vm_compute; reflexivity|].
  split; [reflexivity|].
  apply (@connected_only_while_subscribed
           (parse_one frame_with_prototype parsed_with_prototype)
           sample_stringify default_config
           [Subscribe a_handler; SockOpen 0]).
  - vm_compute. reflexivity.
  - reflexivity.
Defined.

(** One message is queued and flushed, one goes out directly. *)
Lemma nothing_is_sent_twice_witness :
  let parse := parse_one frame_with_prototype parsed_with_prototype in
  let es := [Subscribe a_handler; Send (JString "a"); SockOpen 0;
             Send (JString "b")] in
  exists w,
    run parse sample_stringify default_config es initial = Some w
    /\ (subsequence (transmitted w ++ queue w)
          (map sample_stringify (sends_of es))
        /\ (connected w = true -> queue w = [])).
Proof.
  cbv zeta. eexists. split; [vm_compute; reflexivity|].
  apply (@nothing_is_sent_twice
           (parse_one frame_with_prototype parsed_with_prototype)
           sample_stringify default_config
           [Subscribe a_handler; Send (JString "a"); SockOpen 0;
            Send (JString "b")]).
  vm_compute. reflexivity.
Defined.

(** The socket fails, a reconnect is pending, and the client is disposed;
    then a handler subscribes. *)
Lemma disposed_client_schedules_no_reconnect_witness :
  let parse := parse_one frame_with_prototype parsed_with_prototype in
  let run := run parse sample_stringify default_config in
  exists w w',
    run [Subscribe a_handler; SockClose 0 (1 # 2)] initial = Some w
    /\ run [Subscribe another_handler] (dispose w) = Some w'
    /\ (reconnectTimer w' = None
        /\ next_timer w' = next_timer w
        /\ incl (timers w') (timers w)
        /\ (forall t, reconnectTimer w = Some t -> timer_pending t w' = false)).
Proof.
  cbv zeta. eexists. eexists.
  split; [vm_compute; reflexivity|].
  split; [vm_compute; reflexivity|].
  apply (@disposed_client_schedules_no_reconnect
           (parse_one frame_with_prototype parsed_with_prototype)
           sample_stringify default_config
           [Subscribe another_handler]).
  vm_compute. reflexivity.
Defined.

(** A well-formed frame [{"type":"chat"}] arrives on the open socket of a
    client with one handler. *)
Lemma no_frame_reaches_a_listener_witness :
  let frame := ("{" ++ dq ++ "type" ++ dq ++ ":" ++ dq ++ "chat" ++ dq ++ "}")%string in
  let parse := parse_one frame (JObject [("type"%string, JString "chat")]) in
  let es := [Subscribe a_handler; SockOpen 0; SockMessage 0 frame] in
  exists w',
    run parse sample_stringify default_config es initial = Some w'
    /\ delivered w' = delivered initial.
Proof.
  cbv zeta. eexists. split; [vm_compute; reflexivity|].
  apply (@no_frame_reaches_a_listener
           (parse_one
              ("{" ++ dq ++ "type" ++ dq ++ ":" ++ dq ++ "chat" ++ dq ++ "}")
              (JObject [("type"%string, JString "chat")]))
           sample_stringify default_config
           [Subscribe a_handler; SockOpen 0;
            SockMessage 0
              ("{" ++ dq ++ "type" ++ dq ++ ":" ++ dq ++ "chat" ++ dq ++ "}")]).
  vm_compute. reflexivity.
Defined.

(** The first socket of a subscribed client fails before any retry. *)
Lemma close_schedules_a_retry_witness :
  let parse := parse_one frame_with_prototype parsed_with_prototype in
  let o := default_config in
  let w := subscribe a_handler initial in
  exists w',
    (maxAttempts o <= 0 \/ Z.of_nat (attempts w) < maxAttempts o)
    /\ disposed w = false
    /\ listeners w <> []
    /\ step parse sample_stringify o (SockClose 0 (1 # 2)) w = Some w'
    /\ scheduled o (1 # 2) (set_socket_state 0 CLOSED w) w'.
Proof.
  cbv zeta. eexists.
  split; [right; reflexivity|].
  split; [reflexivity|].
  split; [discriminate|].
  split; [vm_compute; reflexivity|].
  apply (@close_schedules_a_retry
           (parse_one frame_with_prototype parsed_with_prototype)
           sample_stringify default_config 0%nat (1 # 2)
           (subscribe a_handler initial)).
  - right. reflexivity.
  - reflexivity.
  - discriminate.
  - vm_compute. reflexivity.
Defined.

(** The first socket fails and a second handler subscribes while the
    retry is pending: the client constructs a second socket, and a third
    when the timer fires.  The second socket then opens while the client
    holds the third, which is still connecting, and a message waits in the
    queue. *)
Lemma stale_open_flushes_nothing_witness :
  let parse := parse_one frame_with_prototype parsed_with_prototype in
  let o := default_config in
  let es := [Subscribe a_handler; SockClose 0 (1 # 2);
             Subscribe another_handler; TimerFire 1; Send (JString "a")] in
  exists w w',
    run parse sample_stringify o es initial = Some w
    /\ ws_readyState_is OPEN (set_socket_state 1 OPEN w) = false
    /\ step parse sample_stringify o (SockOpen 1) w = Some w'
    /\ (attempts w' = 0%nat
        /\ queue w' = queue w
        /\ transmitted w' = transmitted w
        /\ ws w' = ws w).
Proof.
  cbv zeta. eexists. eexists.
  split; [vm_compute; reflexivity|].
  split; [reflexivity|].
  split; [vm_compute; reflexivity|].
  apply (@stale_open_flushes_nothing
           (parse_one frame_with_prototype parsed_with_prototype)
           sample_stringify default_config 1%nat).
  - reflexivity.
  - vm_compute. reflexivity.
Defined.

(** The fourth attempt of a client with the default cap of 30 seconds,
    the draw being one half. *)
Lemma backoff_grows_to_the_cap_witness :
  let o := default_config in
  (0 <= 1 # 2)%Q
  /\ (0 < maxBackoffMs o)%Q
  /\ ((backoff_base o 3 <= backoff_base o 4)%Q
      /\ (backoff_base o 3 <= maxBackoffMs o)%Q
      /\ ((maxBackoffMs o <= 1000 * 2 ^ Z.of_nat 3)%Q ->
          (backoff_base o 3 == maxBackoffMs o)%Q)
      /\ (0 < backoff_delay o 3 (1 # 2))%Q).
Proof.
  cbv zeta.
  split; [vm_compute; discriminate|].
  split; [vm_compute; reflexivity|].
  apply (@backoff_grows_to_the_cap default_config 3 (1 # 2)).
  - vm_compute. discriminate.
  - vm_compute. reflexivity.
Defined.

End ClientMore.

(* ===================================================================== *)
(** * More about the server *)
(* ===================================================================== *)

Module ServerMore.
Import Json Server ServerFacts.

Local Open Scope string_scope.
Local Open Scope Z_scope.
Local Open Scope list_scope.

Section Machine.
Variable JSON_parse : string -> option json.
Variable JSON_stringify : json -> string.
Variable options : WSServerOptions.

Local Abbreviation step := (Server.step JSON_parse JSON_stringify options).
Local Abbreviation run := (Server.run JSON_parse JSON_stringify options).

(** ** The ceiling along a run *)

Lemma filter_length_le {A} (p : A -> bool) l :
  (List.length (filter p l) <= List.length l)%nat.
Proof.
  induction l as [|x l IH]; simpl; [lia|].
  destruct (p x); simpl; lia.
Qed.

Lemma filter_map_length_le {A} (p : A -> bool) (f : A -> A) l :
  (forall x, p (f x) = true -> p x = true) ->
  (List.length (filter p (map f l)) <= List.length (filter p l))%nat.
Proof.
  intros H. induction l as [|x l IH]; simpl; [lia|].
  destruct (p (f x)) eqn:E.
  - rewrite (H x E). simpl. lia.
  - destruct (p x); simpl; lia.
Qed.

Lemma filter_filter_length_le {A} (p q : A -> bool) l :
  (List.length (filter p (filter q l)) <= List.length (filter p l))%nat.
Proof.
  induction l as [|x l IH]; simpl; [lia|].
  destruct (q x); simpl; destruct (p x); simpl; lia.
Qed.

Lemma is_open_probed c : is_open (probed c) = true -> is_open c = true.
Proof.
  unfold probed, closing, is_open.
  destruct (isAlive c) as [[|]|]; simpl; try (intros H; exact H).
  destruct (readyState_of c) eqn:E; simpl; rewrite ?E; simpl; intros H;
    first [exact H | discriminate].
Qed.

Lemma step_open_count e s s' :
  let max := default (maxConnections options) 100 in
  0 < max ->
  ids_fresh s ->
  Z.of_nat (List.length (open_clients s)) <= max ->
  step e s = Some s' ->
  Z.of_nat (List.length (open_clients s')) <= max.
Proof.
  intros max Pos Fr B.
  destruct e as [r| |id|id raw|id|m| |]; simpl; intros H.
  - destruct (accepting s); [|discriminate]. inversion H; subst; clear H.
    destruct (admits options r) eqn:A.
    + destruct (@handleUpgrade_admitted options r s Fr A) as (C & _).
      rewrite (@open_clients_app (handleUpgrade options r s) _ (clients s) C).
      fold (open_clients s).
      pose proof (filter_length_le is_open (clients s)) as Le.
      fold (open_clients s) in Le.
      unfold over_limit. fold max.
      destruct (Z.ltb_spec 0 max) as [_|No]; [|lia]. cbn [andb].
      destruct (Z.ltb_spec max (Z.of_nat (S (List.length (clients s)))))
        as [Over|Under];
        cbn [is_open readyState_of readyState_eqb]; lia.
    + destruct (@handleUpgrade_refused options r s A) as (C & _).
      unfold open_clients. rewrite C. exact B.
  - destruct (interval_active s); [|discriminate]. inversion H; subst; clear H.
    destruct (heartbeat_tick_spec s) as (C & _).
    unfold open_clients in *. rewrite C.
    pose proof (filter_map_length_le is_open probed (clients s) is_open_probed).
    lia.
  - destruct (find_conn id s); [|discriminate]. inversion H; subst; clear H.
    unfold open_clients, on_pong, with_conn in *. simpl.
    pose proof (filter_map_length_le is_open
                  (fun c => if Nat.eqb (conn_id c) id
                            then set_isAlive true c else c)
                  (clients s)) as Le.
    assert (Keep : forall c,
               is_open (if Nat.eqb (conn_id c) id
                        then set_isAlive true c else c) = true ->
               is_open c = true).
    { intros c. destruct (Nat.eqb (conn_id c) id); intros X; exact X. }
    specialize (Le Keep). lia.
  - destruct (find_conn id s) as [c|]; [|discriminate].
    destruct (routed c && is_open c); [|discriminate].
    inversion H; subst; clear H.
    destruct (@on_message_frame JSON_parse options id raw s) as (C & _).
    unfold open_clients in *. rewrite C. exact B.
  - destruct (find_conn id s); [|discriminate]. inversion H; subst; clear H.
    unfold open_clients, on_close in *. simpl.
    pose proof (filter_filter_length_le is_open
                  (fun c => negb (Nat.eqb (conn_id c) id)) (clients s)).
    lia.
  - inversion H; subst; clear H.
    destruct (@broadcast_frame JSON_stringify s m) as (C & _).
    unfold open_clients in *. rewrite C. exact B.
  - inversion H; subst; clear H. exact B.
  - inversion H; subst; clear H. exact B.
Qed.

(** X14.  With a positive connection ceiling, the default of 100
    included, the server never has more open connections than the
    ceiling, whatever handshakes, heartbeats, pongs, messages, closes and
    broadcasts come, in whatever order. *)
Theorem open_connections_never_exceed_ceiling :
  forall (es : list event) (s : WebSocketServer),
    0 < default (maxConnections options) 100 ->
    run es new_server = Some s ->
    Z.of_nat (List.length (open_clients s))
    <= default (maxConnections options) 100.
Proof.
  intros es s Pos H.
  assert (G : forall es s0 s1,
             ids_fresh s0 ->
             Z.of_nat (List.length (open_clients s0))
             <= default (maxConnections options) 100 ->
             run es s0 = Some s1 ->
             Z.of_nat (List.length (open_clients s1))
             <= default (maxConnections options) 100).
  { clear es s H. induction es as [|e es IH]; intros s0 s1 Fr B H; simpl in H.
    - inversion H; subst. exact B.
    - destruct (step e s0) as [s2|] eqn:E; [|discriminate].
      apply (IH s2 s1); [|  |exact H].
      + apply (@step_ids_fresh JSON_parse JSON_stringify options e s0 s2 Fr E).
      + apply (@step_open_count e s0 s2 Pos Fr B E). }
  apply (G es new_server s); [constructor | simpl; lia | exact H].
Qed.

(** ** Answered probes *)

Lemma probe_is_probe id new :
  filter is_probe new = [] -> ~ In (Terminated id) new.
Proof.
  intros F I.
  assert (X : In (Terminated id) (filter is_probe new))
    by (apply filter_In; split; [exact I | reflexivity]).
  rewrite F in X. exact X.
Qed.

Lemma tick_spares_unflagged id s :
  all_named id unflagged s ->
  ~ In (Terminated id) (map probe_of (clients s)).
Proof.
  unfold all_named. rewrite Forall_forall. intros A I.
  apply in_map_iff in I. destruct I as [c [E I]].
  unfold probe_of in E.
  destruct (isAlive c) as [[|]|] eqn:F; try discriminate.
  inversion E as [Eid]. apply (A c I Eid). exact F.
Qed.

Lemma step_unflagged id e s s' :
  ids_fresh s -> (id < next_id s)%nat ->
  all_named id unflagged s ->
  e <> Tick ->
  step e s = Some s' ->
  all_named id unflagged s'.
Proof.
  intros Fr Lt A NT H. unfold all_named in *.
  destruct (@step_clients JSON_parse JSON_stringify options e s s' Fr H)
    as [[C|[[c0 [C [E N]]]|[[ET C]|[[id' [E C]]|[id' [_ C]]]]]] L];
    try rewrite C; rewrite Forall_forall in *.
  - exact A.
  - intros c I. apply in_app_or in I. destruct I as [I|[I|[]]].
    + apply A. exact I.
    + subst c0. intros Eid. lia.
  - contradiction.
  - intros c I. apply in_map_iff in I. destruct I as [c' [<- I]].
    destruct (Nat.eqb_spec (conn_id c') id') as [Ec|Ec].
    + intros _. unfold unflagged. simpl. discriminate.
    + apply A. exact I.
  - intros c I. apply filter_In in I. destruct I as [I _]. apply A. exact I.
Qed.

Lemma pong_unflags id s : all_named id unflagged (on_pong id s).
Proof.
  unfold all_named, on_pong, with_conn. simpl.
  apply Forall_forall. intros c I E.
  apply in_map_iff in I. destruct I as [c' [<- I]].
  destruct (Nat.eqb_spec (conn_id c') id) as [Ec|Ec].
  - unfold unflagged. simpl. discriminate.
  - contradiction.
Qed.

Lemma run_answered id es :
  forall alive s s',
    ids_fresh s -> (id < next_id s)%nat ->
    (alive = true -> all_named id unflagged s) ->
    probes_answered id alive es = true ->
    run es s = Some s' ->
    exists new, log s' = log s ++ new /\ ~ In (Terminated id) new.
Proof.
  induction es as [|e es IH]; intros alive s s' Fr Lt A P H; simpl in H.
  - inversion H; subst. exists []. rewrite app_nil_r. auto.
  - destruct (step e s) as [s1|] eqn:E; [|discriminate].
    pose proof (@step_ids_fresh JSON_parse JSON_stringify options e s s1 Fr E)
      as Fr1.
    assert (Lt1 : (id < next_id s1)%nat).
    { destruct (@step_clients JSON_parse JSON_stringify options e s s1 Fr E)
        as [_ L]. lia. }
    destruct (@step_log JSON_parse JSON_stringify options e s s1 E)
      as [n1 [L1 Q1]].
    assert (Next : forall alive',
               (alive' = true -> all_named id unflagged s1) ->
               probes_answered id alive' es = true ->
               ~ In (Terminated id) n1 ->
               exists new, log s' = log s ++ new /\ ~ In (Terminated id) new).
    { intros alive' A' P' N1.
      destruct (IH alive' s1 s' Fr1 Lt1 A' P' H) as [n2 [L2 N2]].
      exists (n1 ++ n2). split; [rewrite L2, L1, app_assoc; reflexivity|].
      intros I. apply in_app_or in I. tauto. }
    assert (Other : e <> Tick -> alive = true -> all_named id unflagged s1).
    { intros NT At. apply (@step_unflagged id e s s1 Fr Lt (A At) NT E). }
    destruct e as [r| |id'|id' raw|id'|m| |]; simpl in P.
    + apply (Next alive); [intros At; apply Other; [discriminate|exact At]
                          | exact P | apply probe_is_probe; exact Q1].
    + apply andb_prop in P. destruct P as [At P].
      apply (Next false); [discriminate | exact P |].
      subst n1. apply tick_spares_unflagged. apply A. exact At.
    + apply (Next (alive || Nat.eqb id' id)%bool);
        [| exact P | apply probe_is_probe; exact Q1].
      intros At. simpl in E.
      destruct (find_conn id' s) eqn:F; [|discriminate].
      destruct (Nat.eqb_spec id' id) as [Eid|Nid].
      * subst id'. inversion E; subst. apply pong_unflags.
      * rewrite orb_false_r in At.
        apply (@step_unflagged id (Pong id') s s1 Fr Lt (A At));
          [discriminate|].
        simpl. rewrite F. exact E.
    + apply (Next alive); [intros At; apply Other; [discriminate|exact At]
                          | exact P | apply probe_is_probe; exact Q1].
    + apply (Next alive); [intros At; apply Other; [discriminate|exact At]
                          | exact P | apply probe_is_probe; exact Q1].
    + apply (Next alive); [intros At; apply Other; [discriminate|exact At]
                          | exact P | apply probe_is_probe; exact Q1].
    + apply (Next alive); [intros At; apply Other; [discriminate|exact At]
                          | exact P | apply probe_is_probe; exact Q1].
    + apply (Next alive); [intros At; apply Other; [discriminate|exact At]
                          | exact P | apply probe_is_probe; exact Q1].
Qed.

(** X15.  A connection that answers every ping is never terminated by the
    heartbeat: when its flag is not lowered to begin with and a pong of it
    arrives between any two consecutive ticks, no run of the server calls
    [terminate] on it. *)
Theorem answered_probes_keep_the_connection :
  forall (id : nat) (es : list event) (s s' : WebSocketServer),
    ids_fresh s ->
    tracked id s = true ->
    all_named id unflagged s ->
    probes_answered id true es = true ->
    run es s = Some s' ->
    exists new, log s' = log s ++ new /\ ~ In (Terminated id) new.
Proof.
  intros id es s s' Fr T A P H.
  apply (@run_answered id es true s s' Fr (@tracked_lt id s Fr T));
    [intros _; exact A | exact P | exact H].
Qed.

(** ** Successive broadcasts *)

(** X16.  Successive broadcasts reach a connection in call order: after
    the calls [broadcast(wss, m)] for the messages [ms], one after the
    other, a tracked open connection has been sent the serializations of
    those of [ms] that are within the size limit, in the order of [ms],
    and any other connection nothing; the connections are left as they
    were. *)
Theorem broadcasts_arrive_in_call_order :
  forall (ms : list json) (wss : WebSocketServer) (id : nat),
    NoDup (map conn_id (clients wss)) ->
    exists wss',
      run (broadcasts ms) wss = Some wss'
      /\ clients wss' = clients wss
      /\ sent_to id (log wss') =
         sent_to id (log wss) ++
         (if tracked_open id wss
          then map JSON_stringify (filter (within_limit JSON_stringify) ms)
          else []).
Proof.
  induction ms as [|m ms IH]; intros wss id ND.
  - exists wss. simpl. split; [reflexivity|]. split; [reflexivity|].
    destruct (tracked_open id wss); rewrite app_nil_r; reflexivity.
  - assert (C : clients (broadcast JSON_stringify wss m) = clients wss)
      by (destruct (@broadcast_frame JSON_stringify wss m) as (C & _);
          exact C).
    assert (ND1 : NoDup (map conn_id (clients (broadcast JSON_stringify wss m))))
      by (rewrite C; exact ND).
    destruct (IH (broadcast JSON_stringify wss m) id ND1) as [w' [R [C' S]]].
    exists w'. split; [exact R|]. split; [congruence|].
    rewrite S. unfold tracked_open. rewrite C. fold (tracked_open id wss).
    cbn [filter]. unfold within_limit at 2. unfold broadcast.
    destruct (MAX_BROADCAST_SIZE <? js_length (JSON_stringify m)); cbn [negb].
    + simpl. rewrite !sent_to_app. simpl. rewrite !app_nil_r. reflexivity.
    + cbn [emit log clients]. rewrite !sent_to_app.
      rewrite (@sent_to_broadcast_forEach (JSON_stringify m) id _ ND).
      fold (tracked_open id wss). simpl.
      destruct (tracked_open id wss); simpl;
        rewrite <- ?app_assoc; reflexivity.
Qed.

(** ** A connection rejected for capacity *)

Lemma broadcast_forEach_no_callback id data cs :
  filter (is_callback_of id) (broadcast_forEach data cs) = [].
Proof.
  induction cs as [|c rest IH]; simpl; [reflexivity|].
  destruct (is_open c); simpl; exact IH.
Qed.

Lemma probes_no_callback id cs :
  filter (is_callback_of id) (map probe_of cs) = [].
Proof.
  induction cs as [|c rest IH]; simpl; [reflexivity|].
  unfold probe_of at 1. destruct (isAlive c) as [[|]|]; simpl; exact IH.
Qed.

Lemma find_conn_named id s c :
  find_conn id s = Some c -> In c (clients s) /\ conn_id c = id.
Proof.
  unfold find_conn. intros F. apply find_some in F.
  destruct F as [I E]. apply Nat.eqb_eq in E. auto.
Qed.

Lemma step_unrouted id e s s' :
  ids_fresh s -> (id < next_id s)%nat ->
  all_named id unrouted s ->
  step e s = Some s' ->
  all_named id unrouted s'
  /\ exists new, log s' = log s ++ new
                 /\ filter (is_callback_of id) new = [].
Proof.
  intros Fr Lt A H. split.
  - apply (@step_all_named JSON_parse JSON_stringify options id unrouted e s s'
             Fr Lt); try assumption; unfold unrouted.
    + intros c Hc. unfold closing. destruct (readyState_of c); exact Hc.
    + intros c Hc. exact Hc.
    + left. intros c Hc. exact Hc.
  - destruct e as [r| |id'|id' raw|id'|m| |]; simpl in H.
    + destruct (accepting s); [|discriminate]. inversion H; subst; clear H.
      assert (Ne : Nat.eqb (next_id s) id = false)
        by (apply Nat.eqb_neq; lia).
      destruct (admits options r) eqn:Ad.
      * destruct (@handleUpgrade_admitted options r s Fr Ad) as (_ & _ & L).
        eexists. split; [exact L|].
        destruct (over_limit _ _); [reflexivity|].
        destruct (onConnection options); simpl; rewrite ?Ne; reflexivity.
      * destruct (@handleUpgrade_refused options r s Ad) as (_ & _ & L).
        eexists. split; [exact L | reflexivity].
    + destruct (interval_active s); [|discriminate]. inversion H; subst; clear H.
      destruct (heartbeat_tick_spec s) as (_ & L & _).
      eexists. split; [exact L | apply probes_no_callback].
    + destruct (find_conn id' s); [|discriminate]. inversion H; subst; clear H.
      exists []. simpl. rewrite app_nil_r. auto.
    + destruct (find_conn id' s) as [c|] eqn:F; [|discriminate].
      destruct (routed c) eqn:Rc; [|discriminate].
      destruct (is_open c); [|discriminate].
      inversion H; subst; clear H.
      destruct (find_conn_named id' s F) as [I Ec].
      assert (Ne : Nat.eqb id' id = false).
      { apply Nat.eqb_neq. intros Eid. rewrite Eid in Ec.
        unfold all_named in A. rewrite Forall_forall in A.
        specialize (A c I Ec). unfold unrouted in A. congruence. }
      unfold on_message.
      destruct (negb (onMessage options));
        [exists []; simpl; rewrite app_nil_r; auto|].
      destruct (JSON_parse raw);
        [|exists []; simpl; rewrite app_nil_r; auto].
      eexists. split; [reflexivity|]. simpl. rewrite Ne. reflexivity.
    + destruct (find_conn id' s); [|discriminate]. inversion H; subst; clear H.
      exists []. simpl. rewrite app_nil_r. auto.
    + inversion H; subst; clear H. unfold broadcast.
      destruct (MAX_BROADCAST_SIZE <? js_length (JSON_stringify m)); simpl;
        rewrite <- app_assoc; eexists; (split; [reflexivity|]); simpl;
        [reflexivity | apply broadcast_forEach_no_callback].
    + inversion H; subst; clear H. exists []. simpl. rewrite app_nil_r. auto.
    + inversion H; subst; clear H. exists []. simpl. rewrite app_nil_r. auto.
Qed.

Lemma step_wire_other e s :
  (forall id raw, e <> Message id raw) ->
  step_wire JSON_parse JSON_stringify options e s = step e s.
Proof.
  destruct e; try reflexivity. intros N. exfalso. apply (N id raw). reflexivity.
Qed.

(** A frame from the wire changes nothing but the log, and only a routed
    connection makes it call [onMessage], for itself. *)
Lemma step_wire_unrouted id e s s' :
  ids_fresh s -> (id < next_id s)%nat ->
  all_named id unrouted s ->
  step_wire JSON_parse JSON_stringify options e s = Some s' ->
  ids_fresh s' /\ (id < next_id s')%nat
  /\ all_named id unrouted s'
  /\ exists new, log s' = log s ++ new
                 /\ filter (is_callback_of id) new = [].
Proof.
  intros Fr Lt A H.
  assert (Other : step e s = Some s' ->
                  ids_fresh s' /\ (id < next_id s')%nat
                  /\ all_named id unrouted s'
                  /\ exists new, log s' = log s ++ new
                                 /\ filter (is_callback_of id) new = []).
  { intros E.
    destruct (step_unrouted e Fr Lt A E) as [A1 L1].
    split; [apply (@step_ids_fresh JSON_parse JSON_stringify options e s s'
                     Fr E)|].
    split; [|split; [exact A1 | exact L1]].
    destruct (@step_clients JSON_parse JSON_stringify options e s s' Fr E)
      as [_ L]. lia. }
  destruct e as [r| |id'|id' raw|id'|m| |];
    try (apply Other; exact H).
  simpl in H. destruct (find_conn id' s) as [c|] eqn:F; [|discriminate].
  inversion H; subst s'; clear H.
  destruct (find_conn_named id' s F) as [I Ec].
  destruct (routed c) eqn:Rc.
  - destruct (@on_message_frame JSON_parse options id' raw s) as (C & N & _).
    assert (Ne : Nat.eqb id' id = false).
    { apply Nat.eqb_neq. intros Eid. rewrite Eid in Ec.
      unfold all_named in A. rewrite Forall_forall in A.
      specialize (A c I Ec). unfold unrouted in A. congruence. }
    split; [unfold ids_fresh; rewrite C, N; exact Fr|].
    split; [rewrite N; exact Lt|].
    split; [unfold all_named; rewrite C; exact A|].
    unfold on_message.
    destruct (negb (onMessage options));
      [exists []; simpl; rewrite app_nil_r; auto|].
    destruct (JSON_parse raw);
      [|exists []; simpl; rewrite app_nil_r; auto].
    eexists. split; [reflexivity|]. simpl. rewrite Ne. reflexivity.
  - split; [exact Fr|]. split; [exact Lt|]. split; [exact A|].
    exists []. rewrite app_nil_r. auto.
Qed.

Lemma run_wire_unrouted id es :
  forall s s',
    ids_fresh s -> (id < next_id s)%nat ->
    all_named id unrouted s ->
    run_wire JSON_parse JSON_stringify options es s = Some s' ->
    exists new, log s' = log s ++ new
                /\ filter (is_callback_of id) new = [].
Proof.
  induction es as [|e es IH]; intros s s' Fr Lt A H; simpl in H.
  - inversion H; subst. exists []. rewrite app_nil_r. auto.
  - destruct (step_wire JSON_parse JSON_stringify options e s) as [s1|] eqn:E;
      [|discriminate].
    destruct (step_wire_unrouted e Fr Lt A E)
      as (Fr1 & Lt1 & A1 & n1 & L1 & F1).
    destruct (IH s1 s' Fr1 Lt1 A1 H) as [n2 [L2 F2]].
    exists (n1 ++ n2). split; [rewrite L2, L1, app_assoc; reflexivity|].
    rewrite filter_app, F1, F2. reflexivity.
Qed.

Lemma find_conn_last id s cs c :
  clients s = cs ++ [c] ->
  Forall (fun c' => (conn_id c' < id)%nat) cs ->
  conn_id c = id ->
  find_conn id s = Some c.
Proof.
  intros Ec F E. unfold find_conn. rewrite Ec. clear Ec.
  induction F as [|c' rest Hc' _ IH]; simpl.
  - rewrite E, Nat.eqb_refl. reflexivity.
  - assert (N : Nat.eqb (conn_id c') id = false) by (apply Nat.eqb_neq; lia).
    rewrite N. exact IH.
Qed.

(** X17.  A connection that is closed for capacity never reaches the
    application.  [onConnection] is not called for it at the handshake;
    the connection listener returns before it attaches a message listener,
    so a frame the rejected client sends while the close is under way is
    dropped and changes nothing; and whatever comes later, frames from any
    tracked connection included, neither [onConnection] nor [onMessage] is
    ever called for it. *)
Theorem rejected_connection_reaches_no_callback :
  forall (r : IncomingMessage) (s s' : WebSocketServer) (later : list event),
    ids_fresh s ->
    admits options r = true ->
    over_limit options (S (List.length (clients s))) = true ->
    run_wire JSON_parse JSON_stringify options (Upgrade r :: later) s
    = Some s' ->
    (forall raw,
       step_wire JSON_parse JSON_stringify options
         (Message (next_id s) raw) (handleUpgrade options r s)
       = Some (handleUpgrade options r s))
    /\ exists new,
         log s' = log s ++ new
         /\ filter (is_callback_of (next_id s)) new = [].
Proof.
  intros r s s' later Fr Ad Over H. simpl in H.
  destruct (accepting s) eqn:Acc; [|discriminate].
  destruct (@handleUpgrade_admitted options r s Fr Ad) as (C & N & L).
  rewrite Over in C, L.
  set (s1 := handleUpgrade options r s) in *.
  split.
  { intros raw. simpl.
    rewrite (@find_conn_last (next_id s) s1 (clients s) _ C Fr eq_refl).
    reflexivity. }
  assert (Fr1 : ids_fresh s1).
  { apply (@step_ids_fresh JSON_parse JSON_stringify options (Upgrade r) s s1 Fr).
    simpl. rewrite Acc. reflexivity. }
  assert (A1 : all_named (next_id s) unrouted s1).
  { unfold all_named. rewrite C. apply Forall_app. split.
    - apply Forall_forall. intros c I E.
      unfold ids_fresh in Fr. rewrite Forall_forall in Fr.
      specialize (Fr c I). lia.
    - constructor; [intros _; reflexivity | constructor]. }
  destruct (@run_wire_unrouted (next_id s) later s1 s' Fr1
              ltac:(rewrite N; lia) A1 H) as [n2 [L2 F2]].
  eexists. split; [rewrite L2, L, <- app_assoc; reflexivity|].
  rewrite filter_app, F2. reflexivity.
Qed.

(** ** Broadcasting in a reachable state *)

Lemma NoDup_snoc {A} (l : list A) x : NoDup l -> ~ In x l -> NoDup (l ++ [x]).
Proof.
  induction l as [|y l IH]; simpl; intros ND NI.
  - constructor; [intros [] | constructor].
  - inversion ND as [|y' l' Hy ND']; subst. constructor.
    + intros I. apply in_app_or in I. destruct I as [I|[I|[]]].
      * contradiction.
      * apply NI. left. symmetry. exact I.
    + apply IH; [exact ND' | intros I; apply NI; right; exact I].
Qed.

Lemma NoDup_map_filter {A B} (f : A -> B) (p : A -> bool) l :
  NoDup (map f l) -> NoDup (map f (filter p l)).
Proof.
  induction l as [|x l IH]; simpl; intros ND; [constructor|].
  inversion ND as [|y l' Hy ND']; subst.
  destruct (p x); simpl; [|apply IH; exact ND'].
  constructor; [|apply IH; exact ND'].
  intros I. apply Hy. apply in_map_iff in I. destruct I as [z [E I]].
  apply filter_In in I. apply in_map_iff. exists z. tauto.
Qed.

Lemma map_conn_id_ext (f : AliveWebSocket -> AliveWebSocket) cs :
  (forall c, conn_id (f c) = conn_id c) ->
  map conn_id (map f cs) = map conn_id cs.
Proof.
  intros H. rewrite map_map. apply map_ext. exact H.
Qed.

Lemma step_names_distinct e s s' :
  ids_fresh s ->
  NoDup (map conn_id (clients s)) ->
  step e s = Some s' ->
  NoDup (map conn_id (clients s')).
Proof.
  intros Fr ND H.
  destruct (@step_clients JSON_parse JSON_stringify options e s s' Fr H)
    as [[C|[[c0 [C [E N]]]|[[_ C]|[[id [_ C]]|[id [_ C]]]]]] _];
    rewrite C.
  - exact ND.
  - rewrite map_app. simpl. apply NoDup_snoc; [exact ND|].
    intros I. apply in_map_iff in I. destruct I as [c [Ec I]].
    unfold ids_fresh in Fr. rewrite Forall_forall in Fr.
    specialize (Fr c I). lia.
  - rewrite map_conn_id_ext by apply conn_id_probed. exact ND.
  - rewrite map_conn_id_ext; [exact ND|].
    intros c. destruct (Nat.eqb (conn_id c) id); reflexivity.
  - apply NoDup_map_filter. exact ND.
Qed.

Lemma run_names_distinct es :
  forall s s',
    ids_fresh s ->
    NoDup (map conn_id (clients s)) ->
    run es s = Some s' ->
    NoDup (map conn_id (clients s')).
Proof.
  induction es as [|e es IH]; intros s s' Fr ND H; simpl in H.
  - inversion H; subst. exact ND.
  - destruct (step e s) as [s1|] eqn:E; [|discriminate].
    apply (IH s1 s'); [| |exact H].
    + apply (@step_ids_fresh JSON_parse JSON_stringify options e s s1 Fr E).
    + apply (step_names_distinct e Fr ND E).
Qed.

(** X20.  In whatever state the server is, after any handshakes,
    heartbeats, pongs, messages, closes and broadcasts, one call of
    [broadcast] with a message within the size limit sends it exactly once
    to each connection that is tracked and open and to no other; a larger
    message is sent to none. *)
Theorem broadcast_reaches_each_open_connection_once :
  forall (es : list event) (s : WebSocketServer) (m : json) (id : nat),
    run es new_server = Some s ->
    sent_to id (log (broadcast JSON_stringify s m)) =
    sent_to id (log s) ++
    (if within_limit JSON_stringify m && tracked_open id s
     then [JSON_stringify m] else []).
Proof.
  intros es s m id H.
  assert (ND : NoDup (map conn_id (clients s))).
  { apply (@run_names_distinct es new_server s); [constructor | constructor
                                                  | exact H]. }
  unfold within_limit, broadcast.
  destruct (MAX_BROADCAST_SIZE <? js_length (JSON_stringify m)); cbn [negb andb].
  - simpl. rewrite !sent_to_app. simpl. rewrite !app_nil_r. reflexivity.
  - cbn [emit log clients]. rewrite !sent_to_app.
    rewrite (@sent_to_broadcast_forEach (JSON_stringify m) id _ ND).
    fold (tracked_open id s). simpl. rewrite app_nil_r. reflexivity.
Qed.

End Machine.

(** ** Concrete runs *)

(** A ceiling of two: three handshakes, a tick, the first connection goes
    away and a fourth handshake arrives. *)
Lemma open_connections_never_exceed_ceiling_witness :
  let options := with_maxConnections 2 in
  let r := request_from "http://localhost:4175" in
  let es := [Upgrade r; Upgrade r; Upgrade r; Tick; Close 0; Upgrade r] in
  exists s,
    0 < default (maxConnections options) 100
    /\ run no_parse Client.sample_stringify options es new_server = Some s
    /\ Z.of_nat (List.length (open_clients s))
       <= default (maxConnections options) 100.
Proof.
  cbv zeta. eexists.
  split; [reflexivity|].
  split; [vm_compute; reflexivity|].
  apply (@open_connections_never_exceed_ceiling
           no_parse Client.sample_stringify (with_maxConnections 2)
           [Upgrade (request_from "http://localhost:4175");
            Upgrade (request_from "http://localhost:4175");
            Upgrade (request_from "http://localhost:4175");
            Tick; Close 0;
            Upgrade (request_from "http://localhost:4175")]).
  - reflexivity.
  - vm_compute. reflexivity.
Defined.

(** Of two open connections the first answers every ping, the second
    none: after three ticks the first has not been terminated. *)
Lemma answered_probes_keep_the_connection_witness :
  let run := run no_parse Client.sample_stringify plain_options in
  let es := [Tick; Pong 0; Tick; Pong 0; Broadcast (JString "tick"); Tick] in
  exists s',
    ids_fresh two_open
    /\ tracked 0 two_open = true
    /\ all_named 0 unflagged two_open
    /\ probes_answered 0 true es = true
    /\ run es two_open = Some s'
    /\ exists new, log s' = log two_open ++ new /\ ~ In (Terminated 0) new.
Proof.
  cbv zeta.
  assert (Fr : ids_fresh two_open) by (repeat constructor).
  assert (A : all_named 0 unflagged two_open)
    by (repeat constructor; intros _; discriminate).
  eexists.
  split; [exact Fr|]. split; [reflexivity|]. split; [exact A|].
  split; [reflexivity|]. split; [vm_compute; reflexivity|].
  apply (@answered_probes_keep_the_connection
           no_parse Client.sample_stringify plain_options 0%nat
           [Tick; Pong 0; Tick; Pong 0; Broadcast (JString "tick"); Tick]
           two_open).
  - exact Fr.
  - reflexivity.
  - exact A.
  - reflexivity.
  - vm_compute. reflexivity.
Defined.

(** Two broadcasts to the three sample connections, seen from the first
    one. *)
Lemma broadcasts_arrive_in_call_order_witness :
  let stringify := Client.sample_stringify in
  let ms := [JString "one"; JString "two"] in
  NoDup (map conn_id (clients three_clients))
  /\ exists wss',
       run no_parse stringify plain_options (broadcasts ms) three_clients
       = Some wss'
       /\ clients wss' = clients three_clients
       /\ sent_to 0 (log wss') =
          sent_to 0 (log three_clients) ++
          (if tracked_open 0 three_clients
           then map stringify (filter (within_limit stringify) ms)
           else []).
Proof.
  cbv zeta.
  assert (ND : NoDup (map conn_id (clients three_clients)))
    by (simpl; repeat constructor; simpl; intuition discriminate).
  split; [exact ND|].
  apply (@broadcasts_arrive_in_call_order
           no_parse Client.sample_stringify plain_options
           [JString "one"; JString "two"] three_clients 0%nat ND).
Defined.

(** Three handshakes under a ceiling of two, then a broadcast, seen
    from the second connection and from the rejected third. *)
Lemma broadcast_reaches_each_open_connection_once_witness :
  let options := with_maxConnections 2 in
  let stringify := Client.sample_stringify in
  let r := request_from "http://localhost:4175" in
  let m := JString "tick" in
  exists s,
    run no_parse stringify options [Upgrade r; Upgrade r; Upgrade r] new_server
    = Some s
    /\ sent_to 1 (log (broadcast stringify s m)) =
       sent_to 1 (log s) ++
       (if within_limit stringify m && tracked_open 1 s
        then [stringify m] else [])
    /\ sent_to 2 (log (broadcast stringify s m)) =
       sent_to 2 (log s) ++
       (if within_limit stringify m && tracked_open 2 s
        then [stringify m] else []).
Proof.
  cbv zeta. eexists.
  split; [vm_compute; reflexivity|].
  split.
  - apply (@broadcast_reaches_each_open_connection_once
             no_parse Client.sample_stringify (with_maxConnections 2)
             [Upgrade (request_from "http://localhost:4175");
              Upgrade (request_from "http://localhost:4175");
              Upgrade (request_from "http://localhost:4175")]).
    vm_compute. reflexivity.
  - apply (@broadcast_reaches_each_open_connection_once
             no_parse Client.sample_stringify (with_maxConnections 2)
             [Upgrade (request_from "http://localhost:4175");
              Upgrade (request_from "http://localhost:4175");
              Upgrade (request_from "http://localhost:4175")]).
    vm_compute. reflexivity.
Defined.

(** The scenario of the security test, with both callbacks installed:
    [maxConnections = 2], two connections open, a third arrives and is
    closed.  The rejected client and the first client then send the same
    frame; a broadcast and a tick follow.  [onMessage] is called for the
    first client only. *)
Lemma rejected_connection_reaches_no_callback_witness :
  let options := with_callbacks 2 in
  let parse := Client.parse_one Client.chat_frame Client.parsed_chat in
  let r := request_from "http://localhost:4175" in
  let later := [Message 2 Client.chat_frame; Message 0 Client.chat_frame;
                Broadcast (JString "tick"); Tick] in
  exists s',
    ids_fresh two_open
    /\ admits options r = true
    /\ over_limit options (S (List.length (clients two_open))) = true
    /\ run_wire parse Client.sample_stringify options (Upgrade r :: later)
         two_open = Some s'
    /\ In (MessageCallback 0 (sanitizeJson Client.parsed_chat)) (log s')
    /\ ((forall raw,
           step_wire parse Client.sample_stringify options
             (Message (next_id two_open) raw) (handleUpgrade options r two_open)
           = Some (handleUpgrade options r two_open))
        /\ exists new,
             log s' = log two_open ++ new
             /\ filter (is_callback_of (next_id two_open)) new = []).
Proof.
  cbv zeta.
  assert (Fr : ids_fresh two_open) by (repeat constructor).
  eexists.
  split; [exact Fr|]. split; [reflexivity|]. split; [reflexivity|].
  split; [vm_compute; reflexivity|].
  split; [vm_compute; auto 10|].
  apply (@rejected_connection_reaches_no_callback
           (Client.parse_one Client.chat_frame Client.parsed_chat)
           Client.sample_stringify (with_callbacks 2)
           (request_from "http://localhost:4175") two_open _
           [Message 2 Client.chat_frame; Message 0 Client.chat_frame;
            Broadcast (JString "tick"); Tick]).
  - exact Fr.
  - reflexivity.
  - reflexivity.
  - vm_compute. reflexivity.
Defined.

End ServerMore.
